(** * Custom game assignment (Empirica): a shallow embedding of the handlers
    of [custom-game-assignment-guide.md] and the properties of the
    participant-to-session assignment engine.

    The guide's callbacks read and write three kinds of scopes (players,
    games, batches) through a shared context [ctx].  The context is modelled
    as an explicit store that every handler receives and returns; a game
    refers to its players by id, so that the player object a handler holds
    and the one reachable from [game.players] are one and the same.

    One run of a handler is one step: a callback runs without interleaving
    up to its first [await], and the assignment behind
    [await game.assignPlayer(player)] is taken to be in place before
    another callback reads the store. *)

From Stdlib Require Import ZArith QArith Qround List Sorting.Sorted Permutation Lia.
From stdpp Require Import base decidable option list gmap sets strings sorting.

#[local] Set Warnings "-clear-no-such-hyp".

Local Close Scope Q_scope.
Local Open Scope Z_scope.
Local Open Scope string_scope.
Local Open Scope nat_scope.
Local Open Scope list_scope.

(** ** Data model *)

(** [game.get("treatment")]: the immutable factors of a game. *)
Record Treatment := { playerCount : Z }.

(** A player scope.  Every field is one attribute the guide's handlers read
    or write with [player.get] / [player.set]; [None] is JavaScript's
    [null]. *)
Record Player := {
  p_id : string;
  p_gameID : option string;
  p_treatment : option Treatment;
  p_treatmentName : option string;
  p_ended : option string;
  p_skillLevel : option string;
  p_skillRating : option Z;
  p_surveyComplete : bool;
  p_termsAgreed : bool;
  p_waitingReason : option string;
  p_requestReplay : bool;
  p_replayError : option string
}.

(** A game scope; [g_players] is [game.players], held as the set of the
    ids of the member players ([game.players.length] is its [size]). *)
Record Game := {
  g_id : string;
  g_batchID : option string;
  g_hasStarted : bool;
  g_hasEnded : bool;
  g_treatment : Treatment;
  g_treatmentName : option string;
  g_requiredSkillLevel : option string;
  g_averageSkillRating : option Q;
  g_players : gset string
}.

Record Batch := { b_id : string; b_status : string }.

(** [ctx]: [ctx.scopesByKind(kind).values()] iterates a [Map] in insertion
    order, so each kind is a list, oldest scope first. *)
Record Ctx := {
  games : list Game;
  players : list Player;
  batches : list Batch
}.

(** ** Attribute writes *)

Definition set_assignment (gid : option string) (t : option Treatment)
    (tn : option string) (p : Player) : Player :=
  {| p_id := p_id p; p_gameID := gid; p_treatment := t; p_treatmentName := tn;
     p_ended := p_ended p; p_skillLevel := p_skillLevel p;
     p_skillRating := p_skillRating p; p_surveyComplete := p_surveyComplete p;
     p_termsAgreed := p_termsAgreed p; p_waitingReason := p_waitingReason p;
     p_requestReplay := p_requestReplay p; p_replayError := p_replayError p |}.

Definition set_gameID (v : option string) (p : Player) : Player :=
  set_assignment v (p_treatment p) (p_treatmentName p) p.

Definition set_ended (v : option string) (p : Player) : Player :=
  {| p_id := p_id p; p_gameID := p_gameID p; p_treatment := p_treatment p;
     p_treatmentName := p_treatmentName p;
     p_ended := v; p_skillLevel := p_skillLevel p;
     p_skillRating := p_skillRating p; p_surveyComplete := p_surveyComplete p;
     p_termsAgreed := p_termsAgreed p; p_waitingReason := p_waitingReason p;
     p_requestReplay := p_requestReplay p; p_replayError := p_replayError p |}.

Definition set_waitingReason (v : option string) (p : Player) : Player :=
  {| p_id := p_id p; p_gameID := p_gameID p; p_treatment := p_treatment p;
     p_treatmentName := p_treatmentName p;
     p_ended := p_ended p; p_skillLevel := p_skillLevel p;
     p_skillRating := p_skillRating p; p_surveyComplete := p_surveyComplete p;
     p_termsAgreed := p_termsAgreed p; p_waitingReason := v;
     p_requestReplay := p_requestReplay p; p_replayError := p_replayError p |}.

Definition set_requestReplay (v : bool) (p : Player) : Player :=
  {| p_id := p_id p; p_gameID := p_gameID p; p_treatment := p_treatment p;
     p_treatmentName := p_treatmentName p;
     p_ended := p_ended p; p_skillLevel := p_skillLevel p;
     p_skillRating := p_skillRating p; p_surveyComplete := p_surveyComplete p;
     p_termsAgreed := p_termsAgreed p; p_waitingReason := p_waitingReason p;
     p_requestReplay := v; p_replayError := p_replayError p |}.

Definition set_replayError (v : option string) (p : Player) : Player :=
  {| p_id := p_id p; p_gameID := p_gameID p; p_treatment := p_treatment p;
     p_treatmentName := p_treatmentName p;
     p_ended := p_ended p; p_skillLevel := p_skillLevel p;
     p_skillRating := p_skillRating p; p_surveyComplete := p_surveyComplete p;
     p_termsAgreed := p_termsAgreed p; p_waitingReason := p_waitingReason p;
     p_requestReplay := p_requestReplay p; p_replayError := v |}.

Definition set_players (m : gset string) (g : Game) : Game :=
  {| g_id := g_id g; g_batchID := g_batchID g; g_hasStarted := g_hasStarted g;
     g_hasEnded := g_hasEnded g; g_treatment := g_treatment g;
     g_treatmentName := g_treatmentName g;
     g_requiredSkillLevel := g_requiredSkillLevel g;
     g_averageSkillRating := g_averageSkillRating g; g_players := m |}.

Definition set_hasStarted (v : bool) (g : Game) : Game :=
  {| g_id := g_id g; g_batchID := g_batchID g; g_hasStarted := v;
     g_hasEnded := g_hasEnded g; g_treatment := g_treatment g;
     g_treatmentName := g_treatmentName g;
     g_requiredSkillLevel := g_requiredSkillLevel g;
     g_averageSkillRating := g_averageSkillRating g; g_players := g_players g |}.

Definition set_hasEnded (v : bool) (g : Game) : Game :=
  {| g_id := g_id g; g_batchID := g_batchID g; g_hasStarted := g_hasStarted g;
     g_hasEnded := v; g_treatment := g_treatment g;
     g_treatmentName := g_treatmentName g;
     g_requiredSkillLevel := g_requiredSkillLevel g;
     g_averageSkillRating := g_averageSkillRating g; g_players := g_players g |}.

(** ** The store: lookup and update of a scope by id *)

Definition lookupPlayer (pid : string) (s : Ctx) : option Player :=
  List.find (λ p, bool_decide (p_id p = pid)) (players s).

Definition lookupGame (gid : string) (s : Ctx) : option Game :=
  List.find (λ g, bool_decide (g_id g = gid)) (games s).

Definition updatePlayer (pid : string) (f : Player → Player) (s : Ctx) : Ctx :=
  {| games := games s;
     players := List.map (λ p, if bool_decide (p_id p = pid) then f p else p) (players s);
     batches := batches s |}.

Definition updateGame (gid : string) (f : Game → Game) (s : Ctx) : Ctx :=
  {| games := List.map (λ g, if bool_decide (g_id g = gid) then f g else g) (games s);
     players := players s;
     batches := batches s |}.

(** JavaScript truthiness of a string-or-null attribute: [null] and the
    empty string are falsy. *)
Definition truthy (v : option string) : bool :=
  match v with
  | Some x => negb (bool_decide (x = EmptyString))
  | None => false
  end.

(** Truthiness of a number-or-null attribute: [null] and [0] are falsy. *)
Definition truthyNum (v : option Z) : bool :=
  match v with
  | Some x => negb (x =? 0)%Z
  | None => false
  end.

(** ** Outcomes *)

Inductive AssignmentFailed :=
  | sessionEnded
  | sessionVanished
  | unknownParticipant.

Inductive result (A : Type) :=
  | Ok (a : A)
  | Failed (reason : AssignmentFailed).
Arguments Ok {A} a.
Arguments Failed {A} reason.

#[global] Instance result_ret : MRet result := λ A a, Ok a.
#[global] Instance result_bind : MBind result := λ A B k m,
  match m with
  | Ok a => k a
  | Failed e => Failed e
  end.

(** ** [game.assignPlayer(player)] *)

(** The detach step of a reassignment, part of the model of
    [game.assignPlayer] below: the player leaves the member set of the game
    its [gameID] names. *)
Definition detach (p : Player) (s : Ctx) : Ctx :=
  match p_gameID p with
  | Some prev =>
      if truthy (Some prev)
      then updateGame prev (λ g, set_players (g_players g ∖ {[p_id p]}) g) s
      else s
  | None => s
  end.

(** Modelled from the spec: the body of [game.assignPlayer], which belongs
    to the [@empirica/core] package and is not part of the repository.  The
    model follows the guide's API reference (an ended game cannot take the
    call; "handles reassignment automatically (removes from previous game)";
    "updates player's gameID, treatment, and treatmentName") and the spec's
    assignment record: an assign to an ended session is rejected with
    [sessionEnded]; otherwise the participant is removed from the old
    session's member set, added to the new session's member set, and its
    session reference is set.  A call for a game or a player that the
    store does not hold fails as well (the spec's "session vanished").  No
    occupancy check is made here: the guide leaves that to the calling
    strategy. *)
Definition assignPlayer (gid pid : string) (s : Ctx) : result Ctx :=
  match lookupGame gid s with
  | None => Failed sessionVanished
  | Some g =>
      if g_hasEnded g then Failed sessionEnded
      else
        match lookupPlayer pid s with
        | None => Failed unknownParticipant
        | Some p =>
            let s1 := detach p s in
            let s2 := updateGame gid (λ g', set_players (g_players g' ∪ {[pid]}) g') s1 in
            Ok (updatePlayer pid
                  (set_assignment (Some gid) (Some (g_treatment g)) (g_treatmentName g))
                  s2)
        end
  end.

(** ** [Array.prototype.sort(compareFn)] *)

(** The sort is stable, and for a consistent comparator its result is
    fixed by stability alone; a stable insertion sort computes it. *)
Section ArraySort.
Context {A : Type} (compareFn : A → A → Z).

Fixpoint sortInsert (x : A) (l : list A) : list A :=
  match l with
  | [] => [x]
  | y :: l' => if (compareFn x y <=? 0)%Z then x :: l else y :: sortInsert x l'
  end.

Definition arraySort (l : list A) : list A := foldr sortInsert [] l.

(** [x] is not sorted after [y]. *)
Definition notAfter (x y : A) : Prop := (compareFn x y <= 0)%Z.
End ArraySort.

(** ** Predicates the handlers share *)

(** [!g.get("hasEnded") && !g.get("hasStarted")] *)
Definition notEndedNotStarted (g : Game) : bool :=
  negb (g_hasEnded g) && negb (g_hasStarted g).

(** [game.players.length < game.get("treatment").playerCount] *)
Definition hasOpenSlot (g : Game) : bool :=
  (Z.of_nat (size (g_players g)) <? playerCount (g_treatment g))%Z.

(** [b.get("status") === "running"] *)
Definition isRunning (b : Batch) : bool := bool_decide (b_status b = "running").

(** A handler receives the player of the event, which is a player of the
    store; a run for an id that names no player is reported as a failure. *)
Definition withPlayer (pid : string) (s : Ctx) (k : Player → result Ctx) : result Ctx :=
  match lookupPlayer pid s with
  | Some player => k player
  | None => Failed unknownParticipant
  end.

(** ** Basic setup (guide, "Step 2: Implement Custom Assignment Logic") *)

Definition availableGames (s : Ctx) : list Game :=
  List.filter
    (λ game, negb (g_hasEnded game) && negb (g_hasStarted game) &&
             (playerCount (g_treatment game) >? Z.of_nat (size (g_players game)))%Z)
    (games s).

Definition basicSetup (pid : string) (s : Ctx) : result Ctx :=
  match availableGames s with
  | targetGame :: _ => assignPlayer (g_id targetGame) pid s
  | [] => Ok s
  end.

(** ** Strategy 2: random assignment with balancing *)

(** [Math.min(...xs)]; [None] is the [Infinity] of an empty argument list. *)
Definition mathMin (xs : list nat) : option nat :=
  foldr (λ x acc, match acc with
                  | None => Some x
                  | Some m => Some (Nat.min x m)
                  end) None xs.

Definition minPlayerCount (gs : list Game) : option nat :=
  mathMin (List.map (λ g, size (g_players g)) gs).

Definition underassignedGames (gs : list Game) : list Game :=
  List.filter (λ g, bool_decide (Some (size (g_players g)) = minPlayerCount gs)) gs.

(** [Math.floor(Math.random() * n)], for the draw [u] of [Math.random()]
    taken as an exact number. *)
Definition randomIndex (u : Q) (n : nat) : nat :=
  Z.to_nat (Qfloor (u * inject_Z (Z.of_nat n))).

Definition balancedTarget (u : Q) (s : Ctx) : option Game :=
  let gs := List.filter notEndedNotStarted (games s) in
  let candidates := underassignedGames gs in
  nth_error candidates (randomIndex u (length candidates)).

Definition randomAssignmentWithBalancing (u : Q) (pid : string) (s : Ctx) : result Ctx :=
  withPlayer pid s (λ player,
    if truthy (p_gameID player) then Ok s
    else
      match balancedTarget u s with
      | Some targetGame => assignPlayer (g_id targetGame) pid s
      | None => Ok s
      end).

(** ** Strategy 3: attribute-based matching *)

Definition matchingGames (playerSkillLevel : option string) (s : Ctx) : list Game :=
  List.filter (λ game, bool_decide (g_requiredSkillLevel game = playerSkillLevel))
    (List.filter notEndedNotStarted (games s)).

Definition attributeTarget (player : Player) (s : Ctx) : option Game :=
  List.find hasOpenSlot (matchingGames (p_skillLevel player) s).

Definition attributeBasedMatching (pid : string) (s : Ctx) : result Ctx :=
  withPlayer pid s (λ player,
    if truthy (p_gameID player) then Ok s
    else
      match attributeTarget player s with
      | Some game => assignPlayer (g_id game) pid s
      | None => Ok s
      end).

(** ** Strategy 4: conditional assignment with waiting pool *)

Definition waitingMessage : string := "Please complete the survey and agree to terms".

Definition conditionalAssignment (pid : string) (s : Ctx) : result Ctx :=
  withPlayer pid s (λ player,
    if truthy (p_gameID player) then Ok s
    else if negb (p_surveyComplete player) || negb (p_termsAgreed player)
    then Ok (updatePlayer pid (set_waitingReason (Some waitingMessage)) s)
    else
      match List.find hasOpenSlot (List.filter notEndedNotStarted (games s)) with
      | Some availableGame =>
          s' ← assignPlayer (g_id availableGame) pid s;
          Ok (updatePlayer pid (set_waitingReason None) s')
      | None => Ok s
      end).

(** ** Use case 1: replay / reassignment *)

Definition replayMessage : string := "No games available for replay".

(** The two nested [for] loops: batches outermost, the batch's games that
    have not ended innermost; the first game with an open slot wins. *)
Fixpoint replayTarget (bs : list Batch) (gs : list Game) : option Game :=
  match bs with
  | [] => None
  | batch :: bs' =>
      match List.find hasOpenSlot
              (List.filter (λ g, bool_decide (g_batchID g = Some (b_id batch)) &&
                                 negb (g_hasEnded g)) gs) with
      | Some game => Some game
      | None => replayTarget bs' gs
      end
  end.

Definition replayReassignment (pid : string) (s : Ctx) : result Ctx :=
  withPlayer pid s (λ player,
    if negb (p_requestReplay player) then Ok s
    else
      let s1 := updatePlayer pid (set_gameID None) s in
      let s2 := updatePlayer pid (set_ended None) s1 in
      match replayTarget (List.filter isRunning (batches s2)) (games s2) with
      | Some game =>
          s3 ← assignPlayer (g_id game) pid s2;
          Ok (updatePlayer pid (set_requestReplay false) s3)
      | None =>
          Ok (updatePlayer pid (set_requestReplay false)
                (updatePlayer pid (set_replayError (Some replayMessage)) s2))
      end).

(** ** Use case 4: skill-based matchmaking *)

Definition requiredPlayers : nat := 4.

Definition ratedAndUnassigned (p : Player) : bool :=
  negb (truthy (p_gameID p)) && bool_decide (p_skillRating p ≠ None) &&
  negb (truthy (p_ended p)).

(** [a.get("skillRating") - b.get("skillRating")]; [null] converts to 0. *)
Definition ratingOf (p : Player) : Z := default 0%Z (p_skillRating p).
Definition compareRating (a b : Player) : Z := (ratingOf a - ratingOf b)%Z.

(** [for (i = 0; i < l.length; i += n) brackets.push(l.slice(i, i + n))]:
    one slice per start index [0, n, 2n, ...] below the length. *)
Definition slices {A} (n : nat) (l : list A) : list (list A) :=
  List.map (λ k, take n (drop (k * n) l)) (seq 0 ((length l + n - 1) / n)).

Definition averageRating (bracket : list Player) : Q :=
  (inject_Z (foldl (λ sum p, (sum + ratingOf p)%Z) 0%Z bracket) /
   inject_Z (Z.of_nat (length bracket)))%Q.

(** [for (const p of bracket) await game.assignPlayer(p)] *)
Definition assignBracket (gid : string) (bracket : list Player) (s : Ctx) : result Ctx :=
  foldl (λ acc p, s' ← acc; assignPlayer gid (p_id p) s') (Ok s) bracket.

Section Handlers.

(** [String.prototype.localeCompare]: negative, zero or positive; its
    order is that of the host's collation and is left open. *)
Variable localeCompare : string → string → Z.

(** The id the backend gives to a game created by [batch.addGame], as a
    function of the ids in use. *)
Variable newGameID : list string → string.

(** *** Strategy 1: fill games sequentially *)

Definition sortedOpenGames (s : Ctx) : list Game :=
  arraySort (λ a b, localeCompare (g_id a) (g_id b))
    (List.filter notEndedNotStarted (games s)).

Definition sequentialTarget (s : Ctx) : option Game :=
  List.find hasOpenSlot (sortedOpenGames s).

Definition fillGamesSequentially (pid : string) (s : Ctx) : result Ctx :=
  withPlayer pid s (λ player,
    if truthy (p_gameID player) then Ok s
    else
      match sequentialTarget s with
      | Some game => assignPlayer (g_id game) pid s
      | None => Ok s
      end).

(** *** [batch.addGame(attributes)] *)

(** Modelled from the spec: [batch.addGame] belongs to [@empirica/core]
    and is not part of the repository.  As the guide uses it and as the
    spec's [CreateSession] reads, it creates one new session in the batch
    (the batch reference is set at creation), with the given treatment
    and attributes, no members, neither started nor ended, and returns
    it. *)
Definition addGame (batch : Batch) (t : Treatment) (avg : option Q) (s : Ctx)
    : string * Ctx :=
  let gid := newGameID (List.map g_id (games s)) in
  (gid,
   {| games := games s ++
        [{| g_id := gid; g_batchID := Some (b_id batch);
            g_hasStarted := false; g_hasEnded := false;
            g_treatment := t; g_treatmentName := None;
            g_requiredSkillLevel := None; g_averageSkillRating := avg;
            g_players := ∅ |}];
      players := players s;
      batches := batches s |}).

(** The body of [for (const bracket of brackets)]. *)
Definition placeBracket (batch : Batch) (bracket : list Player) (s : Ctx) : result Ctx :=
  if (length bracket <? requiredPlayers)%nat then Ok s
  else
    let avgRating := averageRating bracket in
    let '(gid, s1) :=
      addGame batch {| playerCount := Z.of_nat requiredPlayers |} (Some avgRating) s in
    assignBracket gid bracket s1.

Definition sortedCandidates (s : Ctx) : list Player :=
  arraySort compareRating (List.filter ratedAndUnassigned (players s)).

Definition skillBasedMatchmaking (pid : string) (s : Ctx) : result Ctx :=
  withPlayer pid s (λ player,
    if truthy (p_gameID player) then Ok s
    else if negb (truthyNum (p_skillRating player)) then Ok s
    else
      let allPlayers := sortedCandidates s in
      if (length allPlayers <? requiredPlayers)%nat then Ok s
      else
        let brackets := slices requiredPlayers allPlayers in
        match List.filter isRunning (batches s) with
        | [] => Ok s
        | batch :: _ =>
            foldl (λ acc bracket, s' ← acc; placeBracket batch bracket s') (Ok s) brackets
        end).

End Handlers.

(** ** Use case 2: custom batch configuration *)

(** The value of a factor of a treatment: a number or a string. *)
Inductive FactorValue :=
  | FNumber (z : Z)
  | FString (v : string).

(** The value of an attribute passed to [batch.addGame]: the object of
    the factors of a treatment, a number or a string. *)
Inductive AttributeValue :=
  | VFactors (factors : gmap string FactorValue)
  | VNumber (z : Z)
  | VString (v : string).

(** One element of the array passed to [batch.addGame]; [a_immutable] is
    [false] where the source leaves [immutable] out. *)
Record Attribute := {
  a_key : string;
  a_value : AttributeValue;
  a_immutable : bool
}.

(** [batch.get("config")] of a custom batch; [numGames] is taken to be
    an integer. *)
Record CustomConfig := {
  c_kind : string;
  c_numGames : Z;
  c_playerCount : Z;
  c_customFactors : gmap string FactorValue
}.

(** [{ playerCount: playerCount, ...customFactors }]: the properties
    spread last win. *)
Definition customTreatment (config : CustomConfig) : gmap string FactorValue :=
  c_customFactors config ∪ {[ "playerCount" := FNumber (c_playerCount config) ]}.

(** The argument of the [i]-th call of [batch.addGame]. *)
Definition customGame (config : CustomConfig) (i : nat) : list Attribute :=
  [ {| a_key := "treatment"; a_value := VFactors (customTreatment config);
       a_immutable := true |};
    {| a_key := "gameIndex"; a_value := VNumber (Z.of_nat i); a_immutable := false |};
    {| a_key := "customAttribute"; a_value := VString "myValue";
       a_immutable := false |} ].

(** The handler of the ["batch"] event, as the list of the arguments of
    its calls of [batch.addGame], in the order of the calls: the loop
    [for (let i = 0; i < numGames; i++)] makes one call for each [i] from
    0 up to, and not including, [numGames]. *)
Definition customBatch (config : CustomConfig) : list (list Attribute) :=
  if bool_decide (c_kind config ≠ "custom") then []
  else List.map (customGame config) (seq 0 (Z.to_nat (c_numGames config))).

(** ** Use case 3: dynamic game creation *)

(** [game.set("treatmentName", v)], as [batch.addGame] does for an attribute
    of its list. *)
Definition set_treatmentName (v : option string) (g : Game) : Game :=
  {| g_id := g_id g; g_batchID := g_batchID g; g_hasStarted := g_hasStarted g;
     g_hasEnded := g_hasEnded g; g_treatment := g_treatment g;
     g_treatmentName := v;
     g_requiredSkillLevel := g_requiredSkillLevel g;
     g_averageSkillRating := g_averageSkillRating g; g_players := g_players g |}.

(** One entry of [batch.get("config").treatments]. *)
Record TreatmentEntry := { t_name : string; t_factors : Treatment }.

(** What a run of the handler ends in: it returns, or it throws; apart
    from a rejected assignment, reading a property of [undefined] throws
    a [TypeError]. *)
Inductive Thrown :=
  | assignmentFailed (reason : AssignmentFailed)
  | typeError.

Inductive outcome :=
  | Done (s : Ctx)
  | Threw (e : Thrown).

Definition awaited (r : result Ctx) : outcome :=
  match r with
  | Ok s => Done s
  | Failed e => Threw (assignmentFailed e)
  end.

(** [g.get("batchID") === batch.id && !g.get("hasEnded")] *)
Definition liveIn (batch : Batch) (g : Game) : bool :=
  bool_decide (g_batchID g = Some (b_id batch)) && negb (g_hasEnded g).

Section DynamicCreation.

Variable newGameID : list string → string.

(** [batch.addGame([{key: "treatment", value: treatment.factors,
    immutable: true}, {key: "treatmentName", value: treatment.name}])] *)
Definition addNamedGame (batch : Batch) (treatment : TreatmentEntry) (s : Ctx)
    : string * Ctx :=
  let '(gid, s1) := addGame newGameID batch (t_factors treatment) None s in
  (gid, updateGame gid (set_treatmentName (Some (t_name treatment))) s1).

(** The array [batch.get("config").treatments] is kept apart from the
    batch record: [configs] holds it for the batches whose config has one,
    by batch id; for a batch without one, and for an empty array, reading
    [treatment.factors] throws.  As with [withPlayer], a run for an id that
    names no player is reported as a failure. *)
Definition dynamicGameCreation (configs : gmap string (list TreatmentEntry))
    (pid : string) (s : Ctx) : outcome :=
  match lookupPlayer pid s with
  | None => Threw (assignmentFailed unknownParticipant)
  | Some player =>
      if truthy (p_gameID player) then Done s
      else
        match List.filter isRunning (batches s) with
        | [] => Done s
        | batch :: _ =>
            match List.find hasOpenSlot (List.filter (liveIn batch) (games s)) with
            | Some availableGame => awaited (assignPlayer (g_id availableGame) pid s)
            | None =>
                match configs !! b_id batch with
                | Some (treatment :: _) =>
                    let '(gid, s1) := addNamedGame batch treatment s in
                    awaited (assignPlayer gid pid s1)
                | Some [] | None => Threw typeError
                end
            end
        end
  end.

End DynamicCreation.

(** ** Use case 5: treatment-specific assignment *)

(** [`Waiting for ${assignedTreatment} game`] *)
Definition waitingFor (assignedTreatment : string) : string :=
  "Waiting for " +:+ assignedTreatment +:+ " game".

Definition treatmentGames (assignedTreatment : string) (s : Ctx) : list Game :=
  List.filter
    (λ g, if g_hasEnded g || g_hasStarted g then false
          else bool_decide (g_treatmentName g = Some assignedTreatment))
    (games s).

(** The attribute [assignedTreatment], which a player "receives during
    intro" and which no handler writes, is kept apart from the player
    record: [assigned] holds its value for the players that have one, by
    player id. *)
Definition treatmentSpecificAssignment (assigned : gmap string string)
    (pid : string) (s : Ctx) : result Ctx :=
  withPlayer pid s (λ player,
    if truthy (p_gameID player) then Ok s
    else if negb (truthy (assigned !! pid)) then Ok s
    else
      let assignedTreatment := default EmptyString (assigned !! pid) in
      s1 ← match List.find hasOpenSlot (treatmentGames assignedTreatment s) with
           | Some game => assignPlayer (g_id game) pid s
           | None => Ok s
           end;
      withPlayer pid s1 (λ player',
        if negb (truthy (p_gameID player'))
        then Ok (updatePlayer pid
                   (set_waitingReason (Some (waitingFor assignedTreatment))) s1)
        else Ok s1)).

(** ** The client: the participant key ([App.jsx], [MyPlayerForm.jsx]) *)

Definition chars : string :=
  "ABCDEFGHIJKLMNOPQRSTUVWXYZabcdefghijklmnopqrstuvwxyz0123456789".

(** [s.charAt(i)]: the character at index [i] as a string, the empty
    string when [i] is out of range. *)
Definition charAt (s : string) (i : nat) : string :=
  match String.get i s with
  | Some c => String c EmptyString
  | None => EmptyString
  end.

(** [generateRandomKey(length)] of [App.jsx].  [Math.random] is given by
    the sequence of its draws: [rand i] is the draw of the [i]-th pass of
    the loop. *)
Definition generateRandomKey (rand : nat → Q) (length : nat) : string :=
  foldl (λ result i, result +:+ charAt chars (randomIndex (rand i) (String.length chars)))
    EmptyString (seq 0 length).

(** [generatePlayerID()] of [MyPlayerForm.jsx]. *)
Definition generatePlayerID (rand : nat → Q) : string :=
  foldl (λ result i, result +:+ charAt chars (randomIndex (rand i) (String.length chars)))
    EmptyString (seq 0 12).

(** [URLSearchParams]: the name-value pairs of the query in their order.
    [get] returns the value of the first pair with the name or [null];
    [set] writes the value of the first pair with the name and removes the
    other pairs with it, and appends a pair if there is none. *)
Definition urlGet (name : string) (params : list (string * string)) : option string :=
  snd <$> List.find (λ kv, bool_decide (kv.1 = name)) params.

Fixpoint urlSet (name value : string) (params : list (string * string))
    : list (string * string) :=
  match params with
  | [] => [(name, value)]
  | kv :: rest =>
      if bool_decide (kv.1 = name)
      then (name, value) :: List.filter (λ kv', negb (bool_decide (kv'.1 = name))) rest
      else kv :: urlSet name value rest
  end.

(** What [App] ends with: the key passed to [EmpiricaParticipant] as
    [ns], the query of the page's URL, and whether the URL was replaced. *)
Record AppState := {
  app_playerKey : string;
  app_search : list (string * string);
  app_urlUpdated : bool
}.

(** [App()].  The query of [window.location.search] is held as the list
    of pairs that [new URLSearchParams] reads from it; the query that
    [history.replaceState] writes is held as the list of pairs that
    [urlParams.toString()] serialises, so that reading a written query
    back returns the same pairs. *)
Definition App (rand : nat → Q) (locationSearch : list (string * string)) : AppState :=
  let playerKey := default EmptyString (urlGet "participantKey" locationSearch) in
  if bool_decide (playerKey = EmptyString)
  then
    let generated := generateRandomKey rand 8 in
    {| app_playerKey := generated;
       app_search := urlSet "participantKey" generated locationSearch;
       app_urlUpdated := true |}
  else
    {| app_playerKey := playerKey; app_search := locationSearch;
       app_urlUpdated := false |}.

(** ** Operations and runs *)

Section Runs.

Variable localeCompare : string → string → Z.
Variable newGameID : list string → string.

(** One entry per way the store changes: a bare [game.assignPlayer]
    call, one run of each of the guide's handlers, and the platform
    raising a game's [hasStarted] or [hasEnded] flag. *)
Inductive Op :=
  | CallAssignPlayer (gid pid : string)
  | RunBasicSetup (pid : string)
  | RunFillSequentially (pid : string)
  | RunBalancedRandom (u : Q) (pid : string)
  | RunAttributeMatching (pid : string)
  | RunConditional (pid : string)
  | RunReplay (pid : string)
  | RunSkillMatchmaking (pid : string)
  | GameStarts (gid : string)
  | GameEnds (gid : string).

Definition run (op : Op) (s : Ctx) : result Ctx :=
  match op with
  | CallAssignPlayer gid pid => assignPlayer gid pid s
  | RunBasicSetup pid => basicSetup pid s
  | RunFillSequentially pid => fillGamesSequentially localeCompare pid s
  | RunBalancedRandom u pid => randomAssignmentWithBalancing u pid s
  | RunAttributeMatching pid => attributeBasedMatching pid s
  | RunConditional pid => conditionalAssignment pid s
  | RunReplay pid => replayReassignment pid s
  | RunSkillMatchmaking pid => skillBasedMatchmaking newGameID pid s
  | GameStarts gid => Ok (updateGame gid (set_hasStarted true) s)
  | GameEnds gid => Ok (updateGame gid (set_hasEnded true) s)
  end.

(** [runs P ops s s']: the operations [ops], each admitted by the guard
    [P] in the state it starts from, run one after the other from [s]
    and end in [s']. *)
Inductive runs (P : Op → Ctx → Prop) : list Op → Ctx → Ctx → Prop :=
  | runs_nil s : runs P [] s s
  | runs_cons op ops s s1 s' :
      P op s → run op s = Ok s1 → runs P ops s1 s' → runs P (op :: ops) s s'.

End Runs.

(** * Vocabulary of the properties *)

(** The game [x] after player [p] has been assigned to the game with id
    [gid]: [p] leaves [x] if [x] is the game [p] was in, and joins [x] if
    [x] is the target. *)
Definition reseat (gid : string) (p : Player) (x : Game) : Game :=
  let x1 :=
    if truthy (p_gameID p) && bool_decide (p_gameID p = Some (g_id x))
    then set_players (g_players x ∖ {[p_id p]}) x else x in
  if bool_decide (g_id x = gid)
  then set_players (g_players x1 ∪ {[p_id p]}) x1 else x1.

Definition gameIds (s : Ctx) : list string := List.map g_id (games s).

(** The games of a store form a [Map] keyed by id, and an id is never the
    empty string. *)
Definition distinctIds (s : Ctx) : Prop :=
  NoDup (gameIds s) ∧ ¬ In EmptyString (gameIds s).

(** Capacity: no game has more members than its [playerCount]. *)
Definition withinCapacity (s : Ctx) : Prop :=
  List.Forall
    (λ g, (Z.of_nat (size (g_players g)) <= playerCount (g_treatment g))%Z)
    (games s).

(** Every member of a game that has not ended is a player of the store
    whose [gameID] names that game. *)
Definition referenced (s : Ctx) : Prop :=
  ∀ g pid, In g (games s) → g_hasEnded g = false → pid ∈ g_players g →
    ∃ p, lookupPlayer pid s = Some p ∧ p_gameID p = Some (g_id g).

(** At most one active assignment. *)
Definition atMostOneActive (s : Ctx) : Prop :=
  ∀ g1 g2 pid, In g1 (games s) → In g2 (games s) →
    g_hasEnded g1 = false → g_hasEnded g2 = false →
    pid ∈ g_players g1 → pid ∈ g_players g2 → g1 = g2.

(** Between two stores, a game that has ended stays ended and gains no
    member. *)
Definition endedFrozen (s s' : Ctx) : Prop :=
  ∀ g, In g (games s) → g_hasEnded g = true →
    ∃ g', In g' (games s') ∧ g_id g' = g_id g ∧ g_hasEnded g' = true ∧
          g_players g' ⊆ g_players g.

(** A write to a player that touches neither its id nor its [gameID]. *)
Definition attributeOnly (f : Player → Player) : Prop :=
  ∀ p, p_id (f p) = p_id p ∧ p_gameID (f p) = p_gameID p.

(** A write to a game that may only raise its lifecycle flags. *)
Definition flagOnly (f : Game → Game) : Prop :=
  ∀ g, g_id (f g) = g_id g ∧ g_players (f g) = g_players g ∧
       g_treatment (f g) = g_treatment g ∧
       (g_hasEnded g = true → g_hasEnded (f g) = true).

Section Changes.

Variable newGameID : list string → string.

(** [changes checked guarded s s']: [s'] comes from [s] by assignments,
    attribute writes, clearings of a [gameID], game creations and flag
    raisings.  With [checked], every assignment goes to a game that has
    an open slot; with [guarded], a [gameID] is cleared only for a
    player that sits in no active game. *)
Inductive changes (checked guarded : bool) : Ctx → Ctx → Prop :=
  | ch_done s : changes checked guarded s s
  | ch_seat s gid pid s1 s' :
      (checked = true →
       ∃ g, In g (games s) ∧ g_id g = gid ∧ hasOpenSlot g = true) →
      assignPlayer gid pid s = Ok s1 →
      changes checked guarded s1 s' → changes checked guarded s s'
  | ch_note s pid f s' :
      attributeOnly f →
      changes checked guarded (updatePlayer pid f s) s' →
      changes checked guarded s s'
  | ch_forget s pid s' :
      (guarded = true →
       ∀ g, In g (games s) → g_hasEnded g = false → pid ∉ g_players g) →
      changes checked guarded (updatePlayer pid (set_gameID None) s) s' →
      changes checked guarded s s'
  | ch_create s batch t avg s' :
      (0 <= playerCount t)%Z →
      changes checked guarded (addGame newGameID batch t avg s).2 s' →
      changes checked guarded s s'
  | ch_raise s gid f s' :
      flagOnly f →
      changes checked guarded (updateGame gid f s) s' →
      changes checked guarded s s'.

End Changes.

(** Which operations check for an open slot before they assign. *)
Definition checksCapacity (op : Op) : bool :=
  match op with
  | CallAssignPlayer _ _ | RunBalancedRandom _ _ => false
  | _ => true
  end.

(** A replay is admitted when the player's former game is over: the
    player sits in no game that is still active. *)
Definition replayAfterEnd (op : Op) (s : Ctx) : Prop :=
  match op with
  | RunReplay pid =>
      ∀ g, In g (games s) → g_hasEnded g = false → pid ∉ g_players g
  | _ => True
  end.

#[global] Instance withinCapacity_dec s : Decision (withinCapacity s).
Proof. unfold withinCapacity. apply _. Defined.

(** A [gameID] is [null] or the id of a game, never the empty string. *)
Definition namedReferences (s : Ctx) : Prop :=
  ∀ p, In p (players s) → p_gameID p ≠ Some EmptyString.

(** The store after the unassigned player [pid] has been assigned to the
    game [g]: [g] has one more member, and the player carries the game's
    id, treatment and treatment name. *)
Definition seated (g : Game) (pid : string) (s : Ctx) : Ctx :=
  updatePlayer pid
    (set_assignment (Some (g_id g)) (Some (g_treatment g)) (g_treatmentName g))
    (updateGame (g_id g) (λ g', set_players (g_players g' ∪ {[pid]}) g') s).


(** The game [x] after the players [ids] have joined the game [gid]. *)
Definition joined (gid : string) (ids : list string) (x : Game) : Game :=
  if bool_decide (g_id x = gid)
  then set_players (g_players x ∪ list_to_set ids) x else x.

(** The game [g], created for the bracket, as it stands in the final
    store [s']: its members are exactly the players of the bracket, as
    many as the required group size, which is also its [playerCount]; it
    has neither started nor ended; every player of the bracket carries its
    id as [gameID]. *)
Definition formedFrom (s' : Ctx) (g : Game) (bracket : list Player) : Prop :=
  g_players g = list_to_set (List.map p_id bracket) ∧
  size (g_players g) = requiredPlayers ∧
  g_treatment g = {| playerCount := Z.of_nat requiredPlayers |} ∧
  g_hasEnded g = false ∧ g_hasStarted g = false ∧
  ∀ q, In q bracket → p_gameID <$> lookupPlayer (p_id q) s' = Some (Some (g_id g)).

(** The player whose event runs a handler. *)
Definition eventPlayer (op : Op) : option string :=
  match op with
  | RunBasicSetup pid | RunFillSequentially pid | RunBalancedRandom _ pid
  | RunAttributeMatching pid | RunConditional pid | RunReplay pid
  | RunSkillMatchmaking pid => Some pid
  | CallAssignPlayer _ _ | GameStarts _ | GameEnds _ => None
  end.

(** Between [s] and [s'], nothing has been written but attributes of the
    player [pid] and member sets of games: the batches, the list of
    players, every other player, and every game apart from its member set
    are as they were. *)
Definition touchesOnly (pid : string) (s s' : Ctx) : Prop :=
  batches s' = batches s ∧
  List.map p_id (players s') = List.map p_id (players s) ∧
  (∀ q, q ≠ pid → lookupPlayer q s' = lookupPlayer q s) ∧
  List.map (set_players ∅) (games s') = List.map (set_players ∅) (games s).

(** The first attribute with the given key. *)
Definition attributeNamed (key : string) (attributes : list Attribute) : option AttributeValue :=
  a_value <$> List.find (λ a, bool_decide (a_key a = key)) attributes.

(** Every draw of [Math.random] lies in the interval from 0 up to, and
    not including, 1. *)
Definition unitDraws (rand : nat → Q) : Prop :=
  ∀ i, (0 <= rand i)%Q ∧ (rand i < 1)%Q.

(** Every character of [key] is one of [chars]. *)
Definition alphanumeric (key : string) : Prop :=
  List.Forall (λ c, In c (String.list_ascii_of_string chars)) (String.list_ascii_of_string key).

(** * Concrete stores *)

Definition newPlayer (id : string) : Player :=
  {| p_id := id; p_gameID := None; p_treatment := None; p_treatmentName := None;
     p_ended := None; p_skillLevel := None; p_skillRating := None;
     p_surveyComplete := false; p_termsAgreed := false; p_waitingReason := None;
     p_requestReplay := false; p_replayError := None |}.

Definition newGame (id : string) (capacity : Z) : Game :=
  {| g_id := id; g_batchID := Some "b1"; g_hasStarted := false; g_hasEnded := false;
     g_treatment := {| playerCount := capacity |}; g_treatmentName := None;
     g_requiredSkillLevel := None; g_averageSkillRating := None; g_players := ∅ |}.

(** A player that already sits in game [gid], and a game with members;
    concrete games belong to the batch ["b1"]. *)
Definition playerIn (id gid : string) : Player := set_gameID (Some gid) (newPlayer id).
Definition gameWith (id : string) (capacity : Z) (members : list string) : Game :=
  set_players (list_to_set members) (newGame id capacity).

(** Comparison of ids character code by character code: an instance of
    [localeCompare] for concrete runs. *)
Definition codeCompare (a b : string) : Z :=
  match String.compare a b with
  | Lt => (-1)%Z
  | Eq => 0%Z
  | Gt => 1%Z
  end.

(** An id generator for concrete runs: longer than every id in use. *)
Definition longerID (used : list string) : string :=
  "g" +:+ foldr String.append EmptyString used.

(** Two games of capacity 2, both full, and a fifth player who arrives. *)
Definition bothFull : Ctx :=
  {| games := [gameWith "g1" 2 ["a"; "b"]; gameWith "g2" 2 ["c"; "d"]];
     players := [playerIn "a" "g1"; playerIn "b" "g1"; playerIn "c" "g2";
                 playerIn "d" "g2"; newPlayer "e"];
     batches := [] |}.

(** A small deployment: one running batch, two games of capacity 2, one
    of them with a member (who has asked for a replay), and three players
    waiting. *)
Definition lobby : Ctx :=
  {| games := [set_players {["a"]} (newGame "g1" 2); newGame "g2" 2];
     players := [set_requestReplay true (playerIn "a" "g1"); newPlayer "b";
                 newPlayer "c"; newPlayer "d"];
     batches := [{| b_id := "b1"; b_status := "running" |}] |}.

(** The [lobby] with a third seat in its second game. *)
Definition arcade : Ctx :=
  {| games := [set_players {["a"]} (newGame "g1" 2); newGame "g2" 3];
     players := players lobby;
     batches := batches lobby |}.


(** A game that has started, has not ended and has a free seat. *)
Definition runningGame : Game := set_hasStarted true (newGame "g1" 2).
Definition oneRunningGame : Ctx :=
  {| games := [runningGame]; players := [newPlayer "a"]; batches := [] |}.

(** The [arcade] once its first game is over. *)
Definition arcadeOps8 : list Op :=
  [GameEnds "g1"; RunFillSequentially "b"; RunBalancedRandom 0 "c";
   RunBasicSetup "d"; RunReplay "a"].

(** The spec's scenario: one session of capacity 3 and four arrivals; the
    first three are assigned to it, the fourth is left as it was. *)
Definition oneGameOfThree : Ctx :=
  {| games := [newGame "g1" 3];
     players := [newPlayer "a"; newPlayer "b"; newPlayer "c"; newPlayer "d"];
     batches := [] |}.

(** The spec's scenario: a session for novices created first, a session
    for experts created later, and an expert who arrives. *)
Definition noviceGame : Game :=
  {| g_id := "g1"; g_batchID := Some "b1"; g_hasStarted := false; g_hasEnded := false;
     g_treatment := {| playerCount := 2 |}; g_treatmentName := None;
     g_requiredSkillLevel := Some "novice"; g_averageSkillRating := None;
     g_players := ∅ |}.

Definition expertGame : Game :=
  {| g_id := "g2"; g_batchID := Some "b1"; g_hasStarted := false; g_hasEnded := false;
     g_treatment := {| playerCount := 2 |}; g_treatmentName := None;
     g_requiredSkillLevel := Some "expert"; g_averageSkillRating := None;
     g_players := ∅ |}.

Definition expert : Player :=
  {| p_id := "e"; p_gameID := None; p_treatment := None; p_treatmentName := None;
     p_ended := None; p_skillLevel := Some "expert"; p_skillRating := None;
     p_surveyComplete := true; p_termsAgreed := true; p_waitingReason := None;
     p_requestReplay := false; p_replayError := None |}.

Definition noviceThenExpert : Ctx :=
  {| games := [noviceGame; expertGame]; players := [expert]; batches := [] |}.

(** The spec's scenario: two sessions of capacity 2 and four arrivals. *)
Definition twoGamesOfTwo : Ctx :=
  {| games := [newGame "g1" 2; newGame "g2" 2];
     players := [newPlayer "a"; newPlayer "b"; newPlayer "c"; newPlayer "d"];
     batches := [] |}.


(** The [lobby] seen from another store: other players, no batch, and a
    third game that has already started. *)
Definition lobbyElsewhere : Ctx :=
  {| games := games lobby ++ [set_hasStarted true (newGame "g0" 5)];
     players := [newPlayer "z"];
     batches := [] |}.

(** A player who has completed the survey and agreed to the terms, and a
    store whose only game is full. *)
Definition readyPlayer : Player :=
  {| p_id := "r"; p_gameID := None; p_treatment := None; p_treatmentName := None;
     p_ended := None; p_skillLevel := None; p_skillRating := None;
     p_surveyComplete := true; p_termsAgreed := true; p_waitingReason := None;
     p_requestReplay := false; p_replayError := None |}.

Definition fullHouse : Ctx :=
  {| games := [gameWith "g1" 2 ["a"; "b"]];
     players := [playerIn "a" "g1"; playerIn "b" "g1"; readyPlayer];
     batches := [] |}.

(** A waiting player with a skill rating. *)
Definition rated (id : string) (rating : Z) : Player :=
  {| p_id := id; p_gameID := None; p_treatment := None; p_treatmentName := None;
     p_ended := None; p_skillLevel := None; p_skillRating := Some rating;
     p_surveyComplete := false; p_termsAgreed := false; p_waitingReason := None;
     p_requestReplay := false; p_replayError := None |}.


(** The spec's scenario: three rated players wait; a fourth arrives. *)
Definition waitingThree : Ctx :=
  {| games := [];
     players := [rated "p1" 1500; rated "p2" 1200; rated "p3" 1800];
     batches := [{| b_id := "b1"; b_status := "running" |}] |}.

Definition waitingFour : Ctx :=
  {| games := [];
     players := players waitingThree ++ [rated "p4" 1000];
     batches := batches waitingThree |}.

(** A store in which a player sits in the second game while the first
    has a free seat. *)
Definition seatedElsewhere : Ctx :=
  {| games := [newGame "g1" 2; set_players {["a"]} (newGame "g2" 2)];
     players := [playerIn "a" "g2"];
     batches := [] |}.

(** Every game of the store is over or under way. *)
Definition allUnderWay : Ctx :=
  {| games := [set_hasStarted true (newGame "g1" 2); set_hasEnded true (newGame "g2" 2)];
     players := [newPlayer "a"];
     batches := [] |}.

(** Three rated players wait in a running batch, and a fourth whose
    rating is 0 arrives. *)
Definition fourWithNewcomer : Ctx :=
  {| games := [];
     players := players waitingThree ++ [rated "p0" 0];
     batches := batches waitingThree |}.

(** Games of two treatments, the one for ["control"] full, and two
    players whose treatments were assigned during the intro. *)
Definition treatmentGame (id : string) (name : string) (members : list string) : Game :=
  {| g_id := id; g_batchID := Some "b1"; g_hasStarted := false; g_hasEnded := false;
     g_treatment := {| playerCount := 2 |}; g_treatmentName := Some name;
     g_requiredSkillLevel := None; g_averageSkillRating := None;
     g_players := list_to_set members |}.

Definition twoTreatments : Ctx :=
  {| games := [treatmentGame "g1" "control" ["a"; "b"]; treatmentGame "g2" "nudge" []];
     players := [playerIn "a" "g1"; playerIn "b" "g1"; newPlayer "c"; newPlayer "d"];
     batches := [{| b_id := "b1"; b_status := "running" |}] |}.

Definition introAssignments : gmap string string :=
  {[ "c" := "control"; "d" := "nudge" ]}.

(** Two full games in a running batch, and a fifth player who arrives. *)
Definition crowded : Ctx :=
  {| games := [gameWith "g1" 2 ["a"; "b"]; gameWith "g2" 2 ["c"; "d"]];
     players := [playerIn "a" "g1"; playerIn "b" "g1"; playerIn "c" "g2";
                 playerIn "d" "g2"; newPlayer "e"];
     batches := [{| b_id := "b1"; b_status := "running" |}] |}.

Definition pairs : TreatmentEntry :=
  {| t_name := "pairs"; t_factors := {| playerCount := 2 |} |}.

Definition crowdedConfigs : gmap string (list TreatmentEntry) :=
  {[ "b1" := [pairs] ]}.

(** A treatment whose [playerCount] is 0. *)
Definition noSeats : TreatmentEntry :=
  {| t_name := "solo"; t_factors := {| playerCount := 0 |} |}.

(** A custom batch of three games whose [customFactors] carry a
    [playerCount] of their own. *)
Definition threeHardGames : CustomConfig :=
  {| c_kind := "custom"; c_numGames := 3; c_playerCount := 2;
     c_customFactors := {[ "difficulty" := FString "hard"; "playerCount" := FNumber 4 ]} |}.

(** Every draw is one half. *)
Definition halves : nat → Q := λ _, (1 # 2)%Q.


(** * Properties *)

(** ** The sort *)

Section ArraySortFacts.
Context {A : Type} (compareFn : A → A → Z).

Lemma sortInsert_perm x l : Permutation (x :: l) (sortInsert compareFn x l).
Proof.
  induction l as [|y l IH]; simpl; [reflexivity|].
  destruct (compareFn x y <=? 0)%Z; [reflexivity|].
  rewrite perm_swap. by constructor.
Qed.

Lemma arraySort_perm l : Permutation l (arraySort compareFn l).
Proof.
  induction l as [|x l IH]; simpl; [constructor|].
  etransitivity; [apply perm_skip, IH | apply sortInsert_perm].
Qed.

Lemma arraySort_In x l : In x (arraySort compareFn l) ↔ In x l.
Proof.
  split; apply Permutation_in; [symmetry|]; apply arraySort_perm.
Qed.

(** A comparator is consistent when [notAfter] is total and transitive;
    [sort] promises an ordered result for these only. *)
Hypothesis total : ∀ x y, notAfter compareFn x y ∨ notAfter compareFn y x.
Hypothesis trans :
  ∀ x y z, notAfter compareFn x y → notAfter compareFn y z → notAfter compareFn x z.

Lemma sortInsert_sorted x l :
  StronglySorted (notAfter compareFn) l →
  StronglySorted (notAfter compareFn) (sortInsert compareFn x l).
Proof.
  induction 1 as [|y l Hl IH Hy]; simpl.
  - repeat constructor.
  - destruct (compareFn x y <=? 0)%Z eqn:E.
    + apply Z.leb_le in E. constructor; [by constructor|].
      constructor; [exact E|].
      eapply Forall_impl; [exact Hy|]. intros z Hz. by eapply trans.
    + apply Z.leb_gt in E. constructor; [exact IH|].
      rewrite List.Forall_forall. intros z Hz.
      apply (Permutation_in _ (Permutation_sym (sortInsert_perm x l))) in Hz.
      destruct Hz as [<-|Hz].
      * destruct (total x y) as [H|H]; [unfold notAfter in H; lia | exact H].
      * rewrite List.Forall_forall in Hy. by apply Hy.
Qed.

Lemma arraySort_sorted l : StronglySorted (notAfter compareFn) (arraySort compareFn l).
Proof.
  induction l as [|x l IH]; simpl; [constructor|]. by apply sortInsert_sorted.
Qed.

(** A list that is already in order is left as it is. *)
Lemma arraySort_already_sorted l :
  StronglySorted (notAfter compareFn) l → arraySort compareFn l = l.
Proof.
  induction 1 as [|x l Hl IH Hx]; simpl; [reflexivity|].
  rewrite IH. destruct l as [|y l']; [reflexivity|]. simpl.
  inversion Hx as [|? ? Hxy _]; subst.
  unfold notAfter in Hxy. apply Z.leb_le in Hxy. by rewrite Hxy.
Qed.
End ArraySortFacts.

(** ** Lists: the first element with a property *)

Lemma find_Some_split {A} (f : A → bool) l x :
  List.find f l = Some x →
  ∃ l1 l2, l = l1 ++ x :: l2 ∧ f x = true ∧ Forall (λ y, f y = false) l1.
Proof.
  induction l as [|y l IH]; simpl; [discriminate|].
  destruct (f y) eqn:E.
  - intros [= ->]. exists [], l. by repeat split.
  - intros H. destruct (IH H) as (l1 & l2 & -> & Hx & Hl1).
    exists (y :: l1), l2. repeat split; [done|]. by constructor.
Qed.

Lemma find_filter_filter {A} (f g : A → bool) l :
  List.find f (List.filter g l) = List.find (λ x, g x && f x) l.
Proof.
  induction l as [|y l IH]; simpl; [reflexivity|].
  destruct (g y); simpl; [|exact IH]. by destruct (f y).
Qed.

(** Elements of a list with distinct keys are told apart by their key. *)
Lemma NoDup_map_inj_In {A B} (key : A → B) l x y :
  NoDup (List.map key l) → In x l → In y l → key x = key y → x = y.
Proof.
  induction l as [|z l IH]; simpl; [done|].
  rewrite NoDup_cons. intros [Hz Hl] [->|Hx] [->|Hy] E; auto.
  - exfalso. apply Hz. rewrite E. apply list_elem_of_In, in_map, Hy.
  - exfalso. apply Hz. rewrite <- E. apply list_elem_of_In, in_map, Hx.
Qed.

Lemma find_map_same {A} (f : A → bool) (h : A → A) l :
  (∀ x, f (h x) = f x) → List.find f (List.map h l) = h <$> List.find f l.
Proof.
  intros Hh. induction l as [|y l IH]; simpl; [reflexivity|].
  rewrite Hh. by destruct (f y).
Qed.

(** ** Member sets *)

Lemma size_add_le (X : gset string) a : size (X ∪ {[a]}) ≤ S (size X).
Proof.
  rewrite size_union_alt.
  assert (size ({[a]} ∖ X) ≤ 1); [|lia].
  rewrite <- (size_singleton (C := gset string) a). apply subseteq_size. set_solver.
Qed.

(** ** The store *)

Lemma lookupPlayer_Some pid s p :
  lookupPlayer pid s = Some p → p_id p = pid ∧ In p (players s).
Proof.
  intros H. apply find_some in H as [Hin Hid].
  by apply bool_decide_eq_true in Hid.
Qed.

Lemma lookupGame_Some gid s g :
  lookupGame gid s = Some g → g_id g = gid ∧ In g (games s).
Proof.
  intros H. apply find_some in H as [Hin Hid].
  by apply bool_decide_eq_true in Hid.
Qed.

Lemma lookupGame_In s g :
  NoDup (List.map g_id (games s)) → In g (games s) → lookupGame (g_id g) s = Some g.
Proof.
  intros Hnd Hin. unfold lookupGame.
  destruct (List.find _ (games s)) as [g'|] eqn:E.
  - apply find_some in E as [Hin' Hid]. apply bool_decide_eq_true in Hid.
    f_equal. by eapply NoDup_map_inj_In.
  - eapply find_none in E; [|exact Hin]. by rewrite bool_decide_eq_false in E.
Qed.

Lemma find_player_map pid f q (ps : list Player) :
  (∀ p, p_id (f p) = p_id p) →
  List.find (λ p, bool_decide (p_id p = q))
    (List.map (λ p, if bool_decide (p_id p = pid) then f p else p) ps) =
  (if bool_decide (q = pid)
   then f <$> List.find (λ p, bool_decide (p_id p = q)) ps
   else List.find (λ p, bool_decide (p_id p = q)) ps).
Proof.
  intros Hf. rewrite find_map_same.
  - destruct (List.find _ ps) as [p|] eqn:E; simpl.
    + apply find_some in E as [_ E]. apply bool_decide_eq_true in E. subst q.
      by repeat case_bool_decide.
    + by case_bool_decide.
  - intros p. destruct (bool_decide (p_id p = pid)); [by rewrite Hf|reflexivity].
Qed.

Lemma lookupPlayer_update pid f q s :
  (∀ p, p_id (f p) = p_id p) →
  lookupPlayer q (updatePlayer pid f s) =
  (if bool_decide (q = pid) then f <$> lookupPlayer q s else lookupPlayer q s).
Proof. intros Hf. by apply find_player_map. Qed.

Lemma lookupPlayer_updateGame gid f q s :
  lookupPlayer q (updateGame gid f s) = lookupPlayer q s.
Proof. reflexivity. Qed.

(** ** What [assignPlayer] does to each game *)

Lemma detach_players p s : players (detach p s) = players s.
Proof. unfold detach. by repeat case_match. Qed.

Lemma detach_batches p s : batches (detach p s) = batches s.
Proof. unfold detach. by repeat case_match. Qed.

Lemma assignPlayer_Ok gid pid s s' :
  assignPlayer gid pid s = Ok s' →
  ∃ g p, lookupGame gid s = Some g ∧ g_hasEnded g = false ∧
         lookupPlayer pid s = Some p ∧
         games s' = List.map (reseat gid p) (games s) ∧
         players s' =
           List.map (λ q, if bool_decide (p_id q = pid)
                          then set_assignment (Some gid) (Some (g_treatment g))
                                 (g_treatmentName g) q
                          else q) (players s) ∧
         batches s' = batches s.
Proof.
  unfold assignPlayer.
  destruct (lookupGame gid s) as [g|] eqn:Eg; [|discriminate].
  destruct (g_hasEnded g) eqn:Ee; [discriminate|].
  destruct (lookupPlayer pid s) as [p|] eqn:Ep; [|discriminate].
  intros [= <-]. exists g, p. split; [done|]. split; [done|]. split; [done|].
  split; [|split; simpl; [by rewrite detach_players | by rewrite detach_batches]].
  simpl. unfold detach.
  assert (Hmap : ∀ l : list Game,
    List.map (λ g0, if bool_decide (g_id g0 = gid)
                    then set_players (g_players g0 ∪ {[pid]}) g0 else g0)
      (List.map (λ x, if truthy (p_gameID p) && bool_decide (p_gameID p = Some (g_id x))
                      then set_players (g_players x ∖ {[p_id p]}) x else x) l)
    = List.map (reseat gid p) l).
  { intros l. rewrite List.map_map. apply List.map_ext. intros x.
    destruct (lookupPlayer_Some _ _ _ Ep) as [Hid _]. unfold reseat. rewrite Hid.
    destruct (truthy (p_gameID p) && _); reflexivity. }
  rewrite <- Hmap. f_equal.
  destruct (p_gameID p) as [prev|] eqn:Eprev.
  - destruct (truthy (Some prev)) eqn:Et; simpl.
    + apply List.map_ext. intros x.
      destruct (bool_decide (g_id x = prev)) eqn:E1;
        destruct (bool_decide (Some prev = Some (g_id x))) eqn:E2; try reflexivity.
      * apply bool_decide_eq_true in E1. apply bool_decide_eq_false in E2. congruence.
      * apply bool_decide_eq_false in E1. apply bool_decide_eq_true in E2. congruence.
    + symmetry. apply List.map_id.
  - simpl. symmetry. apply List.map_id.
Qed.

Lemma reseat_id gid p x : g_id (reseat gid p x) = g_id x.
Proof. unfold reseat. by repeat (case_match; simpl). Qed.

Lemma reseat_hasEnded gid p x : g_hasEnded (reseat gid p x) = g_hasEnded x.
Proof. unfold reseat. by repeat (case_match; simpl). Qed.

Lemma reseat_treatment gid p x : g_treatment (reseat gid p x) = g_treatment x.
Proof. unfold reseat. by repeat (case_match; simpl). Qed.

(** Membership after the call: [q] is in [x] iff it joined it, or was in
    it and did not leave. *)
Lemma reseat_players gid p x q :
  q ∈ g_players (reseat gid p x) ↔
  (g_id x = gid ∧ q = p_id p) ∨
  (q ∈ g_players x ∧
   ¬ (q = p_id p ∧ truthy (p_gameID p) = true ∧ p_gameID p = Some (g_id x))).
Proof.
  unfold reseat.
  destruct (truthy (p_gameID p)) eqn:Et; simpl;
    destruct (decide (p_gameID p = Some (g_id x))) as [E1|E1];
    destruct (decide (g_id x = gid)) as [E2|E2];
    rewrite ?(bool_decide_eq_true_2 _ E1), ?(bool_decide_eq_false_2 _ E1),
            ?(bool_decide_eq_true_2 _ E2), ?(bool_decide_eq_false_2 _ E2); simpl;
    rewrite ?elem_of_union, ?elem_of_difference, ?elem_of_singleton; intuition congruence.
Qed.

Lemma reseat_size_other gid p x :
  g_id x ≠ gid → size (g_players (reseat gid p x)) ≤ size (g_players x).
Proof.
  intros Hne. apply subseteq_size. intros q. rewrite reseat_players. naive_solver.
Qed.

Lemma reseat_size_target gid p x :
  size (g_players (reseat gid p x)) ≤ S (size (g_players x)).
Proof.
  transitivity (size (g_players x ∪ {[p_id p]})).
  - apply subseteq_size. intros q. rewrite reseat_players. set_solver.
  - apply size_add_le.
Qed.

(** ** Invariants of the store *)

Lemma referenced_atMostOne s : distinctIds s → referenced s → atMostOneActive s.
Proof.
  intros [Hnd _] Href g1 g2 pid H1 H2 E1 E2 M1 M2.
  destruct (Href _ _ H1 E1 M1) as (p1 & L1 & G1).
  destruct (Href _ _ H2 E2 M2) as (p2 & L2 & G2).
  eapply NoDup_map_inj_In; eauto. congruence.
Qed.

Lemma endedFrozen_refl s : endedFrozen s s.
Proof. intros g Hg He. exists g. by repeat split. Qed.

Lemma endedFrozen_trans s1 s2 s3 :
  endedFrozen s1 s2 → endedFrozen s2 s3 → endedFrozen s1 s3.
Proof.
  intros H12 H23 g Hg He.
  destruct (H12 _ Hg He) as (g2 & Hg2 & I2 & E2 & M2).
  destruct (H23 _ Hg2 E2) as (g3 & Hg3 & I3 & E3 & M3).
  exists g3. repeat split; [done|congruence|done|set_solver].
Qed.

(** *** [assignPlayer] and the invariants *)

Lemma assignPlayer_ids gid pid s s' :
  assignPlayer gid pid s = Ok s' → gameIds s' = gameIds s.
Proof.
  intros H. apply assignPlayer_Ok in H as (g & p & _ & _ & _ & Hg & _).
  unfold gameIds. rewrite Hg, List.map_map. apply List.map_ext, reseat_id.
Qed.

Lemma assignPlayer_distinct gid pid s s' :
  distinctIds s → assignPlayer gid pid s = Ok s' → distinctIds s'.
Proof. unfold distinctIds. intros Hd H. by rewrite (assignPlayer_ids _ _ _ _ H). Qed.

Lemma target_unique s g x :
  distinctIds s → lookupGame (g_id x) s = Some g → In x (games s) → x = g.
Proof.
  intros [Hnd _] Hg Hx. apply lookupGame_Some in Hg as [Hid Hin].
  by eapply NoDup_map_inj_In.
Qed.

(** The capacity survives an assignment to a game with an open slot. *)
Lemma assignPlayer_capacity g pid s s' :
  distinctIds s → withinCapacity s → In g (games s) → hasOpenSlot g = true →
  assignPlayer (g_id g) pid s = Ok s' → withinCapacity s'.
Proof.
  intros Hd Hc Hin Hslot H.
  apply assignPlayer_Ok in H as (g0 & p & Hg0 & _ & _ & Hg & _).
  unfold withinCapacity in *. rewrite Hg. apply List.Forall_map.
  rewrite List.Forall_forall in Hc |- *. intros x Hx.
  rewrite reseat_treatment. specialize (Hc x Hx).
  destruct (decide (g_id x = g_id g)) as [E|E].
  - assert (x = g) as -> by (destruct Hd; by eapply NoDup_map_inj_In).
    pose proof (reseat_size_target (g_id g) p g).
    unfold hasOpenSlot in Hslot. apply Z.ltb_lt in Hslot. lia.
  - pose proof (reseat_size_other (g_id g) p x E). lia.
Qed.

Lemma lookupPlayer_assigned gid pid s s' q :
  assignPlayer gid pid s = Ok s' →
  lookupPlayer q s' =
  (if bool_decide (q = pid)
   then (λ p, set_assignment (Some gid)
                (g_treatment <$> lookupGame gid s)
                (lookupGame gid s ≫= g_treatmentName) p) <$> lookupPlayer q s
   else lookupPlayer q s).
Proof.
  intros H. apply assignPlayer_Ok in H as (g & p & Hg & _ & _ & _ & Hp & _).
  unfold lookupPlayer at 1. rewrite Hp, find_player_map by done.
  by rewrite Hg.
Qed.

Lemma assignPlayer_referenced gid pid s s' :
  distinctIds s → referenced s → assignPlayer gid pid s = Ok s' → referenced s'.
Proof.
  intros Hd Href H x' q Hx' Hne Hq.
  pose proof (lookupPlayer_assigned _ _ _ _ q H) as Hlook.
  apply assignPlayer_Ok in H as (g & p & Hg & _ & Hp & Hgs & _).
  rewrite Hgs in Hx'. apply List.in_map_iff in Hx' as (x & <- & Hx).
  rewrite reseat_hasEnded in Hne. rewrite reseat_id.
  destruct (lookupPlayer_Some _ _ _ Hp) as [Hpid _].
  apply reseat_players in Hq as [[Hid ->]|[Hq Hstay]].
  - rewrite Hpid, bool_decide_eq_true_2, Hp in Hlook by done.
    rewrite Hpid. eexists. split; [exact Hlook|]. simpl. by rewrite Hid.
  - destruct (Href _ _ Hx Hne Hq) as (pq & Lq & Gq).
    destruct (decide (q = pid)) as [->|Hqp].
    + exfalso. apply Hstay. rewrite Hp in Lq. injection Lq as <-.
      repeat split; [done| |done]. rewrite Gq. simpl.
      apply negb_true_iff, bool_decide_eq_false. intros E.
      destruct Hd as [_ Hd]. apply Hd. rewrite <- E. by apply List.in_map.
    + rewrite bool_decide_eq_false_2 in Hlook by done.
      exists pq. by rewrite Hlook.
Qed.

Lemma assignPlayer_frozen gid pid s s' :
  distinctIds s → assignPlayer gid pid s = Ok s' → endedFrozen s s'.
Proof.
  intros Hd H x Hx He.
  apply assignPlayer_Ok in H as (g & p & Hg & Hne & _ & Hgs & _).
  exists (reseat gid p x). rewrite Hgs, reseat_id, reseat_hasEnded.
  repeat split; [by apply List.in_map|done|].
  intros q. rewrite reseat_players. intros [[Hid _]|[Hq _]]; [|done].
  exfalso. subst gid. rewrite (target_unique s g x Hd Hg Hx) in He. congruence.
Qed.

(** *** Attribute writes and the invariants *)

Lemma attributeOnly_waitingReason v : attributeOnly (set_waitingReason v).
Proof. by intros []. Qed.
Lemma attributeOnly_requestReplay v : attributeOnly (set_requestReplay v).
Proof. by intros []. Qed.
Lemma attributeOnly_replayError v : attributeOnly (set_replayError v).
Proof. by intros []. Qed.
Lemma attributeOnly_ended v : attributeOnly (set_ended v).
Proof. by intros []. Qed.
Lemma flagOnly_hasStarted : flagOnly (set_hasStarted true).
Proof. by intros []. Qed.
Lemma flagOnly_hasEnded : flagOnly (set_hasEnded true).
Proof. by intros []. Qed.

Lemma updatePlayer_referenced pid f s :
  attributeOnly f → referenced s → referenced (updatePlayer pid f s).
Proof.
  intros Hf Href g q Hg Hne Hq.
  destruct (Href g q Hg Hne Hq) as (p & Lp & Gp).
  rewrite lookupPlayer_update by apply Hf.
  case_bool_decide; rewrite Lp; simpl; eexists; split; try done.
  by rewrite (proj2 (Hf p)).
Qed.

(** Clearing [gameID] is harmless for a player that sits in no game that
    is still active. *)
Lemma forget_referenced pid s :
  (∀ g, In g (games s) → g_hasEnded g = false → pid ∉ g_players g) →
  referenced s → referenced (updatePlayer pid (set_gameID None) s).
Proof.
  intros Hfree Href g q Hg Hne Hq.
  destruct (Href g q Hg Hne Hq) as (p & Lp & Gp).
  rewrite lookupPlayer_update by done.
  case_bool_decide as E; [|by exists p].
  subst q. by destruct (Hfree g Hg Hne).
Qed.

Lemma updateGame_ids gid f s :
  flagOnly f → gameIds (updateGame gid f s) = gameIds s.
Proof.
  intros Hf. unfold gameIds. simpl. rewrite List.map_map. apply List.map_ext.
  intros g. case_bool_decide; [apply Hf|done].
Qed.

Lemma updateGame_capacity gid f s :
  flagOnly f → withinCapacity s → withinCapacity (updateGame gid f s).
Proof.
  intros Hf Hc. unfold withinCapacity in *. simpl. apply List.Forall_map.
  eapply List.Forall_impl; [|exact Hc]. intros g Hg. simpl.
  case_bool_decide; [|done].
  destruct (Hf g) as (_ & -> & -> & _). done.
Qed.

Lemma updateGame_referenced gid f s :
  flagOnly f → referenced s → referenced (updateGame gid f s).
Proof.
  intros Hf Href g' q Hg' Hne Hq. simpl in Hg'.
  apply List.in_map_iff in Hg' as (g & <- & Hg).
  rewrite lookupPlayer_updateGame.
  destruct (Hf g) as (Hid & Hpl & _ & Hend).
  case_bool_decide.
  - rewrite Hid. rewrite Hpl in Hq. apply (Href g q Hg); [|done].
    destruct (g_hasEnded g); [|done]. rewrite Hend in Hne; done.
  - by apply Href.
Qed.

Lemma updateGame_frozen gid f s :
  flagOnly f → endedFrozen s (updateGame gid f s).
Proof.
  intros Hf g Hg He.
  exists (if bool_decide (g_id g = gid) then f g else g). split.
  - simpl. apply List.in_map_iff. by exists g.
  - destruct (Hf g) as (Hid & Hpl & _ & Hend).
    case_bool_decide; [|done]. rewrite Hid, Hpl, Hend; done.
Qed.

Lemma sameGames_frozen s s' : games s' = games s → endedFrozen s s'.
Proof. intros E g Hg He. exists g. rewrite E. by repeat split. Qed.

(** ** Handlers as sequences of elementary changes *)

Lemma foldl_bind_Failed {B} (h : B → Ctx → result Ctx) e l :
  foldl (λ acc x, s' ← acc; h x s') (Failed e) l = Failed e.
Proof. induction l as [|x l IH]; simpl; [reflexivity|exact IH]. Qed.

Lemma foldl_bind_Ok {B} (h : B → Ctx → result Ctx) s x l s' :
  foldl (λ acc x, s' ← acc; h x s') (Ok s) (x :: l) = Ok s' →
  ∃ s1, h x s = Ok s1 ∧ foldl (λ acc x, s' ← acc; h x s') (Ok s1) l = Ok s'.
Proof.
  simpl. change (Ok s ≫= h x) with (h x s).
  destruct (h x s) as [s1|e] eqn:E.
  - intros H. by exists s1.
  - by rewrite foldl_bind_Failed.
Qed.

Lemma slices_length {A} n (l : list A) :
  List.Forall (λ b, length b ≤ n) (slices n l).
Proof.
  unfold slices. apply List.Forall_map, List.Forall_forall. intros k _.
  rewrite length_take. lia.
Qed.

Section Invariants.

Variable newGameID : list string → string.

(** The backend hands out ids that are not in use and not empty. *)
Hypothesis newGameID_fresh : ∀ used, ¬ In (newGameID used) used.
Hypothesis newGameID_named : ∀ used, newGameID used ≠ EmptyString.

Lemma changes_trans c g s1 s2 s3 :
  changes newGameID c g s1 s2 → changes newGameID c g s2 s3 → changes newGameID c g s1 s3.
Proof.
  induction 1; intros H23; eauto using changes.
Qed.

Lemma changes_unchecked c g s s' : changes newGameID c g s s' → changes newGameID false g s s'.
Proof.
  induction 1; [constructor| | | | |].
  - eapply ch_seat; [done| |]; eassumption.
  - by eapply ch_note.
  - by eapply ch_forget.
  - by eapply ch_create.
  - by eapply ch_raise.
Qed.

(** *** Game creation and the invariants *)

Lemma addGame_ids batch t avg s :
  gameIds (addGame newGameID batch t avg s).2 = gameIds s ++ [newGameID (gameIds s)].
Proof. unfold gameIds. simpl. by rewrite List.map_app. Qed.

Lemma addGame_distinct batch t avg s :
  distinctIds s → distinctIds (addGame newGameID batch t avg s).2.
Proof.
  intros [Hnd He]. unfold distinctIds. rewrite addGame_ids. split.
  - apply NoDup_app. repeat split; [done| |apply NoDup_singleton].
    intros x Hx ->%list_elem_of_singleton.
    by apply (newGameID_fresh (gameIds s)), list_elem_of_In.
  - rewrite List.in_app_iff. intros [H|[H|[]]]; [done|].
    by apply (newGameID_named (gameIds s)).
Qed.

Lemma addGame_capacity batch t avg s :
  (0 <= playerCount t)%Z → withinCapacity s →
  withinCapacity (addGame newGameID batch t avg s).2.
Proof.
  intros Ht Hc. unfold withinCapacity. simpl. apply List.Forall_app. split; [done|].
  constructor; [|constructor]. cbn [g_players g_treatment].
  rewrite size_empty. lia.
Qed.

Lemma addGame_referenced batch t avg s :
  referenced s → referenced (addGame newGameID batch t avg s).2.
Proof.
  intros Href g q Hg Hne Hq. simpl in Hg.
  apply List.in_app_iff in Hg as [Hg|[<-|[]]]; [by apply Href|].
  simpl in Hq. set_solver.
Qed.

Lemma addGame_frozen batch t avg s :
  endedFrozen s (addGame newGameID batch t avg s).2.
Proof.
  intros g Hg He. exists g. simpl. rewrite List.in_app_iff. by repeat split; [left|..].
Qed.

(** *** The invariants along a sequence of changes *)

Lemma changes_invariants c gd s s' :
  changes newGameID c gd s s' → distinctIds s →
  distinctIds s' ∧
  (c = true → withinCapacity s → withinCapacity s') ∧
  (gd = true → referenced s → referenced s') ∧
  endedFrozen s s'.
Proof.
  induction 1 as [s|s gid pid s1 s' Hslot Hassign _ IH|s pid f s' Hf _ IH
                 |s pid s' Hfree _ IH|s batch t avg s' Ht _ IH|s gid f s' Hf _ IH];
    intros Hd.
  - split; [|split; [|split]]; auto using endedFrozen_refl.
  - destruct (IH (assignPlayer_distinct _ _ _ _ Hd Hassign)) as (D & C & R & F).
    split; [|split; [|split]]; [done| | |].
    + intros -> Hc. apply C; [done|].
      destruct (Hslot eq_refl) as (g & Hg & <- & Hs).
      exact (assignPlayer_capacity g pid s s1 Hd Hc Hg Hs Hassign).
    + intros -> Hr. apply R; [done|]. exact (assignPlayer_referenced _ _ _ _ Hd Hr Hassign).
    + eapply endedFrozen_trans; [|exact F]. exact (assignPlayer_frozen _ _ _ _ Hd Hassign).
  - destruct (IH Hd) as (D & C & R & F).
    split; [|split; [|split]]; [done|done| |].
    + intros -> Hr. apply R; [done|]. by apply updatePlayer_referenced.
    + eapply endedFrozen_trans; [|exact F]. by apply sameGames_frozen.
  - destruct (IH Hd) as (D & C & R & F).
    split; [|split; [|split]]; [done|done| |].
    + intros -> Hr. apply R; [done|]. apply forget_referenced; auto.
    + eapply endedFrozen_trans; [|exact F]. by apply sameGames_frozen.
  - destruct (IH (addGame_distinct _ _ _ _ Hd)) as (D & C & R & F).
    split; [|split; [|split]]; [done| | |].
    + intros -> Hc. apply C; [done|]. by apply addGame_capacity.
    + intros -> Hr. apply R; [done|]. by apply addGame_referenced.
    + eapply endedFrozen_trans; [|exact F]. apply addGame_frozen.
  - assert (distinctIds (updateGame gid f s)) as Hd'.
    { unfold distinctIds. by rewrite updateGame_ids. }
    destruct (IH Hd') as (D & C & R & F).
    split; [|split; [|split]]; [done| | |].
    + intros -> Hc. apply C; [done|]. by apply updateGame_capacity.
    + intros -> Hr. apply R; [done|]. by apply updateGame_referenced.
    + eapply endedFrozen_trans; [|exact F]. by apply updateGame_frozen.
Qed.

End Invariants.

(** ** Where each handler looks for its target *)

Lemma withPlayer_Ok pid s k s' :
  withPlayer pid s k = Ok s' → ∃ p, lookupPlayer pid s = Some p ∧ k p = Ok s'.
Proof. unfold withPlayer. destruct (lookupPlayer pid s) as [p|]; [eauto|discriminate]. Qed.

Lemma availableGames_In s g :
  In g (availableGames s) ↔
  In g (games s) ∧ g_hasEnded g = false ∧ g_hasStarted g = false ∧
  (Z.of_nat (size (g_players g)) < playerCount (g_treatment g))%Z.
Proof.
  unfold availableGames. rewrite filter_In, !andb_true_iff, !negb_true_iff.
  rewrite Z.gtb_ltb, Z.ltb_lt. tauto.
Qed.

Lemma hasOpenSlot_lt g :
  hasOpenSlot g = true ↔
  (Z.of_nat (size (g_players g)) < playerCount (g_treatment g))%Z.
Proof. apply Z.ltb_lt. Qed.

Lemma notEndedNotStarted_flags g :
  notEndedNotStarted g = true ↔ g_hasEnded g = false ∧ g_hasStarted g = false.
Proof. unfold notEndedNotStarted. by rewrite andb_true_iff, !negb_true_iff. Qed.

Lemma sequentialTarget_Some localeCompare s g :
  sequentialTarget localeCompare s = Some g →
  In g (games s) ∧ notEndedNotStarted g = true ∧ hasOpenSlot g = true.
Proof.
  intros H. apply find_some in H as [Hin Hslot].
  apply arraySort_In, filter_In in Hin. tauto.
Qed.

Lemma attributeTarget_Some p s g :
  attributeTarget p s = Some g →
  In g (games s) ∧ notEndedNotStarted g = true ∧ hasOpenSlot g = true ∧
  g_requiredSkillLevel g = p_skillLevel p.
Proof.
  intros H. apply find_some in H as [Hin Hslot].
  apply filter_In in Hin as [Hin Hm]. apply filter_In in Hin.
  apply bool_decide_eq_true in Hm. tauto.
Qed.

Lemma balancedTarget_Some u s g :
  balancedTarget u s = Some g →
  In g (games s) ∧ notEndedNotStarted g = true ∧
  Some (size (g_players g)) =
    minPlayerCount (List.filter notEndedNotStarted (games s)).
Proof.
  intros H. apply nth_error_In, filter_In in H as [Hin Hm].
  apply filter_In in Hin. apply bool_decide_eq_true in Hm. tauto.
Qed.

Lemma replayTarget_Some bs gs g :
  replayTarget bs gs = Some g →
  In g gs ∧ g_hasEnded g = false ∧ hasOpenSlot g = true ∧
  ∃ batch, In batch bs ∧ g_batchID g = Some (b_id batch).
Proof.
  induction bs as [|b bs IH]; simpl; [discriminate|].
  destruct (List.find _ _) as [g'|] eqn:E.
  - intros [= ->]. apply find_some in E as [Hin Hslot].
    apply filter_In in Hin as [Hin Hc]. apply andb_true_iff in Hc as [Hb He].
    apply bool_decide_eq_true in Hb. apply negb_true_iff in He. eauto 10.
  - intros H. destruct (IH H) as (? & ? & ? & batch & ? & ?). eauto 10.
Qed.

Section Decomposition.

Variable localeCompare : string → string → Z.
Variable newGameID : list string → string.

Lemma seat_changes c gd g pid s s' :
  In g (games s) → (c = true → hasOpenSlot g = true) →
  assignPlayer (g_id g) pid s = Ok s' → changes newGameID c gd s s'.
Proof.
  intros Hin Hslot H. eapply ch_seat; [|exact H|constructor].
  intros Hc. exists g. auto.
Qed.

Lemma note_changes c gd pid f s :
  attributeOnly f → changes newGameID c gd s (updatePlayer pid f s).
Proof. intros Hf. eapply ch_note; [exact Hf|constructor]. Qed.

Lemma basicSetup_changes gd pid s s' :
  basicSetup pid s = Ok s' → changes newGameID true gd s s'.
Proof.
  unfold basicSetup. destruct (availableGames s) as [|g l] eqn:E.
  - intros [= <-]. constructor.
  - assert (In g (availableGames s)) as Hin by (rewrite E; by left).
    apply availableGames_In in Hin as (Hin & _ & _ & Hslot).
    intros H. eapply (seat_changes _ _ g); [done| |exact H].
    intros _. by apply hasOpenSlot_lt.
Qed.

Lemma fillGamesSequentially_changes gd pid s s' :
  fillGamesSequentially localeCompare pid s = Ok s' → changes newGameID true gd s s'.
Proof.
  intros H. apply withPlayer_Ok in H as (p & _ & H).
  destruct (truthy (p_gameID p)); [injection H as <-; constructor|].
  destruct (sequentialTarget localeCompare s) as [g|] eqn:E;
    [|injection H as <-; constructor].
  apply sequentialTarget_Some in E as (Hin & _ & Hslot).
  by eapply (seat_changes _ _ g).
Qed.

Lemma attributeBasedMatching_changes gd pid s s' :
  attributeBasedMatching pid s = Ok s' → changes newGameID true gd s s'.
Proof.
  intros H. apply withPlayer_Ok in H as (p & _ & H).
  destruct (truthy (p_gameID p)); [injection H as <-; constructor|].
  destruct (attributeTarget p s) as [g|] eqn:E;
    [|injection H as <-; constructor].
  apply attributeTarget_Some in E as (Hin & _ & Hslot & _).
  by eapply (seat_changes _ _ g).
Qed.

Lemma randomAssignmentWithBalancing_changes gd u pid s s' :
  randomAssignmentWithBalancing u pid s = Ok s' → changes newGameID false gd s s'.
Proof.
  intros H. apply withPlayer_Ok in H as (p & _ & H).
  destruct (truthy (p_gameID p)); [injection H as <-; constructor|].
  destruct (balancedTarget u s) as [g|] eqn:E;
    [|injection H as <-; constructor].
  apply balancedTarget_Some in E as (Hin & _).
  by eapply (seat_changes _ _ g).
Qed.

Lemma conditionalAssignment_changes gd pid s s' :
  conditionalAssignment pid s = Ok s' → changes newGameID true gd s s'.
Proof.
  intros H. apply withPlayer_Ok in H as (p & _ & H).
  destruct (truthy (p_gameID p)); [injection H as <-; constructor|].
  destruct (negb (p_surveyComplete p) || negb (p_termsAgreed p)).
  { injection H as <-. apply note_changes, attributeOnly_waitingReason. }
  destruct (List.find _ _) as [g|] eqn:E; [|injection H as <-; constructor].
  apply find_some in E as [Hin Hslot]. apply filter_In in Hin as [Hin _].
  destruct (assignPlayer (g_id g) pid s) as [s1|e] eqn:Ea; [|discriminate].
  injection H as <-.
  eapply changes_trans; [by eapply (seat_changes _ _ g)|].
  apply note_changes, attributeOnly_waitingReason.
Qed.

Lemma replayReassignment_changes gd pid s s' :
  (gd = true →
   ∀ g, In g (games s) → g_hasEnded g = false → pid ∉ g_players g) →
  replayReassignment pid s = Ok s' → changes newGameID true gd s s'.
Proof.
  intros Hfree H. apply withPlayer_Ok in H as (p & _ & H).
  destruct (negb (p_requestReplay p)); [injection H as <-; constructor|].
  eapply ch_forget; [exact Hfree|].
  eapply ch_note; [apply (attributeOnly_ended None)|].
  cbv zeta in H.
  set (s2 := updatePlayer pid (set_ended None) (updatePlayer pid (set_gameID None) s)) in *.
  destruct (replayTarget _ _) as [g|] eqn:E.
  - apply replayTarget_Some in E as (Hin & _ & Hslot & _).
    destruct (assignPlayer (g_id g) pid s2) as [s3|e] eqn:Ea; [|discriminate].
    injection H as <-.
    eapply changes_trans; [by eapply (seat_changes _ _ g)|].
    apply note_changes, attributeOnly_requestReplay.
  - injection H as <-.
    eapply ch_note; [apply (attributeOnly_replayError (Some replayMessage))|].
    apply note_changes, attributeOnly_requestReplay.
Qed.

(** The members of a bracket go, one by one, into a game that still has
    room for all of them. *)
Lemma assignBracket_changes gd gid bracket : ∀ s s' g,
  In g (games s) → g_id g = gid →
  (Z.of_nat (size (g_players g) + length bracket) <= playerCount (g_treatment g))%Z →
  assignBracket gid bracket s = Ok s' → changes newGameID true gd s s'.
Proof.
  induction bracket as [|p bracket IH]; intros s s' g Hin Hid Hroom H.
  - injection H as <-. constructor.
  - apply (foldl_bind_Ok (λ p s, assignPlayer gid (p_id p) s)) in H as (s1 & Ha & H).
    simpl in Hroom.
    eapply ch_seat; [| exact Ha |].
    + intros _. exists g. repeat split; [done|done|]. apply hasOpenSlot_lt. lia.
    + pose proof Ha as Ha'.
      apply assignPlayer_Ok in Ha' as (g0 & p0 & _ & _ & _ & Hgs & _).
      eapply (IH s1 s' (reseat gid p0 g)); [| |  | exact H].
      * rewrite Hgs. by apply List.in_map.
      * by rewrite reseat_id.
      * rewrite reseat_treatment.
        pose proof (reseat_size_target gid p0 g). lia.
Qed.

Lemma placeBracket_changes gd batch bracket s s' :
  length bracket ≤ requiredPlayers →
  placeBracket newGameID batch bracket s = Ok s' → changes newGameID true gd s s'.
Proof.
  intros Hlen. unfold placeBracket.
  destruct (length bracket <? requiredPlayers) eqn:E; [intros [= <-]; constructor|].
  apply Nat.ltb_ge in E. intros H.
  eapply ch_create; [|eapply assignBracket_changes; [| |  |exact H]].
  - simpl. lia.
  - simpl. apply List.in_app_iff. right. by left.
  - reflexivity.
  - cbn [g_players g_treatment playerCount]. rewrite size_empty. lia.
Qed.

Lemma placeBrackets_changes gd batch brackets : ∀ s s',
  List.Forall (λ b, length b ≤ requiredPlayers) brackets →
  foldl (λ acc bracket, s' ← acc; placeBracket newGameID batch bracket s') (Ok s) brackets
    = Ok s' →
  changes newGameID true gd s s'.
Proof.
  induction brackets as [|b brackets IH]; intros s s' Hlen H.
  - injection H as <-. constructor.
  - apply (foldl_bind_Ok (placeBracket newGameID batch)) in H as (s1 & Hb & H).
    inversion Hlen; subst.
    eapply changes_trans; [by eapply placeBracket_changes|by apply IH].
Qed.

Lemma skillBasedMatchmaking_changes gd pid s s' :
  skillBasedMatchmaking newGameID pid s = Ok s' → changes newGameID true gd s s'.
Proof.
  intros H. apply withPlayer_Ok in H as (p & _ & H).
  destruct (truthy (p_gameID p)); [injection H as <-; constructor|].
  destruct (negb (truthyNum (p_skillRating p))); [injection H as <-; constructor|].
  cbv zeta in H.
  destruct (length (sortedCandidates s) <? requiredPlayers);
    [injection H as <-; constructor|].
  destruct (List.filter isRunning (batches s)) as [|batch l];
    [injection H as <-; constructor|].
  eapply placeBrackets_changes; [apply slices_length|exact H].
Qed.

Lemma run_changes gd op s s' :
  (gd = true → replayAfterEnd op s) →
  run localeCompare newGameID op s = Ok s' →
  changes newGameID (checksCapacity op) gd s s'.
Proof.
  intros Hgd H. destruct op; simpl in *.
  - eapply ch_seat; [done|exact H|constructor].
  - eapply basicSetup_changes; exact H.
  - eapply fillGamesSequentially_changes; exact H.
  - eapply randomAssignmentWithBalancing_changes; exact H.
  - eapply attributeBasedMatching_changes; exact H.
  - eapply conditionalAssignment_changes; exact H.
  - eapply replayReassignment_changes; [exact Hgd|exact H].
  - eapply skillBasedMatchmaking_changes; exact H.
  - injection H as <-. eapply ch_raise; [apply flagOnly_hasStarted|constructor].
  - injection H as <-. eapply ch_raise; [apply flagOnly_hasEnded|constructor].
Qed.

Lemma runs_changes (P : Op → Ctx → Prop) c gd ops s s' :
  (∀ op s, P op s → (c = true → checksCapacity op = true) ∧
                    (gd = true → replayAfterEnd op s)) →
  runs localeCompare newGameID P ops s s' → changes newGameID c gd s s'.
Proof.
  intros HP. induction 1 as [s|op ops s s1 s' Hop Hrun _ IH]; [constructor|].
  destruct (HP _ _ Hop) as [Hc Hg].
  eapply changes_trans; [|exact IH].
  apply (run_changes gd) in Hrun; [|exact Hg].
  destruct c; [by rewrite Hc in Hrun|by eapply changes_unchecked].
Qed.

End Decomposition.

(** ** Instances for concrete runs *)

Lemma string_length_append (a b : string) :
  String.length (a +:+ b) = String.length a + String.length b.
Proof. induction a as [|c a IH]; simpl; [reflexivity|by rewrite IH]. Qed.

Lemma longerID_length used x :
  In x used → String.length x < String.length (longerID used).
Proof.
  unfold longerID. rewrite string_length_append. simpl.
  induction used as [|y used IH]; simpl; [done|].
  intros [->|Hx].
  - change (String.append x ?r) with (x +:+ r). rewrite string_length_append. lia.
  - specialize (IH Hx).
    change (String.append y ?r) with (y +:+ r). rewrite string_length_append. lia.
Qed.

Lemma longerID_fresh used : ¬ In (longerID used) used.
Proof. intros H. apply longerID_length in H. lia. Qed.

Lemma longerID_named used : longerID used ≠ EmptyString.
Proof. unfold longerID. destruct (foldr _ _ _); discriminate. Qed.

(** ** C1: the capacity invariant *)

(** C1, refuted as stated: the strategy "random assignment with balancing"
    assigns without comparing the occupancy with the capacity.  From a store
    within capacity, whose two games are both full, one run of it (with the
    draw 0) succeeds and leaves a game with more members than its
    [playerCount]; the game it chose had no open slot. *)
Lemma balanced_random_overbooks :
  withinCapacity bothFull ∧
  (∀ g, balancedTarget 0 bothFull = Some g → hasOpenSlot g = false) ∧
  ∃ s', randomAssignmentWithBalancing 0 "e" bothFull = Ok s' ∧
        ¬ withinCapacity s' ∧
        List.map (λ g, (g_id g, size (g_players g), playerCount (g_treatment g)))
          (games s') = [("g1", 3, 2%Z); ("g2", 2, 2%Z)].
Proof.
  split; [by apply (bool_decide_unpack _)|].
  split; [intros g Hg; vm_compute in Hg; injection Hg as <-; by vm_compute|].
  eexists. split; [by vm_compute|].
  split; [|by vm_compute].
  intros H. by apply (bool_decide_pack _) in H.
Qed.

(** C1, as amended: in a store whose games have distinct, non-empty ids
    and are all within capacity, any sequence of runs of the handlers that
    compare occupancy with capacity before they assign (basic setup, fill
    sequentially, attribute matching, conditional assignment, replay,
    skill matchmaking), interleaved with games starting and ending, leaves
    every game within its capacity. *)
Theorem capacity_invariant localeCompare newGameID ops s s' :
  (∀ used, ¬ In (newGameID used) used) →
  (∀ used, newGameID used ≠ EmptyString) →
  distinctIds s → withinCapacity s →
  runs localeCompare newGameID (λ op _, checksCapacity op = true) ops s s' →
  withinCapacity s' ∧ distinctIds s'.
Proof.
  intros Hfresh Hnamed Hd Hc Hruns.
  apply (runs_changes localeCompare newGameID _ true false) in Hruns.
  - destruct (changes_invariants newGameID Hfresh Hnamed _ _ _ _ Hruns Hd)
      as (D & C & _ & _). auto.
  - intros op s0 Hop. split; [done|discriminate].
Qed.

Lemma lobby_distinct : distinctIds lobby.
Proof.
  split; [apply (bool_decide_unpack _); by vm_compute|].
  simpl. intuition discriminate.
Qed.

Lemma capacity_invariant_witness :
  (∀ used, ¬ In (longerID used) used) ∧ (∀ used, longerID used ≠ EmptyString) ∧
  distinctIds lobby ∧ withinCapacity lobby ∧
  ∃ s',
    runs codeCompare longerID (λ op _, checksCapacity op = true)
      [RunFillSequentially "b"; RunBasicSetup "c"; GameStarts "g1";
       RunAttributeMatching "d"; RunConditional "d"; RunSkillMatchmaking "d";
       GameEnds "g1"; RunReplay "a"]
      lobby s' ∧
    withinCapacity s' ∧ distinctIds s'.
Proof.
  split; [exact longerID_fresh|]. split; [exact longerID_named|].
  split; [exact lobby_distinct|].
  assert (withinCapacity lobby) as Hc by (apply (bool_decide_unpack _); by vm_compute).
  split; [exact Hc|].
  assert (∃ s',
    runs codeCompare longerID (λ op _, checksCapacity op = true)
      [RunFillSequentially "b"; RunBasicSetup "c"; GameStarts "g1";
       RunAttributeMatching "d"; RunConditional "d"; RunSkillMatchmaking "d";
       GameEnds "g1"; RunReplay "a"]
      lobby s') as [s' Hruns].
  { eexists. repeat (eapply runs_cons; [reflexivity|reflexivity|]). apply runs_nil. }
  exists s'. split; [exact Hruns|].
  exact (capacity_invariant codeCompare longerID _ lobby s'
           longerID_fresh longerID_named lobby_distinct Hc Hruns).
Defined.

(** ** C2: at most one active assignment *)



Section References.

Variable newGameID : list string → string.
Hypothesis newGameID_fresh : ∀ used, ¬ In (newGameID used) used.
Hypothesis newGameID_named : ∀ used, newGameID used ≠ EmptyString.


End References.

(** What one [assignPlayer] call leaves behind for the player it moved. *)
Lemma assignPlayer_moves gid pid p s s' :
  distinctIds s → referenced s → namedReferences s →
  lookupPlayer pid s = Some p → assignPlayer gid pid s = Ok s' →
  (∃ g, In g (games s') ∧ g_id g = gid ∧ pid ∈ g_players g) ∧
  (∀ prev x, p_gameID p = Some prev → prev ≠ gid →
     In x (games s') → g_id x = prev → pid ∉ g_players x) ∧
  (∀ x, In x (games s') → g_hasEnded x = false → pid ∈ g_players x →
     g_id x = gid).
Proof.
  intros Hd Href Hn Hp H.
  pose proof (assignPlayer_referenced _ _ _ _ Hd Href H) as Href'.
  pose proof (lookupPlayer_assigned _ _ _ _ pid H) as Hlook.
  rewrite bool_decide_eq_true_2, Hp in Hlook by done. simpl in Hlook.
  destruct (lookupPlayer_Some _ _ _ Hp) as [Hpid Hpin].
  apply assignPlayer_Ok in H as (g & p0 & Hg & _ & Hp0 & Hgs & _).
  assert (p0 = p) as -> by congruence.
  split; [|split].
  - exists (reseat gid p g). rewrite Hgs, reseat_id.
    apply lookupGame_Some in Hg as [Hid Hin].
    repeat split; [by apply List.in_map|done|].
    apply reseat_players. left. by split.
  - intros prev x Hprev Hne Hx Hxid. rewrite Hgs in Hx.
    apply List.in_map_iff in Hx as (x0 & <- & Hx0).
    rewrite reseat_id in Hxid. rewrite reseat_players.
    intros [[Hid _]|[_ Hstay]]; [congruence|]. apply Hstay.
    repeat split; [done| |congruence].
    rewrite Hprev. simpl. apply negb_true_iff, bool_decide_eq_false.
    intros ->. by apply (Hn p Hpin).
  - intros x Hx Hne Hmem.
    destruct (Href' x pid Hx Hne Hmem) as (p' & Lp' & Gp').
    rewrite Hlook in Lp'. injection Lp' as <-. simpl in Gp'. congruence.
Qed.


Lemma arcade_distinct : distinctIds arcade.
Proof.
  split; [apply (bool_decide_unpack _); by vm_compute|].
  simpl. intuition discriminate.
Qed.





(** ** C8: which games are offered, and ended games *)

(** C8, refuted as stated: a running session with unmet capacity is not
    among the candidates the basic setup computes; the filter asks for
    [!hasStarted] as well, so the arriving player is not assigned. *)
Lemma running_game_not_offered :
  In runningGame (games oneRunningGame) ∧
  g_hasEnded runningGame = false ∧ g_hasStarted runningGame = true ∧
  (Z.of_nat (size (g_players runningGame)) < playerCount (g_treatment runningGame))%Z ∧
  ¬ In runningGame (availableGames oneRunningGame) ∧
  basicSetup "a" oneRunningGame = Ok oneRunningGame.
Proof.
  split; [by left|]. split; [done|]. split; [done|]. split; [by vm_compute|].
  split; [|done]. intros H. exact H.
Qed.

Lemma assignPlayer_ended gid g pid s :
  lookupGame gid s = Some g → g_hasEnded g = true →
  assignPlayer gid pid s = Failed sessionEnded.
Proof. intros Hg He. unfold assignPlayer. by rewrite Hg, He. Qed.

(** C8, as amended: (1) the candidates of the basic setup are exactly the
    games that have neither ended nor started and whose member count is
    below their [playerCount]; (2) [assignPlayer] on a game that has ended
    fails with [sessionEnded]; (3) along any sequence of [assignPlayer]
    calls, handler runs and lifecycle changes, a game whose [hasEnded] flag
    is set stays ended and gains no member. *)
Theorem ended_games_gain_no_member localeCompare newGameID :
  (∀ used, ¬ In (newGameID used) used) →
  (∀ used, newGameID used ≠ EmptyString) →
  (∀ s g, In g (availableGames s) ↔
     In g (games s) ∧ g_hasEnded g = false ∧ g_hasStarted g = false ∧
     (Z.of_nat (size (g_players g)) < playerCount (g_treatment g))%Z) ∧
  (∀ s gid g pid, lookupGame gid s = Some g → g_hasEnded g = true →
     assignPlayer gid pid s = Failed sessionEnded) ∧
  (∀ ops s s', distinctIds s →
     runs localeCompare newGameID (λ _ _, True) ops s s' →
     ∀ g, In g (games s) → g_hasEnded g = true →
       ∃ g', In g' (games s') ∧ g_id g' = g_id g ∧ g_hasEnded g' = true ∧
             g_players g' ⊆ g_players g).
Proof.
  intros Hfresh Hnamed. split; [exact availableGames_In|].
  split; [intros s gid g pid; by apply assignPlayer_ended|].
  intros ops s s' Hd Hruns.
  apply (runs_changes localeCompare newGameID _ false false) in Hruns;
    [|intros op s0 _; split; discriminate].
  by destruct (changes_invariants newGameID Hfresh Hnamed _ _ _ _ Hruns Hd)
    as (_ & _ & _ & F).
Qed.

Lemma ended_games_gain_no_member_witness :
  (∀ used, ¬ In (longerID used) used) ∧ (∀ used, longerID used ≠ EmptyString) ∧
  distinctIds arcade ∧
  assignPlayer "g1" "b" (updateGame "g1" (set_hasEnded true) arcade)
    = Failed sessionEnded ∧
  ∃ s', runs codeCompare longerID (λ _ _, True) arcadeOps8
          (updateGame "g1" (set_hasEnded true) arcade) s' ∧
        ∃ g', In g' (games s') ∧ g_id g' = "g1" ∧ g_hasEnded g' = true ∧
              g_players g' ⊆ {["a"]}.
Proof.
  split; [exact longerID_fresh|]. split; [exact longerID_named|].
  split; [exact arcade_distinct|].
  pose proof (ended_games_gain_no_member codeCompare longerID
                longerID_fresh longerID_named) as (_ & Hrej & Hfrozen).
  split; [by eapply Hrej|].
  assert (∃ s', runs codeCompare longerID (λ _ _, True) arcadeOps8
                  (updateGame "g1" (set_hasEnded true) arcade) s') as [s' Hruns].
  { eexists. repeat (eapply runs_cons; [exact I|reflexivity|]). apply runs_nil. }
  exists s'. split; [exact Hruns|].
  assert (distinctIds (updateGame "g1" (set_hasEnded true) arcade)) as Hd.
  { split; [apply (bool_decide_unpack _); by vm_compute|].
    simpl. intuition discriminate. }
  destruct (Hfrozen _ _ _ Hd Hruns
              (set_hasEnded true (set_players {["a"]} (newGame "g1" 2))))
    as (g' & Hin & Hid & He & Hsub); [by left|reflexivity|].
  exists g'. split; [exact Hin|]. split; [exact Hid|]. split; [exact He|exact Hsub].
Defined.

(** ** The comparison of ids used in concrete runs is consistent *)

Lemma string_compare_trans (a b c : string) :
  String.compare a b ≠ Gt → String.compare b c ≠ Gt → String.compare a c ≠ Gt.
Proof.
  revert b c. induction a as [|x a IH]; intros [|y b] [|z c]; simpl; try done.
  unfold Ascii.compare.
  destruct (N.compare_spec (Ascii.N_of_ascii x) (Ascii.N_of_ascii y)) as [Exy|Exy|Exy];
    destruct (N.compare_spec (Ascii.N_of_ascii y) (Ascii.N_of_ascii z)) as [Eyz|Eyz|Eyz];
    destruct (N.compare_spec (Ascii.N_of_ascii x) (Ascii.N_of_ascii z)) as [Exz|Exz|Exz];
    try done; try lia.
  apply IH.
Qed.

Lemma codeCompare_le a b : (codeCompare a b <= 0)%Z ↔ String.compare a b ≠ Gt.
Proof. unfold codeCompare. destruct (String.compare a b); split; (done || lia). Qed.

Lemma codeCompare_total a b : (codeCompare a b <= 0)%Z ∨ (codeCompare b a <= 0)%Z.
Proof.
  rewrite !codeCompare_le, (String.compare_antisym a b).
  destruct (String.compare b a); simpl; auto.
Qed.

Lemma codeCompare_trans a b c :
  (codeCompare a b <= 0)%Z → (codeCompare b c <= 0)%Z → (codeCompare a c <= 0)%Z.
Proof. rewrite !codeCompare_le. apply string_compare_trans. Qed.

(** ** Assigning a player that has no game *)

Lemma detach_unassigned p s : truthy (p_gameID p) = false → detach p s = s.
Proof.
  unfold detach. destruct (p_gameID p) as [prev|]; [|done]. by intros ->.
Qed.

Lemma assignPlayer_unassigned g pid p s :
  distinctIds s → In g (games s) → g_hasEnded g = false →
  lookupPlayer pid s = Some p → truthy (p_gameID p) = false →
  assignPlayer (g_id g) pid s = Ok (seated g pid s).
Proof.
  intros [Hnd _] Hin He Hp Ht. unfold assignPlayer.
  rewrite (lookupGame_In s g Hnd Hin), He, Hp, (detach_unassigned p s Ht). done.
Qed.

Lemma StronglySorted_filter {A} (R : A → A → Prop) (f : A → bool) l :
  StronglySorted R l → StronglySorted R (List.filter f l).
Proof.
  induction 1 as [|x l Hl IH Hx]; simpl; [constructor|].
  destruct (f x); [|exact IH]. constructor; [exact IH|].
  rewrite List.Forall_forall in Hx |- *. intros y Hy.
  apply filter_In in Hy as [Hy _]. by apply Hx.
Qed.

(** ** C3: sequential fill *)

(** C3: for a player without a game, in a store whose games have distinct
    ids, and for a consistent [localeCompare]: the candidates are the games
    that have neither ended nor started, put in ascending order of id (the
    guide's "creation order"); the player is assigned to the first
    candidate with an open slot, which precedes every other such game;
    when no candidate has an open slot the store is left as it is.  When
    the store lists its games in ascending id order, that is, when ids
    grow with creation, the chosen game is the first one in the store's
    own order. *)
Theorem sequential_fill localeCompare pid p s :
  let before := λ a b : Game, (localeCompare (g_id a) (g_id b) <= 0)%Z in
  (∀ a b, before a b ∨ before b a) →
  (∀ a b c, before a b → before b c → before a c) →
  distinctIds s →
  lookupPlayer pid s = Some p → truthy (p_gameID p) = false →
  Permutation (List.filter notEndedNotStarted (games s)) (sortedOpenGames localeCompare s) ∧
  StronglySorted before (sortedOpenGames localeCompare s) ∧
  (∀ g, sequentialTarget localeCompare s = Some g →
     In g (games s) ∧ g_hasEnded g = false ∧ g_hasStarted g = false ∧
     hasOpenSlot g = true ∧
     (∀ g', In g' (games s) → notEndedNotStarted g' = true →
            hasOpenSlot g' = true → before g g') ∧
     fillGamesSequentially localeCompare pid s = Ok (seated g pid s)) ∧
  (sequentialTarget localeCompare s = None ↔
     ∀ g, In g (games s) → notEndedNotStarted g = true → hasOpenSlot g = false) ∧
  (sequentialTarget localeCompare s = None →
     fillGamesSequentially localeCompare pid s = Ok s) ∧
  (StronglySorted before (games s) →
     sequentialTarget localeCompare s =
     List.find (λ g, notEndedNotStarted g && hasOpenSlot g) (games s)).
Proof.
  intros before Htotal Htrans Hd Hp Ht.
  pose proof (arraySort_sorted (λ a b, localeCompare (g_id a) (g_id b)) Htotal Htrans
                (List.filter notEndedNotStarted (games s))) as Hsorted.
  split; [apply arraySort_perm|]. split; [exact Hsorted|].
  assert (Hfill : ∀ r, sequentialTarget localeCompare s = r →
            fillGamesSequentially localeCompare pid s =
            match r with Some g => assignPlayer (g_id g) pid s | None => Ok s end).
  { intros r <-. unfold fillGamesSequentially, withPlayer. by rewrite Hp, Ht. }
  split; [|split; [|split]].
  - intros g Hg. pose proof Hg as Hfind.
    apply sequentialTarget_Some in Hg as (Hin & Hopen & Hslot).
    apply notEndedNotStarted_flags in Hopen as [He Hs].
    repeat split; try done.
    + intros g' Hin' Hopen' Hslot'.
      apply find_Some_split in Hfind as (l1 & l2 & Hsplit & _ & Hl1).
      fold (sortedOpenGames localeCompare s) in Hsorted. rewrite Hsplit in Hsorted.
      assert (In g' (l1 ++ g :: l2)) as Hg'.
      { rewrite <- Hsplit. apply arraySort_In, filter_In. by split. }
      apply List.in_app_iff in Hg' as [Hg'|[<-|Hg']].
      * rewrite List.Forall_forall in Hl1. specialize (Hl1 g' Hg'). congruence.
      * destruct (Htotal g g); done.
      * apply StronglySorted_app_1_r, StronglySorted_inv in Hsorted as [_ Hall].
        rewrite List.Forall_forall in Hall. by apply Hall.
    + rewrite (Hfill _ Hfind). by eapply assignPlayer_unassigned.
  - split.
    + intros Hnone g Hin Hopen.
      eapply find_none in Hnone; [exact Hnone|]. apply arraySort_In, filter_In. by split.
    + intros Hall. unfold sequentialTarget.
      destruct (List.find _ _) as [g|] eqn:E; [|done].
      apply find_some in E as [Hin Hslot]. apply arraySort_In, filter_In in Hin as [Hin Hopen].
      rewrite (Hall g Hin Hopen) in Hslot. done.
  - intros Hnone. by rewrite (Hfill _ Hnone).
  - intros Hcreated. unfold sequentialTarget, sortedOpenGames.
    rewrite arraySort_already_sorted; [apply find_filter_filter|].
    by apply StronglySorted_filter.
Qed.

Lemma sequential_fill_witness :
  (∀ a b : Game, (codeCompare (g_id a) (g_id b) <= 0)%Z ∨
                 (codeCompare (g_id b) (g_id a) <= 0)%Z) ∧
  (∀ a b c : Game, (codeCompare (g_id a) (g_id b) <= 0)%Z →
                   (codeCompare (g_id b) (g_id c) <= 0)%Z →
                   (codeCompare (g_id a) (g_id c) <= 0)%Z) ∧
  distinctIds lobby ∧
  lookupPlayer "b" lobby = Some (newPlayer "b") ∧
  truthy (p_gameID (newPlayer "b")) = false ∧
  fillGamesSequentially codeCompare "b" lobby =
    Ok (seated (set_players {["a"]} (newGame "g1" 2)) "b" lobby).
Proof.
  assert (Htotal : ∀ a b : Game, (codeCompare (g_id a) (g_id b) <= 0)%Z ∨
                                 (codeCompare (g_id b) (g_id a) <= 0)%Z)
    by (intros a b; apply codeCompare_total).
  assert (Htrans : ∀ a b c : Game, (codeCompare (g_id a) (g_id b) <= 0)%Z →
                                   (codeCompare (g_id b) (g_id c) <= 0)%Z →
                                   (codeCompare (g_id a) (g_id c) <= 0)%Z)
    by (intros a b c; apply codeCompare_trans).
  split; [exact Htotal|]. split; [exact Htrans|].
  split; [exact lobby_distinct|]. split; [reflexivity|]. split; [reflexivity|].
  destruct (sequential_fill codeCompare "b" (newPlayer "b") lobby
              Htotal Htrans lobby_distinct eq_refl eq_refl)
    as (_ & _ & Hpick & _).
  destruct (Hpick (set_players {["a"]} (newGame "g1" 2)) eq_refl)
    as (_ & _ & _ & _ & _ & Hrun).
  exact Hrun.
Defined.

Example sequential_fill_scenario :
  ∃ s3,
    (s1 ← fillGamesSequentially codeCompare "a" oneGameOfThree;
     s2 ← fillGamesSequentially codeCompare "b" s1;
     fillGamesSequentially codeCompare "c" s2) = Ok s3 ∧
    List.map g_players (games s3) = [ {["a"; "b"; "c"]} ] ∧
    fillGamesSequentially codeCompare "d" s3 = Ok s3 ∧
    p_gameID <$> lookupPlayer "d" s3 = Some None.
Proof. eexists. repeat split; by vm_compute. Qed.

(** ** C5: attribute match *)

Lemma matchingGames_In level s g :
  In g (matchingGames level s) ↔
  In g (games s) ∧ g_hasEnded g = false ∧ g_hasStarted g = false ∧
  g_requiredSkillLevel g = level.
Proof.
  unfold matchingGames. rewrite !filter_In, bool_decide_eq_true, notEndedNotStarted_flags.
  tauto.
Qed.

(** C5: for a player without a game, in a store whose games have distinct
    ids: the games considered are exactly those that have neither ended
    nor started and whose [requiredSkillLevel] equals the player's
    [skillLevel]; the player is assigned to the first of them, in the
    store's (creation) order, that has an open slot; when no game matches
    or every matching game is full, the store is left as it is. *)
Theorem attribute_match pid p s :
  distinctIds s →
  lookupPlayer pid s = Some p → truthy (p_gameID p) = false →
  (∀ g, In g (matchingGames (p_skillLevel p) s) ↔
     In g (games s) ∧ g_hasEnded g = false ∧ g_hasStarted g = false ∧
     g_requiredSkillLevel g = p_skillLevel p) ∧
  attributeTarget p s =
    List.find (λ g, notEndedNotStarted g &&
                    (bool_decide (g_requiredSkillLevel g = p_skillLevel p) &&
                     hasOpenSlot g)) (games s) ∧
  (∀ g, attributeTarget p s = Some g →
     In g (games s) ∧ g_requiredSkillLevel g = p_skillLevel p ∧
     hasOpenSlot g = true ∧
     attributeBasedMatching pid s = Ok (seated g pid s)) ∧
  (attributeTarget p s = None ↔
     ∀ g, In g (matchingGames (p_skillLevel p) s) → hasOpenSlot g = false) ∧
  (attributeTarget p s = None → attributeBasedMatching pid s = Ok s).
Proof.
  intros Hd Hp Ht.
  assert (Hrun : ∀ r, attributeTarget p s = r →
            attributeBasedMatching pid s =
            match r with Some g => assignPlayer (g_id g) pid s | None => Ok s end).
  { intros r <-. unfold attributeBasedMatching, withPlayer. by rewrite Hp, Ht. }
  split; [intros g; apply matchingGames_In|].
  split; [unfold attributeTarget, matchingGames; by rewrite !find_filter_filter|].
  split; [|split].
  - intros g Hg. rewrite (Hrun _ Hg).
    apply attributeTarget_Some in Hg as (Hin & Hopen & Hslot & Hlevel).
    apply notEndedNotStarted_flags in Hopen as [He _].
    repeat split; try done. by eapply assignPlayer_unassigned.
  - unfold attributeTarget. split.
    + intros Hnone g Hg. by eapply find_none in Hnone.
    + intros Hall. destruct (List.find _ _) as [g|] eqn:E; [|done].
      apply find_some in E as [Hin Hslot]. by rewrite (Hall g Hin) in Hslot.
  - intros Hnone. by rewrite (Hrun _ Hnone).
Qed.

Lemma attribute_match_witness :
  distinctIds noviceThenExpert ∧
  lookupPlayer "e" noviceThenExpert = Some expert ∧
  truthy (p_gameID expert) = false ∧
  attributeBasedMatching "e" noviceThenExpert = Ok (seated expertGame "e" noviceThenExpert) ∧
  List.map (λ g, (g_id g, g_players g)) (games (seated expertGame "e" noviceThenExpert)) =
    [("g1", ∅); ("g2", {["e"]})].
Proof.
  assert (distinctIds noviceThenExpert) as Hd.
  { split; [apply (bool_decide_unpack _); by vm_compute|]. simpl. intuition discriminate. }
  split; [exact Hd|]. split; [reflexivity|]. split; [reflexivity|].
  destruct (attribute_match "e" expert noviceThenExpert Hd eq_refl eq_refl)
    as (_ & _ & Hpick & _).
  destruct (Hpick expertGame eq_refl) as (_ & _ & _ & Hrun).
  split; [exact Hrun|]. by vm_compute.
Defined.

(** ** C4: load-balanced random *)

Lemma mathMin_None xs : mathMin xs = None ↔ xs = [].
Proof.
  destruct xs as [|x xs]; simpl; [done|]. by destruct (mathMin xs).
Qed.

Lemma mathMin_Some xs m :
  mathMin xs = Some m → In m xs ∧ ∀ x, In x xs → m ≤ x.
Proof.
  revert m. induction xs as [|y xs IH]; simpl; [discriminate|].
  destruct (mathMin xs) as [m'|] eqn:E; intros m [= <-].
  - destruct (IH m' eq_refl) as [Hin Hle]. split.
    + destruct (Nat.min_spec y m') as [[_ ->]|[_ ->]]; auto.
    + intros x [<-|Hx]; [lia|]. specialize (Hle x Hx). lia.
  - apply mathMin_None in E as ->. split; [by left|].
    intros x [<-|[]]. lia.
Qed.

Lemma minPlayerCount_Some gs m :
  minPlayerCount gs = Some m →
  (∃ g, In g gs ∧ size (g_players g) = m) ∧
  ∀ g, In g gs → m ≤ size (g_players g).
Proof.
  intros H. apply mathMin_Some in H as [Hin Hle]. split.
  - apply List.in_map_iff in Hin as (g & Hg & Hin). eauto.
  - intros g Hg. apply Hle, List.in_map_iff. eauto.
Qed.

Lemma minPlayerCount_nonempty gs : gs ≠ [] → ∃ m, minPlayerCount gs = Some m.
Proof.
  intros Hne. unfold minPlayerCount.
  destruct (mathMin _) as [m|] eqn:E; [eauto|].
  apply mathMin_None in E. by destruct gs.
Qed.

Lemma underassignedGames_In gs m g :
  minPlayerCount gs = Some m →
  In g (underassignedGames gs) ↔ In g gs ∧ size (g_players g) = m.
Proof.
  intros Hm. unfold underassignedGames.
  rewrite filter_In, bool_decide_eq_true, Hm. split; intros [? ?]; split; congruence.
Qed.

(** [Math.floor] *)
Lemma Qfloor_eq (x : Q) (z : Z) :
  Qfloor x = z ↔ (inject_Z z <= x)%Q ∧ (x < inject_Z (z + 1))%Q.
Proof.
  split.
  - intros <-. split; [apply Qfloor_le|apply Qlt_floor].
  - intros [Hlo Hhi].
    apply Qfloor_resp_le in Hlo. rewrite Qfloor_Z in Hlo.
    assert (inject_Z (Qfloor x) < inject_Z (z + 1))%Q as Hlt
      by (eapply Qle_lt_trans; [apply Qfloor_le|exact Hhi]).
    rewrite <- Zlt_Qlt in Hlt. lia.
Qed.

(** The draw [u] of [Math.random()] is in [0, 1): the index is the [i]
    with [i <= u * n < i + 1], so every index below [n] is hit by the draws
    of one interval [i/n, (i+1)/n), all of the same length. *)
Lemma randomIndex_spec (u : Q) (n i : nat) :
  (0 <= u)%Q →
  randomIndex u n = i ↔
  (inject_Z (Z.of_nat i) <= u * inject_Z (Z.of_nat n))%Q ∧
  (u * inject_Z (Z.of_nat n) < inject_Z (Z.of_nat i + 1))%Q.
Proof.
  intros Hu. rewrite <- Qfloor_eq. unfold randomIndex.
  assert (0 <= Qfloor (u * inject_Z (Z.of_nat n)))%Z as Hpos.
  { rewrite <- (Qfloor_Z 0). apply Qfloor_resp_le.
    apply Qmult_le_0_compat; [exact Hu|]. rewrite <- (Zle_Qle 0). lia. }
  lia.
Qed.

Lemma randomIndex_lt (u : Q) (n : nat) :
  (0 <= u)%Q → (u < 1)%Q → 0 < n → randomIndex u n < n.
Proof.
  intros Hu Hu1 Hn.
  destruct (randomIndex u n) as [|k] eqn:E; [lia|].
  apply randomIndex_spec in E as [Hlo _]; [|exact Hu].
  assert (u * inject_Z (Z.of_nat n) < inject_Z (Z.of_nat n))%Q as Hhi.
  { rewrite <- (Qmult_1_l (inject_Z (Z.of_nat n))) at 2.
    apply Qmult_lt_compat_r; [|exact Hu1]. rewrite <- (Zlt_Qlt 0). lia. }
  pose proof (Qle_lt_trans _ _ _ Hlo Hhi) as Hlt.
  rewrite <- Zlt_Qlt in Hlt. lia.
Qed.

Lemma seated_games g pid s :
  games (seated g pid s) =
  List.map (λ x, if bool_decide (g_id x = g_id g)
                 then set_players (g_players x ∪ {[pid]}) x else x) (games s).
Proof. reflexivity. Qed.








(** ** C7: what a strategy's choice depends on *)

Lemma assignPlayer_assigned gid pid s s' :
  distinctIds s → assignPlayer gid pid s = Ok s' →
  ∃ p', lookupPlayer pid s' = Some p' ∧ p_gameID p' = Some gid ∧
        truthy (p_gameID p') = true.
Proof.
  intros [_ Hd] H. pose proof (lookupPlayer_assigned _ _ _ _ pid H) as Hlook.
  apply assignPlayer_Ok in H as (g & p & Hg & _ & Hp & _).
  rewrite bool_decide_eq_true_2, Hp in Hlook by done.
  eexists. split; [exact Hlook|]. split; [done|]. simpl.
  apply negb_true_iff, bool_decide_eq_false. intros ->.
  apply lookupGame_Some in Hg as [Hid Hin]. apply Hd. rewrite <- Hid.
  by apply List.in_map.
Qed.

(** C7, refuted as stated: the choice of "random assignment with
    balancing" is not a function of the participant and the open sessions.
    On one and the same store, two runs whose [Math.random()] draws differ
    choose different games for the same player. *)
Lemma balanced_choice_depends_on_draw :
  balancedTarget 0 twoGamesOfTwo = Some (newGame "g1" 2) ∧
  balancedTarget (1 # 2) twoGamesOfTwo = Some (newGame "g2" 2) ∧
  randomAssignmentWithBalancing 0 "a" twoGamesOfTwo ≠
  randomAssignmentWithBalancing (1 # 2) "a" twoGamesOfTwo.
Proof.
  split; [reflexivity|]. split; [reflexivity|].
  intros H.
  assert (List.map (λ g, size (g_players g))
            (match randomAssignmentWithBalancing 0 "a" twoGamesOfTwo with
             | Ok s => games s | Failed _ => [] end) = [1; 0]) as H1 by (by vm_compute).
  rewrite H in H1. by vm_compute in H1.
Qed.

(** C7, as amended: the game chosen by sequential fill is a function of
    the games that have neither ended nor started; the one chosen by
    attribute matching, of these games and the player's [skillLevel]; the
    one chosen by random assignment with balancing, of these games and the
    draw of [Math.random()].  Nothing else in the store (other players,
    batches, games that started or ended) has a part in the choice.  A
    handler run again on the store it produced changes nothing. *)
Theorem strategy_choice_depends_on_inputs localeCompare :
  (∀ s1 s2,
     List.filter notEndedNotStarted (games s1) = List.filter notEndedNotStarted (games s2) →
     sequentialTarget localeCompare s1 = sequentialTarget localeCompare s2) ∧
  (∀ p1 p2 s1 s2,
     p_skillLevel p1 = p_skillLevel p2 →
     List.filter notEndedNotStarted (games s1) = List.filter notEndedNotStarted (games s2) →
     attributeTarget p1 s1 = attributeTarget p2 s2) ∧
  (∀ u s1 s2,
     List.filter notEndedNotStarted (games s1) = List.filter notEndedNotStarted (games s2) →
     balancedTarget u s1 = balancedTarget u s2) ∧
  (∀ pid s s', distinctIds s →
     fillGamesSequentially localeCompare pid s = Ok s' →
     fillGamesSequentially localeCompare pid s' = Ok s') ∧
  (∀ pid s s', distinctIds s →
     attributeBasedMatching pid s = Ok s' → attributeBasedMatching pid s' = Ok s') ∧
  (∀ u pid s s', distinctIds s →
     randomAssignmentWithBalancing u pid s = Ok s' →
     randomAssignmentWithBalancing u pid s' = Ok s').
Proof.
  split; [|split; [|split; [|split; [|split]]]].
  - intros s1 s2 E. unfold sequentialTarget, sortedOpenGames. by rewrite E.
  - intros p1 p2 s1 s2 El E. unfold attributeTarget, matchingGames. by rewrite El, E.
  - intros u s1 s2 E. unfold balancedTarget. by rewrite E.
  - intros pid s s' Hd H. pose proof H as H0.
    apply withPlayer_Ok in H as (p & Hp & H).
    destruct (truthy (p_gameID p)) eqn:Ht; [congruence|].
    destruct (sequentialTarget localeCompare s) as [g|] eqn:E; [|congruence].
    destruct (assignPlayer_assigned _ _ _ _ Hd H) as (p' & Hp' & _ & Ht').
    unfold fillGamesSequentially, withPlayer. by rewrite Hp', Ht'.
  - intros pid s s' Hd H. pose proof H as H0.
    apply withPlayer_Ok in H as (p & Hp & H).
    destruct (truthy (p_gameID p)) eqn:Ht; [congruence|].
    destruct (attributeTarget p s) as [g|] eqn:E; [|congruence].
    destruct (assignPlayer_assigned _ _ _ _ Hd H) as (p' & Hp' & _ & Ht').
    unfold attributeBasedMatching, withPlayer. by rewrite Hp', Ht'.
  - intros u pid s s' Hd H. pose proof H as H0.
    apply withPlayer_Ok in H as (p & Hp & H).
    destruct (truthy (p_gameID p)) eqn:Ht; [congruence|].
    destruct (balancedTarget u s) as [g|] eqn:E; [|congruence].
    destruct (assignPlayer_assigned _ _ _ _ Hd H) as (p' & Hp' & _ & Ht').
    unfold randomAssignmentWithBalancing, withPlayer. by rewrite Hp', Ht'.
Qed.

Lemma strategy_choice_depends_on_inputs_witness :
  List.filter notEndedNotStarted (games lobby) =
    List.filter notEndedNotStarted (games lobbyElsewhere) ∧
  distinctIds lobby ∧
  sequentialTarget codeCompare lobby = sequentialTarget codeCompare lobbyElsewhere ∧
  attributeTarget (newPlayer "b") lobby = attributeTarget (newPlayer "z") lobbyElsewhere ∧
  balancedTarget (1 # 2) lobby = balancedTarget (1 # 2) lobbyElsewhere ∧
  fillGamesSequentially codeCompare "b"
    (seated (set_players {["a"]} (newGame "g1" 2)) "b" lobby) =
    Ok (seated (set_players {["a"]} (newGame "g1" 2)) "b" lobby).
Proof.
  destruct (strategy_choice_depends_on_inputs codeCompare)
    as (Hseq & Hattr & Hbal & Hfill & _).
  assert (List.filter notEndedNotStarted (games lobby) =
          List.filter notEndedNotStarted (games lobbyElsewhere)) as E by reflexivity.
  split; [exact E|]. split; [exact lobby_distinct|].
  split; [exact (Hseq _ _ E)|].
  split; [exact (Hattr (newPlayer "b") (newPlayer "z") _ _ eq_refl E)|].
  split; [exact (Hbal _ _ _ E)|].
  apply (Hfill "b" lobby _ lobby_distinct). reflexivity.
Defined.

(** ** C9: deferral in the conditional assignment *)

(** C9, refuted as stated: a player who meets the entry conditions and
    finds no game with an open slot is deferred without any waiting reason
    being recorded; the handler writes nothing at all. *)
Lemma deferred_without_waiting_reason :
  List.find hasOpenSlot (List.filter notEndedNotStarted (games fullHouse)) = None ∧
  conditionalAssignment "r" fullHouse = Ok fullHouse ∧
  (p_waitingReason <$> lookupPlayer "r" fullHouse) = Some None ∧
  (p_gameID <$> lookupPlayer "r" fullHouse) = Some None.
Proof. repeat split; by vm_compute. Qed.

(** C9, as amended: for a player without a game, (1) when the survey is
    not complete or the terms are not agreed, the handler writes the
    waiting message to the player's [waitingReason] and nothing else: the
    games, the batches, every other player and every other attribute of the
    player, its [gameID] included, are as before; (2) when the entry
    conditions are met and no game has an open slot, the handler changes
    nothing, [waitingReason] included; (3) when they are met and a game has
    an open slot, the player is assigned to the first such game and its
    [waitingReason] is set to null. *)
Theorem conditional_assignment_frame pid p s :
  distinctIds s →
  lookupPlayer pid s = Some p → truthy (p_gameID p) = false →
  let target := List.find hasOpenSlot (List.filter notEndedNotStarted (games s)) in
  (p_surveyComplete p = false ∨ p_termsAgreed p = false →
     conditionalAssignment pid s =
       Ok (updatePlayer pid (set_waitingReason (Some waitingMessage)) s) ∧
     games (updatePlayer pid (set_waitingReason (Some waitingMessage)) s) = games s ∧
     batches (updatePlayer pid (set_waitingReason (Some waitingMessage)) s) = batches s ∧
     (∀ q, q ≠ pid →
        lookupPlayer q (updatePlayer pid (set_waitingReason (Some waitingMessage)) s) =
        lookupPlayer q s) ∧
     lookupPlayer pid (updatePlayer pid (set_waitingReason (Some waitingMessage)) s) =
       Some (set_waitingReason (Some waitingMessage) p) ∧
     p_gameID (set_waitingReason (Some waitingMessage) p) = p_gameID p) ∧
  (p_surveyComplete p = true → p_termsAgreed p = true → target = None →
     conditionalAssignment pid s = Ok s) ∧
  (∀ g, p_surveyComplete p = true → p_termsAgreed p = true → target = Some g →
     conditionalAssignment pid s =
       Ok (updatePlayer pid (set_waitingReason None) (seated g pid s)) ∧
     ∃ p', lookupPlayer pid (updatePlayer pid (set_waitingReason None) (seated g pid s))
             = Some p' ∧
           p_waitingReason p' = None ∧ p_gameID p' = Some (g_id g)).
Proof.
  intros Hd Hp Ht target. split; [|split].
  - intros Hgate.
    assert (negb (p_surveyComplete p) || negb (p_termsAgreed p) = true) as Hg.
    { destruct Hgate as [-> | ->]; [done|]. by rewrite orb_true_r. }
    split; [unfold conditionalAssignment, withPlayer; by rewrite Hp, Ht, Hg|].
    split; [done|]. split; [done|]. split; [|split; [|done]].
    + intros q Hq. rewrite lookupPlayer_update by done.
      by rewrite bool_decide_eq_false_2.
    + rewrite lookupPlayer_update by done.
      by rewrite bool_decide_eq_true_2, Hp.
  - intros Hs Ha Hnone. unfold conditionalAssignment, withPlayer.
    rewrite Hp, Ht, Hs, Ha. simpl. fold target. by rewrite Hnone.
  - intros g Hs Ha Hsome. split.
    + unfold conditionalAssignment, withPlayer.
      rewrite Hp, Ht, Hs, Ha. simpl. fold target. rewrite Hsome.
      apply find_some in Hsome as [Hin _]. apply filter_In in Hin as [Hin Ho].
      apply notEndedNotStarted_flags in Ho as [He _].
      by rewrite (assignPlayer_unassigned g pid p s Hd Hin He Hp Ht).
    + unfold seated. rewrite !lookupPlayer_update by done.
      rewrite bool_decide_eq_true_2 by done. rewrite lookupPlayer_updateGame, Hp.
      simpl. eexists. by repeat split.
Qed.

(** A player who has not yet completed the survey, in the [lobby]. *)
Lemma conditional_assignment_frame_witness :
  distinctIds lobby ∧
  lookupPlayer "b" lobby = Some (newPlayer "b") ∧
  truthy (p_gameID (newPlayer "b")) = false ∧
  (p_surveyComplete (newPlayer "b") = false ∨ p_termsAgreed (newPlayer "b") = false) ∧
  conditionalAssignment "b" lobby =
    Ok (updatePlayer "b" (set_waitingReason (Some waitingMessage)) lobby).
Proof.
  split; [exact lobby_distinct|]. split; [reflexivity|]. split; [reflexivity|].
  split; [by left|].
  destruct (conditional_assignment_frame "b" (newPlayer "b") lobby
              lobby_distinct eq_refl eq_refl) as (Hdefer & _).
  exact (proj1 (Hdefer (or_introl eq_refl))).
Defined.

(** ** C10: replay *)



(** ** C6: skill-based matchmaking *)

(** *** The brackets *)

Lemma slices_count (len n : nat) :
  0 < n → 0 < len → (len + n - 1) / n = S ((len - n + n - 1) / n).
Proof.
  intros Hn Hl. destruct (le_lt_dec len n).
  - replace (len - n) with 0 by lia. simpl.
    rewrite (Nat.div_small (n - 1) n) by lia.
    assert (len + n - 1 = (len - 1) + 1 * n) as -> by lia.
    rewrite Nat.div_add by lia. rewrite Nat.div_small by lia. lia.
  - assert (len + n - 1 = (len - n + n - 1) + 1 * n) as -> by lia.
    rewrite Nat.div_add by lia. lia.
Qed.

Lemma slices_nil {A} n : 0 < n → slices n (@nil A) = [].
Proof.
  intros Hn. unfold slices. simpl. by rewrite (Nat.div_small (n - 1) n) by lia.
Qed.

(** The first bracket is the first [n] elements; the others are the
    brackets of the rest. *)
Lemma slices_cons {A} n (l : list A) :
  0 < n → l ≠ [] → slices n l = take n l :: slices n (drop n l).
Proof.
  intros Hn Hl. unfold slices.
  rewrite slices_count; [|done|destruct l; simpl; [done|lia]].
  rewrite length_drop. simpl. f_equal.
  rewrite <- seq_shift, List.map_map. apply List.map_ext. intros k.
  by rewrite drop_drop.
Qed.

Lemma concat_slices {A} n (l : list A) : 0 < n → concat (slices n l) = l.
Proof.
  intros Hn. remember (length l) as len eqn:E. revert l E.
  induction len as [len IH] using lt_wf_ind. intros l ->.
  destruct l as [|x l]; [by rewrite slices_nil|].
  rewrite slices_cons by done. simpl concat.
  rewrite (IH (length (drop n (x :: l)))); [apply take_drop| |done].
  rewrite length_drop. simpl. lia.
Qed.



(** *** Players of the store *)

Lemma lookupPlayer_In s p :
  NoDup (List.map p_id (players s)) → In p (players s) →
  lookupPlayer (p_id p) s = Some p.
Proof.
  intros Hnd Hin. unfold lookupPlayer.
  destruct (List.find _ (players s)) as [p'|] eqn:E.
  - apply find_some in E as [Hin' Hid]. apply bool_decide_eq_true in Hid.
    f_equal. by eapply NoDup_map_inj_In.
  - eapply find_none in E; [|exact Hin]. by rewrite bool_decide_eq_false in E.
Qed.



Lemma sortedCandidates_In s p :
  In p (sortedCandidates s) ↔ In p (players s) ∧ ratedAndUnassigned p = true.
Proof. unfold sortedCandidates. by rewrite arraySort_In, filter_In. Qed.

Lemma sortedCandidates_NoDup s :
  NoDup (List.map p_id (players s)) → NoDup (List.map p_id (sortedCandidates s)).
Proof.
  intros Hnd. unfold sortedCandidates.
  rewrite <- (Permutation_map p_id (arraySort_perm compareRating _)).
  induction (players s) as [|p ps IH]; simpl in *; [constructor|].
  apply NoDup_cons in Hnd as [Hp Hnd].
  destruct (ratedAndUnassigned p); [|by apply IH]. simpl.
  apply NoDup_cons. split; [|by apply IH].
  intros Hin. apply Hp. apply list_elem_of_In, List.in_map_iff in Hin as (q & Hq & Hin).
  apply filter_In in Hin as [Hin _].
  apply list_elem_of_In, List.in_map_iff. eauto.
Qed.

(** *** One bracket *)

Lemma seated_distinct g pid s : distinctIds s → distinctIds (seated g pid s).
Proof.
  intros Hd. unfold distinctIds, gameIds. rewrite seated_games, List.map_map.
  erewrite List.map_ext; [exact Hd|]. intros x. simpl. by case_bool_decide.
Qed.

Lemma lookupPlayer_seated g pid s q :
  lookupPlayer q (seated g pid s) =
  (if bool_decide (q = pid)
   then set_assignment (Some (g_id g)) (Some (g_treatment g)) (g_treatmentName g)
          <$> lookupPlayer q s
   else lookupPlayer q s).
Proof. unfold seated. by rewrite lookupPlayer_update, lookupPlayer_updateGame. Qed.

Lemma joined_nil gid x : joined gid [] x = x.
Proof.
  unfold joined. case_bool_decide; [|done]. simpl.
  rewrite (right_id_L ∅ (∪)). by destruct x.
Qed.

Lemma joined_cons gid pid ids x :
  joined gid ids
    (if bool_decide (g_id x = gid) then set_players (g_players x ∪ {[pid]}) x else x)
  = joined gid (pid :: ids) x.
Proof.
  unfold joined. destruct (decide (g_id x = gid)) as [E|E].
  - rewrite (bool_decide_eq_true_2 _ E). simpl.
    rewrite (bool_decide_eq_true_2 _ E). unfold set_players. simpl.
    f_equal. set_solver.
  - by rewrite !(bool_decide_eq_false_2 _ E).
Qed.

Lemma assignBracket_spec gid tr tn bracket : ∀ t g,
  distinctIds t → In g (games t) → g_id g = gid → g_hasEnded g = false →
  g_treatment g = tr → g_treatmentName g = tn →
  NoDup (List.map p_id bracket) →
  (∀ p, In p bracket →
     ∃ q, lookupPlayer (p_id p) t = Some q ∧ truthy (p_gameID q) = false) →
  ∃ t', assignBracket gid bracket t = Ok t' ∧
        games t' = List.map (joined gid (List.map p_id bracket)) (games t) ∧
        batches t' = batches t ∧
        (∀ q, In q (List.map p_id bracket) →
           lookupPlayer q t' = set_assignment (Some gid) (Some tr) tn <$> lookupPlayer q t) ∧
        (∀ q, ¬ In q (List.map p_id bracket) → lookupPlayer q t' = lookupPlayer q t).
Proof.
  induction bracket as [|p bracket IH]; intros t g Hd Hin Hid He Htr Htn Hnd Hfree.
  - exists t. split; [done|]. split.
    { simpl. rewrite (List.map_ext _ id); [by rewrite List.map_id|]. apply joined_nil. }
    by repeat split.
  - simpl in Hnd. apply NoDup_cons in Hnd as [Hp Hnd].
    destruct (Hfree p (or_introl eq_refl)) as (q0 & Hq0 & Ht0).
    pose proof (assignPlayer_unassigned g (p_id p) q0 t Hd Hin He Hq0 Ht0) as Ha.
    rewrite Hid in Ha.
    set (g1 := set_players (g_players g ∪ {[p_id p]}) g).
    destruct (IH (seated g (p_id p) t) g1) as (t' & Hrun & Hgames & Hbatches & Hin' & Hout').
    + by apply seated_distinct.
    + rewrite seated_games. apply List.in_map_iff. exists g.
      by rewrite bool_decide_eq_true_2.
    + done.
    + done.
    + done.
    + done.
    + done.
    + intros p' Hp'. rewrite lookupPlayer_seated.
      rewrite bool_decide_eq_false_2; [by apply Hfree; right|].
      intros E. apply Hp. rewrite <- E. by apply list_elem_of_In, List.in_map.
    + exists t'. split.
      { unfold assignBracket in *. simpl.
        change (Ok t ≫= λ s', assignPlayer gid (p_id p) s')
          with (assignPlayer gid (p_id p) t).
        by rewrite Ha. }
      split.
      { rewrite Hgames, seated_games, List.map_map. apply List.map_ext.
        intros x. simpl. rewrite Hid. apply joined_cons. }
      split; [done|]. split.
      * intros q [<-|Hq].
        -- rewrite Hout'; [|by rewrite <- list_elem_of_In].
           rewrite lookupPlayer_seated, bool_decide_eq_true_2 by done.
           by rewrite Hid, Htr, Htn.
        -- rewrite (Hin' q Hq), lookupPlayer_seated.
           rewrite bool_decide_eq_false_2; [done|].
           intros ->. by apply Hp, list_elem_of_In.
      * intros q Hq. simpl in Hq.
        rewrite Hout' by tauto. rewrite lookupPlayer_seated.
        rewrite bool_decide_eq_false_2; [done|]. intros ->. tauto.
Qed.

Section Brackets.

Variable newGameID : list string → string.
Hypothesis newGameID_fresh : ∀ used, ¬ In (newGameID used) used.
Hypothesis newGameID_named : ∀ used, newGameID used ≠ EmptyString.

Lemma placeBracket_complete batch bracket t :
  distinctIds t → requiredPlayers ≤ length bracket →
  NoDup (List.map p_id bracket) →
  (∀ p, In p bracket →
     ∃ q, lookupPlayer (p_id p) t = Some q ∧ truthy (p_gameID q) = false) →
  ∃ t' g,
    placeBracket newGameID batch bracket t = Ok t' ∧
    distinctIds t' ∧
    games t' = games t ++ [g] ∧
    batches t' = batches t ∧
    g_id g = newGameID (gameIds t) ∧
    g_players g = list_to_set (List.map p_id bracket) ∧
    g_treatment g = {| playerCount := Z.of_nat requiredPlayers |} ∧
    g_hasEnded g = false ∧ g_hasStarted g = false ∧
    (∀ q, In q (List.map p_id bracket) →
       lookupPlayer q t' =
       set_assignment (Some (g_id g)) (Some (g_treatment g)) None <$> lookupPlayer q t) ∧
    (∀ q, ¬ In q (List.map p_id bracket) → lookupPlayer q t' = lookupPlayer q t).
Proof.
  intros Hd Hlen Hnd Hfree. unfold placeBracket.
  apply Nat.ltb_ge in Hlen. rewrite Hlen.
  set (t1 := (addGame newGameID batch {| playerCount := Z.of_nat requiredPlayers |}
                (Some (averageRating bracket)) t).2).
  set (gid := newGameID (List.map g_id (games t))).
  set (g0 := {| g_id := gid; g_batchID := Some (b_id batch);
                g_hasStarted := false; g_hasEnded := false;
                g_treatment := {| playerCount := Z.of_nat requiredPlayers |};
                g_treatmentName := None; g_requiredSkillLevel := None;
                g_averageSkillRating := Some (averageRating bracket);
                g_players := ∅ |}).
  destruct (assignBracket_spec gid {| playerCount := Z.of_nat requiredPlayers |} None
              bracket t1 g0) as (t' & Hrun & Hgames & Hbatches & Hin & Hout);
    try done.
  { by apply addGame_distinct. }
  { simpl. apply List.in_app_iff. right. by left. }
  exists t', (set_players (list_to_set (List.map p_id bracket)) g0).
  split; [exact Hrun|]. split.
  { unfold distinctIds, gameIds. rewrite Hgames, List.map_map.
    erewrite List.map_ext; [by apply (addGame_distinct newGameID)|].
    intros x. unfold joined. by case_bool_decide. }
  split.
  { rewrite Hgames. simpl. rewrite List.map_app. f_equal.
    - rewrite <- (List.map_id (games t)) at 2. apply List.map_ext_in.
      intros x Hx. unfold joined. rewrite bool_decide_eq_false_2; [done|].
      intros E. apply (newGameID_fresh (gameIds t)).
      change (In gid (gameIds t)). rewrite <- E. by apply List.in_map.
    - simpl. unfold joined. simpl. rewrite bool_decide_eq_true_2 by done.
      unfold set_players. simpl. f_equal. f_equal. set_solver. }
  by repeat split.
Qed.

Lemma placeBrackets_spec batch brackets : ∀ t,
  distinctIds t →
  NoDup (List.map p_id (concat brackets)) →
  List.Forall (λ b, length b ≤ requiredPlayers) brackets →
  (∀ p, In p (concat brackets) →
     ∃ q, lookupPlayer (p_id p) t = Some q ∧ truthy (p_gameID q) = false) →
  ∃ t' created,
    foldl (λ acc bracket, s' ← acc; placeBracket newGameID batch bracket s') (Ok t) brackets
      = Ok t' ∧
    games t' = games t ++ created ∧
    batches t' = batches t ∧
    Forall2 (formedFrom t') created
      (List.filter (λ b, length b =? requiredPlayers) brackets) ∧
    (∀ q, (∀ b, In b brackets → length b = requiredPlayers →
                ¬ In q (List.map p_id b)) →
          lookupPlayer q t' = lookupPlayer q t).
Proof.
  induction brackets as [|b bs IH]; intros t Hd Hnd Hlen Hfree.
  - exists t, []. simpl. rewrite List.app_nil_r. by repeat split.
  - simpl in Hnd. rewrite List.map_app in Hnd.
    apply NoDup_app in Hnd as (Hnd_b & Hdis & Hnd_bs).
    inversion Hlen as [|? ? Hb Hbs]; subst.
    assert (Hdis' : ∀ p b', In p b → In b' bs → ¬ In (p_id p) (List.map p_id b')).
    { intros p b' Hp Hb' Hin. apply (Hdis (p_id p)).
      - by apply list_elem_of_In, List.in_map.
      - apply list_elem_of_In. apply List.in_map_iff in Hin as (p' & E & Hp').
        apply List.in_map_iff. exists p'. split; [done|]. apply in_concat. eauto. }
    simpl foldl.
    change (Ok t ≫= λ s', placeBracket newGameID batch b s')
      with (placeBracket newGameID batch b t).
    destruct (Nat.eqb_spec (length b) requiredPlayers) as [Efull|Eshort].
    + destruct (placeBracket_complete batch b t) as
        (t1 & g & Hrun1 & Hd1 & Hgames1 & Hbatches1 & Hgid & Hmem & Htr & He & Hs
            & Hin1 & Hout1); [done|lia|done| |].
      { intros p Hp. apply Hfree. simpl. apply List.in_app_iff. by left. }
      destruct (IH t1) as (t' & created & Hrun & Hgames & Hbatches & Hformed & Hout);
        [done|done|done| |].
      { intros p Hp. rewrite Hout1.
        - apply Hfree. simpl. apply List.in_app_iff. by right.
        - intros Hin. apply (Hdis (p_id p)); [by apply list_elem_of_In|].
          by apply list_elem_of_In, List.in_map. }
      exists t', (g :: created). rewrite Hrun1. split; [exact Hrun|].
      split; [by rewrite Hgames, Hgames1, <- List.app_assoc|].
      split; [congruence|]. split.
      * simpl. rewrite (proj2 (Nat.eqb_eq _ _) Efull). constructor; [|exact Hformed].
        unfold formedFrom. repeat split; try done.
        -- rewrite Hmem, size_list_to_set by done. by rewrite length_map.
        -- intros q Hq. rewrite Hout.
           ++ rewrite Hin1 by (by apply List.in_map).
              destruct (Hfree q) as (q0 & -> & _); [|done].
              simpl. apply List.in_app_iff. by left.
           ++ intros b' Hb' _. by apply Hdis'.
      * intros q Hq. rewrite Hout.
        -- apply Hout1. apply Hq; [by left|done].
        -- intros b' Hb'. apply Hq. by right.
    + assert (placeBracket newGameID batch b t = Ok t) as ->.
      { unfold placeBracket.
        rewrite (proj2 (Nat.ltb_lt (length b) requiredPlayers)); [done|lia]. }
      destruct (IH t) as (t' & created & Hrun & Hgames & Hbatches & Hformed & Hout);
        [done|done|done| |].
      { intros p Hp. apply Hfree. simpl. apply List.in_app_iff. by right. }
      exists t', created. split; [exact Hrun|]. split; [done|]. split; [done|]. split.
      * simpl. by rewrite (proj2 (Nat.eqb_neq _ _) Eshort).
      * intros q Hq. apply Hout. intros b' Hb'. apply Hq. by right.
Qed.

End Brackets.




Example three_remain_deferred :
  skillBasedMatchmaking longerID "p3" waitingThree = Ok waitingThree.
Proof. reflexivity. Qed.

Example fourth_completes_the_bracket :
  ∃ s', skillBasedMatchmaking longerID "p4" waitingFour = Ok s' ∧
        List.map (λ g, (g_id g, g_players g, playerCount (g_treatment g))) (games s') =
          [("g", {["p1"; "p2"; "p3"; "p4"]}, 4%Z)] ∧
        List.map (λ q, (p_id q, p_gameID q)) (players s') =
          [("p1", Some "g"); ("p2", Some "g"); ("p3", Some "g"); ("p4", Some "g")].
Proof. eexists. repeat split; by vm_compute. Qed.


(** * Further properties of the handlers *)

(** ** Frame of the handlers *)

Lemma touchesOnly_refl pid s : touchesOnly pid s s.
Proof. by repeat split. Qed.

Lemma touchesOnly_trans pid s1 s2 s3 :
  touchesOnly pid s1 s2 → touchesOnly pid s2 s3 → touchesOnly pid s1 s3.
Proof.
  intros (Hb1 & Hi1 & Hq1 & Hg1) (Hb2 & Hi2 & Hq2 & Hg2).
  split; [congruence|]. split; [congruence|]. split; [|congruence].
  intros q Hq. rewrite Hq2, Hq1; done.
Qed.

Lemma reseat_rest gid p x : set_players ∅ (reseat gid p x) = set_players ∅ x.
Proof.
  unfold reseat.
  destruct (truthy (p_gameID p) && bool_decide (p_gameID p = Some (g_id x)));
    simpl; destruct (bool_decide _); reflexivity.
Qed.

Lemma assignPlayer_touches gid pid s s' :
  assignPlayer gid pid s = Ok s' → touchesOnly pid s s'.
Proof.
  intros H. pose proof (assignPlayer_Ok _ _ _ _ H) as (g & p & _ & _ & _ & Hg & Hp & Hb).
  split; [done|]. split; [|split].
  - rewrite Hp, List.map_map. apply List.map_ext. intros q.
    by destruct (bool_decide _).
  - intros q Hq. rewrite (lookupPlayer_assigned _ _ _ _ q H).
    by rewrite bool_decide_eq_false_2.
  - rewrite Hg, List.map_map. apply List.map_ext. intros x. apply reseat_rest.
Qed.

Lemma updatePlayer_touches pid f s :
  (∀ p, p_id (f p) = p_id p) → touchesOnly pid s (updatePlayer pid f s).
Proof.
  intros Hf. split; [done|]. split; [|split; [|done]].
  - simpl. rewrite List.map_map. apply List.map_ext. intros q.
    destruct (bool_decide _); [apply Hf|done].
  - intros q Hq. rewrite lookupPlayer_update by done.
    by rewrite bool_decide_eq_false_2.
Qed.

Lemma basicSetup_touches pid s s' : basicSetup pid s = Ok s' → touchesOnly pid s s'.
Proof.
  unfold basicSetup. destruct (availableGames s) as [|g rest]; intros H.
  - injection H as <-. apply touchesOnly_refl.
  - by eapply assignPlayer_touches.
Qed.

Lemma fillGamesSequentially_touches localeCompare pid s s' :
  fillGamesSequentially localeCompare pid s = Ok s' → touchesOnly pid s s'.
Proof.
  intros H. apply withPlayer_Ok in H as (p & _ & H).
  destruct (truthy (p_gameID p)); [injection H as <-; apply touchesOnly_refl|].
  destruct (sequentialTarget localeCompare s) as [g|].
  - by eapply assignPlayer_touches.
  - injection H as <-. apply touchesOnly_refl.
Qed.

Lemma randomAssignmentWithBalancing_touches u pid s s' :
  randomAssignmentWithBalancing u pid s = Ok s' → touchesOnly pid s s'.
Proof.
  intros H. apply withPlayer_Ok in H as (p & _ & H).
  destruct (truthy (p_gameID p)); [injection H as <-; apply touchesOnly_refl|].
  destruct (balancedTarget u s) as [g|].
  - by eapply assignPlayer_touches.
  - injection H as <-. apply touchesOnly_refl.
Qed.

Lemma attributeBasedMatching_touches pid s s' :
  attributeBasedMatching pid s = Ok s' → touchesOnly pid s s'.
Proof.
  intros H. apply withPlayer_Ok in H as (p & _ & H).
  destruct (truthy (p_gameID p)); [injection H as <-; apply touchesOnly_refl|].
  destruct (attributeTarget p s) as [g|].
  - by eapply assignPlayer_touches.
  - injection H as <-. apply touchesOnly_refl.
Qed.

Lemma conditionalAssignment_touches pid s s' :
  conditionalAssignment pid s = Ok s' → touchesOnly pid s s'.
Proof.
  intros H. apply withPlayer_Ok in H as (p & _ & H).
  destruct (truthy (p_gameID p)); [injection H as <-; apply touchesOnly_refl|].
  destruct (negb (p_surveyComplete p) || negb (p_termsAgreed p)).
  { injection H as <-. by apply updatePlayer_touches. }
  destruct (List.find _ _) as [g|].
  - destruct (assignPlayer (g_id g) pid s) as [s1|] eqn:E; [|done].
    injection H as <-.
    eapply touchesOnly_trans; [by eapply assignPlayer_touches|].
    by apply updatePlayer_touches.
  - injection H as <-. apply touchesOnly_refl.
Qed.

Lemma replayReassignment_touches pid s s' :
  replayReassignment pid s = Ok s' → touchesOnly pid s s'.
Proof.
  intros H. apply withPlayer_Ok in H as (p & _ & H).
  destruct (negb (p_requestReplay p)); [injection H as <-; apply touchesOnly_refl|].
  cbv zeta in H.
  set (s2 := updatePlayer pid (set_ended None) (updatePlayer pid (set_gameID None) s)) in *.
  assert (touchesOnly pid s s2) as H2.
  { eapply touchesOnly_trans; by apply updatePlayer_touches. }
  destruct (replayTarget _ _) as [g|].
  - destruct (assignPlayer (g_id g) pid s2) as [s3|] eqn:E; [|done].
    injection H as <-.
    eapply touchesOnly_trans; [exact H2|].
    eapply touchesOnly_trans; [by eapply assignPlayer_touches|].
    by apply updatePlayer_touches.
  - injection H as <-.
    eapply touchesOnly_trans; [exact H2|].
    eapply touchesOnly_trans; by apply updatePlayer_touches.
Qed.

(** *** Games under the matchmaking *)

Lemma assignBracket_rest gid bracket : ∀ s s',
  assignBracket gid bracket s = Ok s' →
  batches s' = batches s ∧
  List.map p_id (players s') = List.map p_id (players s) ∧
  List.map (set_players ∅) (games s') = List.map (set_players ∅) (games s).
Proof.
  unfold assignBracket.
  induction bracket as [|p bracket IH]; intros s s' H.
  - by injection H as <-.
  - apply (foldl_bind_Ok (λ p s', assignPlayer gid (p_id p) s')) in H
      as (s1 & H1 & H).
    apply assignPlayer_touches in H1 as (Hb & Hi & _ & Hg).
    destruct (IH _ _ H) as (Hb' & Hi' & Hg').
    split; [congruence|]. split; congruence.
Qed.

Lemma placeBracket_rest newGameID batch bracket s s' :
  placeBracket newGameID batch bracket s = Ok s' →
  batches s' = batches s ∧
  List.map p_id (players s') = List.map p_id (players s) ∧
  ∃ created, List.map (set_players ∅) (games s') =
             List.map (set_players ∅) (games s ++ created).
Proof.
  unfold placeBracket. destruct (length bracket <? requiredPlayers).
  - intros H. injection H as <-. split; [done|]. split; [done|].
    exists []. by rewrite List.app_nil_r.
  - cbv zeta. simpl. intros H.
    apply assignBracket_rest in H as (Hb & Hi & Hg).
    split; [done|]. split; [done|]. eexists [_]. exact Hg.
Qed.

Lemma placeBrackets_rest newGameID batch brackets : ∀ s s',
  foldl (λ acc bracket, s' ← acc; placeBracket newGameID batch bracket s') (Ok s) brackets
    = Ok s' →
  batches s' = batches s ∧
  List.map p_id (players s') = List.map p_id (players s) ∧
  ∃ created, List.map (set_players ∅) (games s') =
             List.map (set_players ∅) (games s ++ created).
Proof.
  induction brackets as [|b brackets IH]; intros s s' H.
  - injection H as <-. split; [done|]. split; [done|].
    exists []. by rewrite List.app_nil_r.
  - apply (foldl_bind_Ok (λ b s', placeBracket newGameID batch b s')) in H
      as (s1 & H1 & H).
    apply placeBracket_rest in H1 as (Hb & Hi & c1 & Hg).
    destruct (IH _ _ H) as (Hb' & Hi' & c2 & Hg').
    split; [congruence|]. split; [congruence|].
    exists (c1 ++ c2). rewrite Hg', List.app_assoc, !(List.map_app _ _ c2).
    by rewrite Hg.
Qed.

Lemma skillBasedMatchmaking_rest newGameID pid s s' :
  skillBasedMatchmaking newGameID pid s = Ok s' →
  batches s' = batches s ∧
  List.map p_id (players s') = List.map p_id (players s) ∧
  ∃ created, List.map (set_players ∅) (games s') =
             List.map (set_players ∅) (games s ++ created).
Proof.
  assert (∀ s : Ctx, batches s = batches s ∧
            List.map p_id (players s) = List.map p_id (players s) ∧
            ∃ created, List.map (set_players ∅) (games s) =
                       List.map (set_players ∅) (games s ++ created)) as Hsame.
  { intros t. split; [done|]. split; [done|]. exists []. by rewrite List.app_nil_r. }
  intros H. apply withPlayer_Ok in H as (p & _ & H).
  destruct (truthy (p_gameID p)); [injection H as <-; apply Hsame|].
  destruct (negb (truthyNum (p_skillRating p))); [injection H as <-; apply Hsame|].
  cbv zeta in H.
  destruct (length (sortedCandidates s) <? requiredPlayers);
    [injection H as <-; apply Hsame|].
  destruct (List.filter isRunning (batches s)) as [|batch rest];
    [injection H as <-; apply Hsame|].
  by eapply placeBrackets_rest.
Qed.

(** ** Handlers return *)

Lemma assignPlayer_total g pid s :
  distinctIds s → In g (games s) → g_hasEnded g = false →
  is_Some (lookupPlayer pid s) → ∃ s', assignPlayer (g_id g) pid s = Ok s'.
Proof.
  intros [Hnd _] Hin He [p Hp]. unfold assignPlayer.
  rewrite (lookupGame_In _ _ Hnd Hin), He, Hp. by eexists.
Qed.

(** X3: a run of any of the guide's handlers for a player of the store
    returns: no handler calls [assignPlayer] for a game that has ended or
    that the store does not hold. *)
Theorem handlers_never_fail localeCompare newGameID op pid s :
  (∀ used, ¬ In (newGameID used) used) →
  (∀ used, newGameID used ≠ EmptyString) →
  distinctIds s → NoDup (List.map p_id (players s)) →
  eventPlayer op = Some pid → is_Some (lookupPlayer pid s) →
  ∃ s', run localeCompare newGameID op s = Ok s'.
Proof.
  intros Hfresh Hnamed Hd Hnd Hop [p Hp].
  destruct op; simpl in Hop; try done; injection Hop as ->; simpl.
  - unfold basicSetup. destruct (availableGames s) as [|g rest] eqn:E; [by eexists|].
    assert (In g (availableGames s)) as Hin by (rewrite E; by left).
    apply availableGames_In in Hin as (Hin & He & _).
    by apply assignPlayer_total.
  - unfold fillGamesSequentially, withPlayer. rewrite Hp.
    destruct (truthy _); [by eexists|].
    destruct (sequentialTarget _ s) as [g|] eqn:E; [|by eexists].
    apply sequentialTarget_Some in E as (Hin & Ho & _).
    apply notEndedNotStarted_flags in Ho as [He _].
    by apply assignPlayer_total.
  - unfold randomAssignmentWithBalancing, withPlayer. rewrite Hp.
    destruct (truthy _); [by eexists|].
    destruct (balancedTarget _ s) as [g|] eqn:E; [|by eexists].
    apply balancedTarget_Some in E as (Hin & Ho & _).
    apply notEndedNotStarted_flags in Ho as [He _].
    by apply assignPlayer_total.
  - unfold attributeBasedMatching, withPlayer. rewrite Hp.
    destruct (truthy _); [by eexists|].
    destruct (attributeTarget _ s) as [g|] eqn:E; [|by eexists].
    apply attributeTarget_Some in E as (Hin & Ho & _).
    apply notEndedNotStarted_flags in Ho as [He _].
    by apply assignPlayer_total.
  - unfold conditionalAssignment, withPlayer. rewrite Hp.
    destruct (truthy _); [by eexists|].
    destruct (_ || _); [by eexists|].
    destruct (List.find _ _) as [g|] eqn:E; [|by eexists].
    apply find_some in E as [Hin _]. apply filter_In in Hin as [Hin Ho].
    apply notEndedNotStarted_flags in Ho as [He _].
    destruct (assignPlayer_total g pid s Hd Hin He) as [s1 ->]; [by eexists|].
    by eexists.
  - unfold replayReassignment, withPlayer. rewrite Hp.
    destruct (negb _); [by eexists|]. cbv zeta.
    set (s2 := updatePlayer pid (set_ended None) (updatePlayer pid (set_gameID None) s)).
    destruct (replayTarget _ _) as [g|] eqn:E; [|by eexists].
    apply replayTarget_Some in E as (Hin & He & _).
    destruct (assignPlayer_total g pid s2 Hd Hin He) as [s3 ->]; [|by eexists].
    unfold s2. rewrite !lookupPlayer_update by done.
    rewrite bool_decide_eq_true_2, Hp by done. by eexists.
  - unfold skillBasedMatchmaking, withPlayer. rewrite Hp.
    destruct (truthy _); [by eexists|].
    destruct (negb _); [by eexists|]. cbv zeta.
    destruct (_ <? _); [by eexists|].
    destruct (List.filter isRunning (batches s)) as [|batch rest]; [by eexists|].
    assert (concat (slices requiredPlayers (sortedCandidates s)) = sortedCandidates s)
      as Hcat by (apply concat_slices; unfold requiredPlayers; lia).
    destruct (placeBrackets_spec newGameID Hfresh Hnamed batch
                (slices requiredPlayers (sortedCandidates s)) s)
      as (s' & _ & Hfold & _); [done| |apply slices_length| |by exists s'].
    + rewrite Hcat. by apply sortedCandidates_NoDup.
    + intros q Hq. rewrite Hcat in Hq.
      apply sortedCandidates_In in Hq as [Hin Hq]. exists q.
      split; [by apply lookupPlayer_In|].
      unfold ratedAndUnassigned in Hq. apply andb_true_iff in Hq as [Hq _].
      apply andb_true_iff in Hq as [Hq _]. by apply negb_true_iff in Hq.
Qed.

Lemma handlers_never_fail_witness :
  (∀ used, ¬ In (longerID used) used) ∧ (∀ used, longerID used ≠ EmptyString) ∧
  distinctIds lobby ∧ NoDup (List.map p_id (players lobby)) ∧
  eventPlayer (RunReplay "a") = Some "a" ∧ is_Some (lookupPlayer "a" lobby) ∧
  ∃ s', run codeCompare longerID (RunReplay "a") lobby = Ok s'.
Proof.
  assert (NoDup (List.map p_id (players lobby))) as Hnd.
  { apply (bool_decide_unpack _). by vm_compute. }
  assert (is_Some (lookupPlayer "a" lobby)) as Hp by (by eexists).
  split; [exact longerID_fresh|]. split; [exact longerID_named|].
  split; [exact lobby_distinct|]. split; [exact Hnd|]. split; [reflexivity|].
  split; [exact Hp|].
  exact (handlers_never_fail codeCompare longerID (RunReplay "a") "a" lobby
           longerID_fresh longerID_named lobby_distinct Hnd eq_refl Hp).
Defined.

(** X4: a handler that places one player (every handler but the
    skill-based matchmaking) writes to no other player: every other
    player of the store is after the run as it was before. *)
Theorem handler_leaves_other_players localeCompare newGameID op pid s s' :
  eventPlayer op = Some pid → (∀ q, op ≠ RunSkillMatchmaking q) →
  run localeCompare newGameID op s = Ok s' →
  ∀ q, q ≠ pid → lookupPlayer q s' = lookupPlayer q s.
Proof.
  intros Hop Hns Hrun.
  enough (touchesOnly pid s s') as (_ & _ & H & _) by exact H.
  destruct op; simpl in Hop; try done; injection Hop as ->; simpl in Hrun.
  - by apply basicSetup_touches.
  - by eapply fillGamesSequentially_touches.
  - by eapply randomAssignmentWithBalancing_touches.
  - by apply attributeBasedMatching_touches.
  - by apply conditionalAssignment_touches.
  - by apply replayReassignment_touches.
  - by destruct (Hns pid).
Qed.

Lemma handler_leaves_other_players_witness :
  eventPlayer (RunReplay "a") = Some "a" ∧
  (∀ q, RunReplay "a" ≠ RunSkillMatchmaking q) ∧
  ∃ s', run codeCompare longerID (RunReplay "a") lobby = Ok s' ∧
        ∀ q, q ≠ "a" → lookupPlayer q s' = lookupPlayer q lobby.
Proof.
  assert (∀ q, RunReplay "a" ≠ RunSkillMatchmaking q) as Hns by done.
  split; [reflexivity|]. split; [exact Hns|].
  eexists. split; [by vm_compute|].
  refine (handler_leaves_other_players codeCompare longerID (RunReplay "a") "a" lobby _
            eq_refl Hns _).
  by vm_compute.
Defined.

(** X5: neither a handler nor a bare [assignPlayer] changes a batch,
    adds, removes or reorders players, or writes to an existing game
    anything but its member set; games are never removed or reordered,
    and only the skill-based matchmaking appends games. *)
Theorem handlers_keep_games localeCompare newGameID op s s' :
  (∀ gid, op ≠ GameStarts gid ∧ op ≠ GameEnds gid) →
  run localeCompare newGameID op s = Ok s' →
  batches s' = batches s ∧
  List.map p_id (players s') = List.map p_id (players s) ∧
  ∃ created,
    List.map (set_players ∅) (games s') = List.map (set_players ∅) (games s ++ created) ∧
    ((∀ pid, op ≠ RunSkillMatchmaking pid) → created = []).
Proof.
  intros Hop Hrun.
  assert (∀ pid, touchesOnly pid s s' →
            batches s' = batches s ∧
            List.map p_id (players s') = List.map p_id (players s) ∧
            ∃ created,
              List.map (set_players ∅) (games s') =
                List.map (set_players ∅) (games s ++ created) ∧
              ((∀ pid, op ≠ RunSkillMatchmaking pid) → created = [])) as Hto.
  { intros pid (Hb & Hi & _ & Hg). split; [done|]. split; [done|].
    exists []. by rewrite List.app_nil_r. }
  destruct op; simpl in Hrun.
  - by eapply Hto, assignPlayer_touches.
  - by eapply Hto, basicSetup_touches.
  - by eapply Hto, fillGamesSequentially_touches.
  - by eapply Hto, randomAssignmentWithBalancing_touches.
  - by eapply Hto, attributeBasedMatching_touches.
  - by eapply Hto, conditionalAssignment_touches.
  - by eapply Hto, replayReassignment_touches.
  - apply skillBasedMatchmaking_rest in Hrun as (Hb & Hi & created & Hg).
    split; [done|]. split; [done|]. exists created. split; [done|].
    intros Hns. by destruct (Hns pid).
  - by destruct (Hop gid) as [? _].
  - by destruct (Hop gid) as [_ ?].
Qed.

Lemma handlers_keep_games_witness :
  (∀ gid, RunSkillMatchmaking "p4" ≠ GameStarts gid ∧
          RunSkillMatchmaking "p4" ≠ GameEnds gid) ∧
  ∃ s', run codeCompare longerID (RunSkillMatchmaking "p4") waitingFour = Ok s' ∧
        batches s' = batches waitingFour ∧
        List.map p_id (players s') = List.map p_id (players waitingFour).
Proof.
  assert (∀ gid, RunSkillMatchmaking "p4" ≠ GameStarts gid ∧
                 RunSkillMatchmaking "p4" ≠ GameEnds gid) as Hop by done.
  split; [exact Hop|].
  eexists. split; [by vm_compute|].
  destruct (handlers_keep_games codeCompare longerID (RunSkillMatchmaking "p4")
              waitingFour _ Hop eq_refl) as (Hb & Hi & _).
  by split.
Defined.

(** ** The basic setup has no guard *)

(** X1: the basic setup has no guard on [gameID]: while some game is
    available, it assigns the player of the event to the first available
    game of the store whether or not the player already has a game; the
    player then carries that game's id, treatment and treatment name, is a
    member of it, and is a member of no other game that has not ended. *)
Theorem basic_setup_reassigns pid p g rest s :
  distinctIds s → referenced s → namedReferences s →
  lookupPlayer pid s = Some p → availableGames s = g :: rest →
  ∃ s',
    basicSetup pid s = Ok s' ∧
    lookupPlayer pid s' =
      Some (set_assignment (Some (g_id g)) (Some (g_treatment g)) (g_treatmentName g) p) ∧
    (∃ g', In g' (games s') ∧ g_id g' = g_id g ∧ pid ∈ g_players g') ∧
    (∀ x, In x (games s') → g_hasEnded x = false → pid ∈ g_players x → g_id x = g_id g).
Proof.
  intros Hd Href Hnamed Hp Ha.
  assert (In g (availableGames s)) as Hin by (rewrite Ha; by left).
  apply availableGames_In in Hin as (Hin & He & _).
  destruct (assignPlayer_total g pid s Hd Hin He) as [s' Hs']; [by eexists|].
  exists s'. unfold basicSetup. rewrite Ha. split; [done|].
  destruct (assignPlayer_moves _ _ _ _ _ Hd Href Hnamed Hp Hs') as (Hmember & _ & Honly).
  split; [|by split].
  rewrite (lookupPlayer_assigned _ _ _ _ pid Hs'), bool_decide_eq_true_2 by done.
  destruct Hd as [Hnd _]. by rewrite (lookupGame_In _ _ Hnd Hin), Hp.
Qed.

Lemma seatedElsewhere_distinct : distinctIds seatedElsewhere.
Proof.
  split; [apply (bool_decide_unpack _); by vm_compute|].
  intros [H|[H|[]]]; discriminate H.
Qed.

Lemma seatedElsewhere_referenced : referenced seatedElsewhere.
Proof.
  intros g pid [<-|[<-|[]]] _ Hpid; simpl in Hpid.
  - set_solver.
  - apply elem_of_singleton in Hpid as ->. by eexists.
Qed.

Lemma seatedElsewhere_named : namedReferences seatedElsewhere.
Proof. intros p [<-|[]]. done. Qed.

Lemma basic_setup_reassigns_witness :
  distinctIds seatedElsewhere ∧ referenced seatedElsewhere ∧
  namedReferences seatedElsewhere ∧
  lookupPlayer "a" seatedElsewhere = Some (playerIn "a" "g2") ∧
  availableGames seatedElsewhere =
    [newGame "g1" 2; set_players {["a"]} (newGame "g2" 2)] ∧
  ∃ s',
    basicSetup "a" seatedElsewhere = Ok s' ∧
    p_gameID <$> lookupPlayer "a" s' = Some (Some "g1") ∧
    ∀ x, In x (games s') → g_hasEnded x = false → "a" ∈ g_players x → g_id x = "g1".
Proof.
  assert (availableGames seatedElsewhere =
            [newGame "g1" 2; set_players {["a"]} (newGame "g2" 2)]) as Ha
    by (by vm_compute).
  split; [exact seatedElsewhere_distinct|]. split; [exact seatedElsewhere_referenced|].
  split; [exact seatedElsewhere_named|]. split; [reflexivity|]. split; [exact Ha|].
  destruct (basic_setup_reassigns "a" (playerIn "a" "g2") (newGame "g1" 2)
              [set_players {["a"]} (newGame "g2" 2)] seatedElsewhere
              seatedElsewhere_distinct seatedElsewhere_referenced seatedElsewhere_named
              eq_refl Ha) as (s' & Hrun & Hp & _ & Honly).
  exists s'. split; [exact Hrun|]. split; [by rewrite Hp|exact Honly].
Defined.

(** ** Strategy 2 without a game to choose from *)

Lemma seated_changes_player g pid p s :
  distinctIds s → In g (games s) →
  lookupPlayer pid s = Some p → truthy (p_gameID p) = false →
  seated g pid s ≠ s.
Proof.
  intros [_ Hne] Hin Hp Ht E.
  pose proof (lookupPlayer_seated g pid s pid) as H.
  rewrite E, bool_decide_eq_true_2, Hp in H by done.
  injection H as H. apply (f_equal p_gameID) in H. simpl in H.
  rewrite H in Ht. simpl in Ht.
  apply negb_false_iff, bool_decide_eq_true in Ht.
  apply Hne. rewrite <- Ht. unfold gameIds. by apply List.in_map.
Qed.

(** X2: for a player without a game and a draw in [0, 1), the random
    assignment with balancing leaves the store as it is exactly when no
    game is left that has neither ended nor started; whether the games
    are full plays no role. *)
Theorem balanced_random_defers_iff_no_game u pid p s :
  distinctIds s → lookupPlayer pid s = Some p → truthy (p_gameID p) = false →
  (0 <= u)%Q → (u < 1)%Q →
  randomAssignmentWithBalancing u pid s = Ok s ↔
  List.filter notEndedNotStarted (games s) = [].
Proof.
  intros Hd Hp Ht Hu Hu1.
  split.
  - intros Hrun.
    assert (List.filter notEndedNotStarted (games s) = [] ∨
            List.filter notEndedNotStarted (games s) ≠ []) as [Egs|Hne]
      by (destruct (List.filter notEndedNotStarted (games s)); [by left|by right]);
      [done|].
    exfalso.
    set (candidates := underassignedGames (List.filter notEndedNotStarted (games s))).
    destruct (minPlayerCount_nonempty _ Hne) as [m Hm].
    destruct (minPlayerCount_Some _ _ Hm) as [(g1 & Hg1 & Hsize1) _].
    assert (In g1 candidates) as Hin1
      by (unfold candidates; by rewrite (underassignedGames_In _ m g1 Hm)).
    assert (0 < length candidates) as Hlen
      by (destruct candidates; [destruct Hin1|simpl; lia]).
    pose proof (randomIndex_lt u _ Hu Hu1 Hlen) as Hidx.
    destruct (nth_error candidates (randomIndex u (length candidates))) as [g|] eqn:E.
    2: { apply nth_error_None in E. lia. }
    assert (balancedTarget u s = Some g) as Htarget by exact E.
    destruct (balancedTarget_Some _ _ _ Htarget) as (Hin & Ho & _).
    apply notEndedNotStarted_flags in Ho as [He _].
    unfold randomAssignmentWithBalancing, withPlayer in Hrun.
    rewrite Hp, Ht, Htarget in Hrun.
    rewrite (assignPlayer_unassigned g pid p s Hd Hin He Hp Ht) in Hrun.
    injection Hrun as Hrun.
    by apply (seated_changes_player g pid p s).
  - intros Egs. unfold randomAssignmentWithBalancing, withPlayer, balancedTarget.
    rewrite Hp, Ht, Egs. by destruct (randomIndex _ _).
Qed.

Lemma allUnderWay_distinct : distinctIds allUnderWay.
Proof.
  split; [apply (bool_decide_unpack _); by vm_compute|].
  intros [H|[H|[]]]; discriminate H.
Qed.

Lemma balanced_random_defers_iff_no_game_witness :
  distinctIds allUnderWay ∧
  lookupPlayer "a" allUnderWay = Some (newPlayer "a") ∧
  truthy (p_gameID (newPlayer "a")) = false ∧
  (0 <= 1 # 2)%Q ∧ (1 # 2 < 1)%Q ∧
  List.filter notEndedNotStarted (games allUnderWay) = [] ∧
  randomAssignmentWithBalancing (1 # 2) "a" allUnderWay = Ok allUnderWay.
Proof.
  assert (0 <= 1 # 2)%Q as Hu by done.
  assert (1 # 2 < 1)%Q as Hu1 by done.
  split; [exact allUnderWay_distinct|]. split; [reflexivity|]. split; [reflexivity|].
  split; [exact Hu|]. split; [exact Hu1|]. split; [reflexivity|].
  exact (proj2 (balanced_random_defers_iff_no_game (1 # 2) "a" (newPlayer "a") allUnderWay
                  allUnderWay_distinct eq_refl eq_refl Hu Hu1) eq_refl).
Defined.

(** ** The replay's scan *)

(** X7: the replay scans the running batches in order and, within a
    batch, the games in order: its target is the first game with an open
    slot among the games of the batch that have not ended, for the first
    batch that has such a game; that a game has started does not exclude
    it; there is no target exactly when no batch has such a game. *)
Theorem replay_scan_order bs gs :
  let openIn := λ (batch : Batch) (g : Game),
    bool_decide (g_batchID g = Some (b_id batch)) && negb (g_hasEnded g) && hasOpenSlot g in
  (∀ g, replayTarget bs gs = Some g ↔
     ∃ bs1 batch bs2, bs = bs1 ++ batch :: bs2 ∧
       (∀ b g', In b bs1 → In g' gs → openIn b g' = false) ∧
       List.find (openIn batch) gs = Some g) ∧
  (replayTarget bs gs = None ↔ ∀ b g', In b bs → In g' gs → openIn b g' = false).
Proof.
  intros openIn.
  assert (Hfind : ∀ batch,
            List.find hasOpenSlot
              (List.filter (λ g, bool_decide (g_batchID g = Some (b_id batch)) &&
                                 negb (g_hasEnded g)) gs) = List.find (openIn batch) gs)
    by (intros batch; apply find_filter_filter).
  assert (Hnone : ∀ batch, List.find (openIn batch) gs = None ↔
                           ∀ g', In g' gs → openIn batch g' = false).
  { intros batch. split.
    - intros H g' Hg'. by apply (find_none _ _ H).
    - intros H. destruct (List.find (openIn batch) gs) as [g|] eqn:E; [|done].
      apply find_some in E as [Hin Ho]. by rewrite H in Ho. }
  induction bs as [|batch bs [IHs IHn]]; simpl.
  - split; [|by split].
    intros g. split; [done|]. intros (bs1 & b & bs2 & E & _). by destruct bs1.
  - rewrite Hfind. destruct (List.find (openIn batch) gs) as [g0|] eqn:E0.
    + split.
      * intros g. split.
        -- intros [= <-]. exists [], batch, bs. by repeat split.
        -- intros (bs1 & b & bs2 & E & Hbefore & Hg).
           destruct bs1 as [|b1 bs1]; simpl in E; injection E as <- ->.
           ++ congruence.
           ++ apply find_some in E0 as [Hin Ho].
              rewrite (Hbefore batch g0) in Ho; [done|by left|done].
      * split; [done|]. intros H. apply find_some in E0 as [Hin Ho].
        rewrite (H batch g0) in Ho; [done|by left|done].
    + pose proof (proj1 (Hnone batch) E0) as Hb. split.
      * intros g. rewrite IHs. split.
        -- intros (bs1 & b & bs2 & -> & Hbefore & Hg).
           exists (batch :: bs1), b, bs2. split; [done|]. split; [|done].
           intros b' g' [<-|Hb'] Hg'; [by apply Hb|by apply Hbefore].
        -- intros (bs1 & b & bs2 & E & Hbefore & Hg).
           destruct bs1 as [|b1 bs1]; simpl in E; injection E as <- ->.
           ++ congruence.
           ++ exists bs1, b, bs2. split; [done|]. split; [|done].
              intros b' g' Hb' Hg'. apply Hbefore; [by right|done].
      * rewrite IHn. split.
        -- intros H b' g' [<-|Hb'] Hg'; [by apply Hb|by apply H].
        -- intros H b' g' Hb' Hg'. apply H; [by right|done].
Qed.

(** ** Matchmaking run again *)

Lemma slices_incomplete {A} n (l : list A) :
  0 < n →
  length (concat (List.filter (λ b, negb (length b =? n)) (slices n l))) < n.
Proof.
  intros Hn. remember (length l) as len eqn:E. revert l E.
  induction len as [len IH] using lt_wf_ind. intros l ->.
  destruct l as [|x l]; [by rewrite slices_nil|].
  rewrite slices_cons by done. simpl List.filter.
  destruct (Nat.eqb_spec (length (take n (x :: l))) n) as [Hfull|Hshort]; simpl negb; cbv iota.
  - apply (IH (length (drop n (x :: l)))); [|done].
    rewrite length_drop. simpl. lia.
  - rewrite length_take in Hshort.
    assert (drop n (x :: l) = []) as -> by (apply drop_ge; lia).
    rewrite slices_nil by done. simpl. rewrite List.app_nil_r, length_take. lia.
Qed.

Lemma players_NoDup s : NoDup (List.map p_id (players s)) → NoDup (players s).
Proof. apply NoDup_fmap_1. Qed.

(** X8: once the matchmaking has run for a rated player without a game,
    running it again, for any player of the store, changes nothing: no
    further game is created and no player is moved. *)
Theorem matchmaking_again_changes_nothing newGameID pid p s :
  (∀ used, ¬ In (newGameID used) used) →
  (∀ used, newGameID used ≠ EmptyString) →
  distinctIds s → NoDup (List.map p_id (players s)) →
  lookupPlayer pid s = Some p →
  truthy (p_gameID p) = false → truthyNum (p_skillRating p) = true →
  ∃ s', skillBasedMatchmaking newGameID pid s = Ok s' ∧
        ∀ q, is_Some (lookupPlayer q s') → skillBasedMatchmaking newGameID q s' = Ok s'.
Proof.
  intros Hfresh Hnamed Hd Hnd Hp Ht Hr.
  set (brackets := slices requiredPlayers (sortedCandidates s)).
  assert (Hrun : skillBasedMatchmaking newGameID pid s =
            if length (sortedCandidates s) <? requiredPlayers then Ok s
            else match List.filter isRunning (batches s) with
                 | [] => Ok s
                 | batch :: _ =>
                     foldl (λ acc bracket, s' ← acc; placeBracket newGameID batch bracket s')
                       (Ok s) brackets
                 end).
  { unfold skillBasedMatchmaking, withPlayer. by rewrite Hp, Ht, Hr. }
  assert (Hfew : ∀ t q, length (sortedCandidates t) < requiredPlayers →
            is_Some (lookupPlayer q t) → skillBasedMatchmaking newGameID q t = Ok t).
  { intros t q Hlen [p' Hp']. unfold skillBasedMatchmaking, withPlayer. rewrite Hp'.
    destruct (truthy (p_gameID p')); [done|].
    destruct (negb (truthyNum (p_skillRating p'))); [done|]. cbv zeta.
    by rewrite (proj2 (Nat.ltb_lt _ _) Hlen). }
  destruct (length (sortedCandidates s) <? requiredPlayers) eqn:Elen.
  { apply Nat.ltb_lt in Elen. exists s. split; [done|]. intros q. by apply Hfew. }
  destruct (List.filter isRunning (batches s)) as [|batch rest] eqn:Ebatch.
  { exists s. split; [done|]. intros q [p' Hp'].
    unfold skillBasedMatchmaking, withPlayer. rewrite Hp'.
    destruct (truthy (p_gameID p')); [done|].
    destruct (negb (truthyNum (p_skillRating p'))); [done|]. cbv zeta.
    rewrite Elen. by rewrite Ebatch. }
  assert (concat brackets = sortedCandidates s) as Hcat
    by (apply concat_slices; unfold requiredPlayers; lia).
  destruct (placeBrackets_spec newGameID Hfresh Hnamed batch brackets s)
    as (s' & created & Hfold & Hgames & _ & Hformed & Hout);
    [done| |apply slices_length| |].
  { rewrite Hcat. by apply sortedCandidates_NoDup. }
  { intros q Hq. rewrite Hcat in Hq.
    apply sortedCandidates_In in Hq as [Hin Hq]. exists q.
    split; [by apply lookupPlayer_In|].
    unfold ratedAndUnassigned in Hq. apply andb_true_iff in Hq as [Hq _].
    apply andb_true_iff in Hq as [Hq _]. by apply negb_true_iff in Hq. }
  exists s'. split; [by rewrite Hrun|].
  assert (distinctIds s') as Hd'.
  { rewrite <- Hrun in Hfold.
    by destruct (changes_invariants newGameID Hfresh Hnamed true false s s'
                   (skillBasedMatchmaking_changes newGameID false pid s s' Hfold) Hd). }
  destruct (placeBrackets_rest _ _ _ _ _ Hfold) as (_ & Hids & _).
  assert (NoDup (List.map p_id (players s'))) as Hnd' by (by rewrite Hids).
  intros q Hq. apply Hfew; [|done].
  set (incomplete := concat (List.filter (λ b, negb (length b =? requiredPlayers)) brackets)).
  assert (length incomplete < requiredPlayers) as Hinc
    by (apply slices_incomplete; unfold requiredPlayers; lia).
  enough (length (List.filter ratedAndUnassigned (players s')) ≤ length incomplete) as Hle.
  { unfold sortedCandidates.
    rewrite <- (Permutation_length (arraySort_perm compareRating _)). lia. }
  apply NoDup_incl_length.
  { apply List.NoDup_filter, NoDup_ListNoDup, players_NoDup, Hnd'. }
  intros p' Hp'. apply filter_In in Hp' as [Hin' Hrated].
  pose proof (lookupPlayer_In s' p' Hnd' Hin') as Hp's'.
  assert (truthy (p_gameID p') = false) as Hfree.
  { unfold ratedAndUnassigned in Hrated. apply andb_true_iff in Hrated as [Hr' _].
    apply andb_true_iff in Hr' as [Hr' _]. by apply negb_true_iff in Hr'. }
  assert (∀ b, In b brackets → length b = requiredPlayers →
               ¬ In (p_id p') (List.map p_id b)) as Hnone.
  { intros b Hb Hfull Hmem.
    assert (In b (List.filter (λ b, length b =? requiredPlayers) brackets)) as Hbc
      by (apply filter_In; split; [done|by apply Nat.eqb_eq]).
    apply list_elem_of_In, list_elem_of_lookup in Hbc as [i Hi].
    destruct (Forall2_lookup_r _ _ _ _ _ Hformed Hi) as (g & Hg & Hf).
    destruct Hf as (_ & _ & _ & _ & _ & Hmembers).
    apply List.in_map_iff in Hmem as (q' & Eq' & Hq').
    specialize (Hmembers q' Hq'). rewrite Eq', Hp's' in Hmembers.
    injection Hmembers as Hgid. rewrite Hgid in Hfree. simpl in Hfree.
    apply negb_false_iff, bool_decide_eq_true in Hfree.
    destruct Hd' as [_ Hne]. apply Hne. rewrite <- Hfree.
    unfold gameIds. apply List.in_map. rewrite Hgames. apply List.in_or_app. right.
    by eapply list_elem_of_In, list_elem_of_lookup_2. }
  pose proof (Hout _ Hnone) as Hsame. rewrite Hp's' in Hsame. symmetry in Hsame.
  apply lookupPlayer_Some in Hsame as [_ Hin].
  assert (In p' (sortedCandidates s)) as Hcand by (by apply sortedCandidates_In).
  rewrite <- Hcat in Hcand. apply in_concat in Hcand as (b & Hb & Hpb).
  apply in_concat. exists b. split; [|done].
  apply filter_In. split; [done|].
  destruct (Nat.eqb_spec (length b) requiredPlayers) as [Hfull|]; [|done].
  destruct (Hnone b Hb Hfull). by apply List.in_map.
Qed.

Lemma waitingFour_distinct : distinctIds waitingFour.
Proof. split; [constructor|intros []]. Qed.

Lemma matchmaking_again_changes_nothing_witness :
  (∀ used, ¬ In (longerID used) used) ∧ (∀ used, longerID used ≠ EmptyString) ∧
  distinctIds waitingFour ∧ NoDup (List.map p_id (players waitingFour)) ∧
  lookupPlayer "p4" waitingFour = Some (rated "p4" 1000) ∧
  truthy (p_gameID (rated "p4" 1000)) = false ∧
  truthyNum (p_skillRating (rated "p4" 1000)) = true ∧
  ∃ s', skillBasedMatchmaking longerID "p4" waitingFour = Ok s' ∧
        ∀ q, is_Some (lookupPlayer q s') → skillBasedMatchmaking longerID q s' = Ok s'.
Proof.
  assert (NoDup (List.map p_id (players waitingFour))) as Hnd.
  { apply (bool_decide_unpack _). by vm_compute. }
  split; [exact longerID_fresh|]. split; [exact longerID_named|].
  split; [exact waitingFour_distinct|]. split; [exact Hnd|]. split; [reflexivity|].
  split; [reflexivity|]. split; [reflexivity|].
  exact (matchmaking_again_changes_nothing longerID "p4" (rated "p4" 1000) waitingFour
           longerID_fresh longerID_named waitingFour_distinct Hnd eq_refl eq_refl eq_refl).
Defined.

(** ** A rating of zero *)

(** X6: a player whose [skillRating] is 0 never starts the matchmaking
    (the handler returns at [!playerRating]), although such a player,
    while without a game and not ended, is among the candidates
    ([skillRating !== null]) when the event of another player runs it. *)
Theorem zero_rating_never_starts_matchmaking newGameID pid p s :
  lookupPlayer pid s = Some p → p_skillRating p = Some 0%Z →
  skillBasedMatchmaking newGameID pid s = Ok s ∧
  (truthy (p_gameID p) = false → truthy (p_ended p) = false →
   In p (sortedCandidates s)).
Proof.
  intros Hp Hr. split.
  - unfold skillBasedMatchmaking, withPlayer. rewrite Hp, Hr. simpl.
    by destruct (truthy (p_gameID p)).
  - intros Hg He. apply sortedCandidates_In.
    split; [by apply lookupPlayer_Some in Hp as [_ ?]|].
    unfold ratedAndUnassigned. by rewrite Hg, He, Hr.
Qed.

Lemma zero_rating_never_starts_matchmaking_witness :
  lookupPlayer "p0" fourWithNewcomer = Some (rated "p0" 0) ∧
  p_skillRating (rated "p0" 0) = Some 0%Z ∧
  skillBasedMatchmaking longerID "p0" fourWithNewcomer = Ok fourWithNewcomer ∧
  In (rated "p0" 0) (sortedCandidates fourWithNewcomer).
Proof.
  split; [reflexivity|]. split; [reflexivity|].
  destruct (zero_rating_never_starts_matchmaking longerID "p0" (rated "p0" 0)
              fourWithNewcomer eq_refl eq_refl) as [Hrun Hcand].
  split; [exact Hrun|]. by apply Hcand.
Defined.

(** ** Use case 5: treatment-specific assignment *)

Lemma treatmentGames_find t s :
  List.find hasOpenSlot (treatmentGames t s) =
  List.find (λ g, negb (g_hasEnded g) && negb (g_hasStarted g) &&
                  bool_decide (g_treatmentName g = Some t) && hasOpenSlot g) (games s).
Proof.
  unfold treatmentGames. rewrite find_filter_filter.
  induction (games s) as [|g gs IH]; simpl; [done|].
  rewrite IH. by destruct (g_hasEnded g), (g_hasStarted g).
Qed.

(** X9: the treatment-specific assignment leaves the store as it is for
    a player who has a game or has no [assignedTreatment]; otherwise it
    assigns the player to the first game of the store that has neither
    ended nor started, carries the name of the assigned treatment and has
    an open slot, and the player then carries that treatment name; when
    there is no such game it records the reason
    [Waiting for <treatment> game], so that a player it does not place
    always has a waiting reason. *)
Theorem treatment_specific_assignment assigned pid p s :
  distinctIds s → lookupPlayer pid s = Some p →
  (truthy (p_gameID p) = true ∨ truthy (assigned !! pid) = false →
   treatmentSpecificAssignment assigned pid s = Ok s) ∧
  (∀ t, truthy (p_gameID p) = false → assigned !! pid = Some t → t ≠ EmptyString →
     let target :=
       List.find (λ g, negb (g_hasEnded g) && negb (g_hasStarted g) &&
                       bool_decide (g_treatmentName g = Some t) && hasOpenSlot g)
         (games s) in
     (∀ g, target = Some g →
        treatmentSpecificAssignment assigned pid s = Ok (seated g pid s) ∧
        lookupPlayer pid (seated g pid s) =
          Some (set_assignment (Some (g_id g)) (Some (g_treatment g)) (Some t) p)) ∧
     (target = None →
        treatmentSpecificAssignment assigned pid s =
          Ok (updatePlayer pid (set_waitingReason (Some (waitingFor t))) s))).
Proof.
  intros Hd Hp. split.
  { intros H. unfold treatmentSpecificAssignment, withPlayer at 1. rewrite Hp.
    destruct (truthy (p_gameID p)); [done|]. destruct H as [H|H]; [done|].
    by rewrite H. }
  intros t Ht Ha Hne target.
  assert (truthy (Some t) = true) as Htt
    by (simpl; by rewrite bool_decide_eq_false_2).
  assert (Hrun : treatmentSpecificAssignment assigned pid s =
            (s1 ← match target with
                  | Some game => assignPlayer (g_id game) pid s
                  | None => Ok s
                  end;
             withPlayer pid s1 (λ player',
               if negb (truthy (p_gameID player'))
               then Ok (updatePlayer pid (set_waitingReason (Some (waitingFor t))) s1)
               else Ok s1))).
  { unfold treatmentSpecificAssignment, withPlayer at 1. rewrite Hp, Ht, Ha, Htt. simpl.
    by rewrite treatmentGames_find. }
  split.
  - intros g Hg. rewrite Hg in Hrun.
    pose proof (find_some _ _ Hg) as [Hin Ho].
    apply andb_true_iff in Ho as [Ho _]. apply andb_true_iff in Ho as [Ho Hname].
    apply andb_true_iff in Ho as [He _]. apply negb_true_iff in He.
    apply bool_decide_eq_true in Hname.
    assert (lookupPlayer pid (seated g pid s) =
            Some (set_assignment (Some (g_id g)) (Some (g_treatment g)) (Some t) p)) as Hp'.
    { by rewrite lookupPlayer_seated, bool_decide_eq_true_2, Hp, Hname. }
    split; [|exact Hp'].
    rewrite (assignPlayer_unassigned g pid p s Hd Hin He Hp Ht) in Hrun.
    rewrite Hrun. simpl. unfold withPlayer. rewrite Hp'. simpl.
    rewrite bool_decide_eq_false_2; [done|].
    intros E. destruct Hd as [_ Hnamed]. apply Hnamed. rewrite <- E.
    unfold gameIds. by apply List.in_map.
  - intros Hg. rewrite Hg in Hrun. rewrite Hrun. simpl. unfold withPlayer.
    by rewrite Hp, Ht.
Qed.

Lemma twoTreatments_distinct : distinctIds twoTreatments.
Proof.
  split; [apply (bool_decide_unpack _); by vm_compute|].
  intros [H|[H|[]]]; discriminate H.
Qed.

Lemma treatment_specific_assignment_witness :
  distinctIds twoTreatments ∧
  lookupPlayer "c" twoTreatments = Some (newPlayer "c") ∧
  truthy (p_gameID (newPlayer "c")) = false ∧
  introAssignments !! "c" = Some "control" ∧ "control" ≠ EmptyString ∧
  treatmentSpecificAssignment introAssignments "c" twoTreatments =
    Ok (updatePlayer "c" (set_waitingReason (Some "Waiting for control game"))
          twoTreatments).
Proof.
  assert ("control" ≠ EmptyString) as Hne by done.
  assert (introAssignments !! "c" = Some "control") as Ha by (by vm_compute).
  split; [exact twoTreatments_distinct|]. split; [reflexivity|]. split; [reflexivity|].
  split; [exact Ha|]. split; [exact Hne|].
  refine (proj2 (proj2 (treatment_specific_assignment introAssignments "c" (newPlayer "c")
                          twoTreatments twoTreatments_distinct eq_refl)
                   "control" eq_refl Ha Hne) _).
  by vm_compute.
Defined.

Section TreatmentSpecific.

Variable newGameID : list string → string.

Lemma treatmentSpecificAssignment_changes gd assigned pid s s' :
  treatmentSpecificAssignment assigned pid s = Ok s' → changes newGameID true gd s s'.
Proof.
  intros H. apply withPlayer_Ok in H as (p & _ & H).
  destruct (truthy (p_gameID p)); [injection H as <-; constructor|].
  destruct (negb (truthy (assigned !! pid))); [injection H as <-; constructor|].
  cbv zeta in H.
  set (t := default EmptyString (assigned !! pid)) in *.
  assert (∀ s1, withPlayer pid s1 (λ player',
              if negb (truthy (p_gameID player'))
              then Ok (updatePlayer pid (set_waitingReason (Some (waitingFor t))) s1)
              else Ok s1) = Ok s' → changes newGameID true gd s1 s') as Hnote.
  { intros s1 H1. apply withPlayer_Ok in H1 as (p' & _ & H1).
    destruct (negb (truthy (p_gameID p'))); injection H1 as <-; [|constructor].
    apply note_changes, attributeOnly_waitingReason. }
  destruct (List.find hasOpenSlot (treatmentGames t s)) as [g|] eqn:E.
  - destruct (assignPlayer (g_id g) pid s) as [s1|] eqn:E1; [|done].
    simpl in H. apply find_some in E as [Hin Ho].
    apply filter_In in Hin as [Hin _].
    eapply changes_trans; [|by apply Hnote].
    by eapply seat_changes.
  - simpl in H. by apply Hnote.
Qed.

End TreatmentSpecific.

(** X10: a run of the treatment-specific assignment keeps the ids of
    the games distinct, every game within its capacity and every member
    of an active game pointing to that game; it leaves every player in at
    most one active game and the ended games closed, and writes to no
    other player, to no batch and to nothing of a game but its member
    set. *)
Theorem treatment_specific_keeps_invariants assigned pid s s' :
  distinctIds s → withinCapacity s → referenced s →
  treatmentSpecificAssignment assigned pid s = Ok s' →
  distinctIds s' ∧ withinCapacity s' ∧ referenced s' ∧ atMostOneActive s' ∧
  endedFrozen s s' ∧ touchesOnly pid s s'.
Proof.
  intros Hd Hc Href Hrun.
  destruct (changes_invariants longerID longerID_fresh longerID_named true true s s'
              (treatmentSpecificAssignment_changes longerID true assigned pid s s' Hrun) Hd)
    as (Hd' & Hc' & Href' & Hfrozen).
  split; [done|]. split; [by apply Hc'|]. split; [by apply Href'|].
  split; [apply referenced_atMostOne; [done|by apply Href']|]. split; [done|].
  apply withPlayer_Ok in Hrun as (p & _ & H).
  destruct (truthy (p_gameID p)); [injection H as <-; apply touchesOnly_refl|].
  destruct (negb (truthy (assigned !! pid))); [injection H as <-; apply touchesOnly_refl|].
  cbv zeta in H.
  set (t := default EmptyString (assigned !! pid)) in *.
  assert (∀ s1, withPlayer pid s1 (λ player',
              if negb (truthy (p_gameID player'))
              then Ok (updatePlayer pid (set_waitingReason (Some (waitingFor t))) s1)
              else Ok s1) = Ok s' → touchesOnly pid s1 s') as Hnote.
  { intros s1 H1. apply withPlayer_Ok in H1 as (p' & _ & H1).
    destruct (negb (truthy (p_gameID p'))); injection H1 as <-;
      [by apply updatePlayer_touches|apply touchesOnly_refl]. }
  destruct (List.find hasOpenSlot (treatmentGames t s)) as [g|] eqn:E.
  - destruct (assignPlayer (g_id g) pid s) as [s1|] eqn:E1; [|done].
    simpl in H.
    eapply touchesOnly_trans; [by eapply assignPlayer_touches|by apply Hnote].
  - simpl in H. by apply Hnote.
Qed.

Lemma twoTreatments_referenced : referenced twoTreatments.
Proof.
  intros g pid [<-|[<-|[]]] _ Hpid; simpl in Hpid.
  - apply elem_of_union in Hpid as [Hpid|Hpid].
    + apply elem_of_singleton in Hpid as ->. by eexists.
    + apply elem_of_union in Hpid as [Hpid|Hpid]; [|set_solver].
      apply elem_of_singleton in Hpid as ->. by eexists.
  - set_solver.
Qed.

Lemma treatment_specific_keeps_invariants_witness :
  distinctIds twoTreatments ∧ withinCapacity twoTreatments ∧
  referenced twoTreatments ∧
  ∃ s', treatmentSpecificAssignment introAssignments "d" twoTreatments = Ok s' ∧
        List.map (λ g, (g_id g, g_players g)) (games s') =
          [("g1", {["a"; "b"]}); ("g2", {["d"]})] ∧
        withinCapacity s' ∧ atMostOneActive s'.
Proof.
  assert (withinCapacity twoTreatments) as Hc.
  { apply (bool_decide_unpack _). by vm_compute. }
  split; [exact twoTreatments_distinct|]. split; [exact Hc|].
  split; [exact twoTreatments_referenced|].
  eexists. split; [by vm_compute|].
  split; [simpl; repeat f_equal; set_solver|].
  destruct (treatment_specific_keeps_invariants introAssignments "d" twoTreatments _
              twoTreatments_distinct Hc twoTreatments_referenced eq_refl)
    as (_ & Hc' & _ & Hone & _).
  by split.
Defined.

(** ** Use case 3: dynamic game creation *)

Lemma flagOnly_treatmentName v : flagOnly (set_treatmentName v).
Proof. by intros g. Qed.

Section DynamicCreationFacts.

Variable newGameID : list string → string.
Hypothesis newGameID_fresh : ∀ used, ¬ In (newGameID used) used.
Hypothesis newGameID_named : ∀ used, newGameID used ≠ EmptyString.

(** The store after [addNamedGame]: one more game, the last one. *)
Lemma addNamedGame_games batch treatment s :
  (addNamedGame newGameID batch treatment s).1 = newGameID (gameIds s) ∧
  games (addNamedGame newGameID batch treatment s).2 =
    games s ++
    [{| g_id := newGameID (gameIds s); g_batchID := Some (b_id batch);
        g_hasStarted := false; g_hasEnded := false;
        g_treatment := t_factors treatment; g_treatmentName := Some (t_name treatment);
        g_requiredSkillLevel := None; g_averageSkillRating := None;
        g_players := ∅ |}] ∧
  players (addNamedGame newGameID batch treatment s).2 = players s ∧
  batches (addNamedGame newGameID batch treatment s).2 = batches s.
Proof.
  unfold addNamedGame, addGame. simpl.
  split; [done|]. split; [|done].
  rewrite List.map_app. simpl. rewrite bool_decide_eq_true_2 by done.
  f_equal. rewrite <- (List.map_id (games s)) at 2. apply List.map_ext_in.
  intros g Hg. rewrite bool_decide_eq_false_2; [done|].
  intros E. apply (newGameID_fresh (gameIds s)). unfold gameIds. rewrite <- E.
  by apply List.in_map.
Qed.

Lemma dynamicGameCreation_room configs pid p batch rest g s :
  distinctIds s → lookupPlayer pid s = Some p → truthy (p_gameID p) = false →
  List.filter isRunning (batches s) = batch :: rest →
  List.find (λ g, liveIn batch g && hasOpenSlot g) (games s) = Some g →
  In g (games s) ∧ hasOpenSlot g = true ∧
  dynamicGameCreation newGameID configs pid s = Done (seated g pid s).
Proof.
  intros Hd Hp Ht Eb Hg. pose proof (find_some _ _ Hg) as [Hin Ho].
  apply andb_true_iff in Ho as [Hl Ho]. apply andb_true_iff in Hl as [_ He].
  apply negb_true_iff in He. split; [done|]. split; [done|].
  unfold dynamicGameCreation. rewrite Hp, Ht, Eb, find_filter_filter, Hg.
  by rewrite (assignPlayer_unassigned g pid p s Hd Hin He Hp Ht).
Qed.

Lemma dynamicGameCreation_creates configs pid p batch rest treatment more s :
  distinctIds s → lookupPlayer pid s = Some p → truthy (p_gameID p) = false →
  List.filter isRunning (batches s) = batch :: rest →
  List.find (λ g, liveIn batch g && hasOpenSlot g) (games s) = None →
  configs !! b_id batch = Some (treatment :: more) →
  let created :=
    {| g_id := newGameID (gameIds s); g_batchID := Some (b_id batch);
       g_hasStarted := false; g_hasEnded := false;
       g_treatment := t_factors treatment; g_treatmentName := Some (t_name treatment);
       g_requiredSkillLevel := None; g_averageSkillRating := None;
       g_players := {[pid]} |} in
  ∃ s',
    dynamicGameCreation newGameID configs pid s = Done s' ∧
    games s' = games s ++ [created] ∧
    batches s' = batches s ∧
    lookupPlayer pid s' =
      Some (set_assignment (Some (g_id created)) (Some (t_factors treatment))
              (Some (t_name treatment)) p) ∧
    (∀ q, q ≠ pid → lookupPlayer q s' = lookupPlayer q s).
Proof.
  intros Hd Hp Ht Eb Hg Hc created.
  destruct (addNamedGame_games batch treatment s) as (Hid & Hgames & Hplayers & Hbatches).
  set (empty := set_players ∅ created).
  set (s1 := (addNamedGame newGameID batch treatment s).2) in *.
  assert (lookupPlayer pid s1 = Some p) as Hp1
    by (unfold lookupPlayer; by rewrite Hplayers).
  assert (distinctIds s1) as Hd1.
  { unfold s1, addNamedGame. simpl. unfold distinctIds.
    rewrite updateGame_ids by apply flagOnly_treatmentName.
    by apply (addGame_distinct newGameID newGameID_fresh newGameID_named). }
  assert (In empty (games s1)) as Hin1
    by (rewrite Hgames; apply List.in_or_app; right; by left).
  exists (seated empty pid s1).
  assert (dynamicGameCreation newGameID configs pid s = Done (seated empty pid s1)) as Hrun.
  { unfold dynamicGameCreation. rewrite Hp, Ht, Eb, find_filter_filter, Hg, Hc.
    rewrite (surjective_pairing (addNamedGame newGameID batch treatment s)).
    rewrite Hid. fold s1.
    change (newGameID (gameIds s)) with (g_id empty).
    by rewrite (assignPlayer_unassigned empty pid p s1 Hd1 Hin1 eq_refl Hp1 Ht). }
  split; [exact Hrun|]. split; [|split; [done|split]].
  - rewrite seated_games, Hgames, List.map_app. simpl.
    rewrite bool_decide_eq_true_2 by done. f_equal.
    + rewrite <- (List.map_id (games s)) at 2. apply List.map_ext_in.
      intros g Hin. rewrite bool_decide_eq_false_2; [done|].
      intros E. apply (newGameID_fresh (gameIds s)). rewrite <- E.
      unfold gameIds. by apply List.in_map.
    + unfold set_players, created. simpl. do 2 f_equal. set_solver.
  - by rewrite lookupPlayer_seated, bool_decide_eq_true_2, Hp1.
  - intros q Hq. rewrite lookupPlayer_seated, bool_decide_eq_false_2 by done.
    unfold lookupPlayer. by rewrite Hplayers.
Qed.

Lemma dynamicGameCreation_changes gd configs pid s s' :
  (∀ b treatment more, configs !! b = Some (treatment :: more) →
     (1 <= playerCount (t_factors treatment))%Z) →
  dynamicGameCreation newGameID configs pid s = Done s' →
  changes newGameID true gd s s'.
Proof.
  intros Hseats H. unfold dynamicGameCreation in H.
  destruct (lookupPlayer pid s) as [p|]; [|done].
  destruct (truthy (p_gameID p)); [injection H as <-; constructor|].
  destruct (List.filter isRunning (batches s)) as [|batch rest];
    [injection H as <-; constructor|].
  destruct (List.find hasOpenSlot _) as [g|] eqn:E.
  - apply find_some in E as [Hin Ho]. apply filter_In in Hin as [Hin _].
    destruct (assignPlayer (g_id g) pid s) as [s1|] eqn:E1; [|done].
    injection H as <-. by eapply seat_changes.
  - destruct (configs !! b_id batch) as [[|treatment more]|] eqn:Ec; [done| |done].
    specialize (Hseats _ _ _ Ec).
    destruct (addNamedGame_games batch treatment s) as (Hid & Hgames & _).
    destruct (addNamedGame newGameID batch treatment s) as [gid s1] eqn:Ea.
    simpl in Hid, Hgames. subst gid.
    destruct (assignPlayer (newGameID (gameIds s)) pid s1) as [s2|] eqn:E1; [|done].
    injection H as <-.
    eapply ch_create with (batch := batch) (t := t_factors treatment) (avg := None);
      [lia|].
    eapply ch_raise with (gid := newGameID (gameIds s))
                         (f := set_treatmentName (Some (t_name treatment)));
      [apply flagOnly_treatmentName|].
    assert (updateGame (newGameID (gameIds s))
              (set_treatmentName (Some (t_name treatment)))
              (addGame newGameID batch (t_factors treatment) None s).2 = s1) as ->.
    { unfold addNamedGame in Ea. simpl in Ea. by injection Ea. }
    eapply ch_seat; [|exact E1|constructor].
    intros _. eexists. split; [rewrite Hgames; apply List.in_or_app; right; by left|].
    split; [done|]. apply hasOpenSlot_lt.
    change (Z.of_nat (size (∅ : gset string)) < playerCount (t_factors treatment))%Z.
    rewrite size_empty. lia.
Qed.

End DynamicCreationFacts.

(** X11: dynamic game creation.  A player with a game, and a store with
    no running batch, are left as they are.  Otherwise, for the first
    running batch: if a game of that batch that has not ended (started or
    not) has an open slot, the player is assigned to the first such game;
    if none has and the config of the batch lists a treatment, one game is
    appended, in that batch, with the factors and the name of the first
    treatment and the player as its only member, and no other player is
    written to; if the config lists no treatment, the handler throws a
    [TypeError]. *)
Theorem dynamic_game_creation newGameID configs pid p s :
  (∀ used, ¬ In (newGameID used) used) →
  (∀ used, newGameID used ≠ EmptyString) →
  distinctIds s → lookupPlayer pid s = Some p →
  (truthy (p_gameID p) = true ∨ List.filter isRunning (batches s) = [] →
   dynamicGameCreation newGameID configs pid s = Done s) ∧
  (∀ batch rest,
     truthy (p_gameID p) = false → List.filter isRunning (batches s) = batch :: rest →
     let room := List.find (λ g, liveIn batch g && hasOpenSlot g) (games s) in
     (∀ g, room = Some g →
        dynamicGameCreation newGameID configs pid s = Done (seated g pid s)) ∧
     (∀ treatment more,
        room = None → configs !! b_id batch = Some (treatment :: more) →
        ∃ s',
          dynamicGameCreation newGameID configs pid s = Done s' ∧
          games s' = games s ++
            [{| g_id := newGameID (gameIds s); g_batchID := Some (b_id batch);
                g_hasStarted := false; g_hasEnded := false;
                g_treatment := t_factors treatment;
                g_treatmentName := Some (t_name treatment);
                g_requiredSkillLevel := None; g_averageSkillRating := None;
                g_players := {[pid]} |}] ∧
          batches s' = batches s ∧
          lookupPlayer pid s' =
            Some (set_assignment (Some (newGameID (gameIds s)))
                    (Some (t_factors treatment)) (Some (t_name treatment)) p) ∧
          (∀ q, q ≠ pid → lookupPlayer q s' = lookupPlayer q s)) ∧
     (room = None →
      configs !! b_id batch = None ∨ configs !! b_id batch = Some [] →
      dynamicGameCreation newGameID configs pid s = Threw typeError)).
Proof.
  intros Hfresh Hnamed Hd Hp. split.
  { intros H. unfold dynamicGameCreation. rewrite Hp.
    destruct (truthy (p_gameID p)); [done|]. destruct H as [H|H]; [done|].
    by rewrite H. }
  intros batch rest Ht Eb room. split; [|split].
  - intros g Hg.
    by destruct (dynamicGameCreation_room newGameID configs pid p batch rest g s
                   Hd Hp Ht Eb Hg) as (_ & _ & ?).
  - intros treatment more Hroom Hc.
    exact (dynamicGameCreation_creates newGameID Hfresh Hnamed configs pid p batch rest
             treatment more s Hd Hp Ht Eb Hroom Hc).
  - intros Hroom Hc. unfold dynamicGameCreation.
    rewrite Hp, Ht, Eb, find_filter_filter. fold room. rewrite Hroom.
    by destruct Hc as [-> | ->].
Qed.

Lemma crowded_distinct : distinctIds crowded.
Proof.
  split; [apply (bool_decide_unpack _); by vm_compute|].
  intros [H|[H|[]]]; discriminate H.
Qed.

Lemma dynamic_game_creation_witness :
  (∀ used, ¬ In (longerID used) used) ∧ (∀ used, longerID used ≠ EmptyString) ∧
  distinctIds crowded ∧ lookupPlayer "e" crowded = Some (newPlayer "e") ∧
  truthy (p_gameID (newPlayer "e")) = false ∧
  List.filter isRunning (batches crowded) = [{| b_id := "b1"; b_status := "running" |}] ∧
  List.find (λ g, liveIn {| b_id := "b1"; b_status := "running" |} g && hasOpenSlot g)
    (games crowded) = None ∧
  crowdedConfigs !! "b1" = Some [pairs] ∧
  ∃ s', dynamicGameCreation longerID crowdedConfigs "e" crowded = Done s' ∧
        List.map (λ g, (g_id g, g_treatmentName g)) (games s') =
          [("g1", None); ("g2", None); ("gg1g2", Some "pairs")] ∧
        p_gameID <$> lookupPlayer "e" s' = Some (Some "gg1g2").
Proof.
  assert (List.find (λ g, liveIn {| b_id := "b1"; b_status := "running" |} g &&
                          hasOpenSlot g) (games crowded) = None) as Hroom
    by (by vm_compute).
  assert (crowdedConfigs !! "b1" = Some [pairs]) as Hc by (by vm_compute).
  split; [exact longerID_fresh|]. split; [exact longerID_named|].
  split; [exact crowded_distinct|]. split; [reflexivity|]. split; [reflexivity|].
  split; [reflexivity|]. split; [exact Hroom|]. split; [exact Hc|].
  destruct (proj1 (proj2 (proj2 (dynamic_game_creation longerID crowdedConfigs "e"
                                   (newPlayer "e") crowded longerID_fresh longerID_named
                                   crowded_distinct eq_refl)
                            {| b_id := "b1"; b_status := "running" |} [] eq_refl eq_refl))
              pairs [] Hroom Hc) as (s' & Hrun & Hgames & _ & Hp & _).
  exists s'. split; [exact Hrun|]. split; [by rewrite Hgames|by rewrite Hp].
Defined.

(** X12: when the first treatment of every config seats at least one
    player, a run of the dynamic game creation keeps the ids of the games
    distinct, every game within its capacity and every member of an
    active game pointing to that game; it leaves every player in at most
    one active game and the ended games closed. *)
Theorem dynamic_creation_keeps_invariants newGameID configs pid s s' :
  (∀ used, ¬ In (newGameID used) used) →
  (∀ used, newGameID used ≠ EmptyString) →
  (∀ b treatment more, configs !! b = Some (treatment :: more) →
     (1 <= playerCount (t_factors treatment))%Z) →
  distinctIds s → withinCapacity s → referenced s →
  dynamicGameCreation newGameID configs pid s = Done s' →
  distinctIds s' ∧ withinCapacity s' ∧ referenced s' ∧ atMostOneActive s' ∧
  endedFrozen s s'.
Proof.
  intros Hfresh Hnamed Hseats Hd Hc Href Hrun.
  destruct (changes_invariants newGameID Hfresh Hnamed true true s s'
              (dynamicGameCreation_changes newGameID Hfresh true configs pid s s' Hseats Hrun) Hd)
    as (Hd' & Hc' & Href' & Hfrozen).
  split; [done|]. split; [by apply Hc'|]. split; [by apply Href'|].
  split; [apply referenced_atMostOne; [done|by apply Href']|done].
Qed.

Lemma crowded_referenced : referenced crowded.
Proof.
  intros g pid [<-|[<-|[]]] _ Hpid; simpl in Hpid.
  - apply elem_of_union in Hpid as [Hpid|Hpid].
    + apply elem_of_singleton in Hpid as ->. by eexists.
    + apply elem_of_union in Hpid as [Hpid|Hpid]; [|set_solver].
      apply elem_of_singleton in Hpid as ->. by eexists.
  - apply elem_of_union in Hpid as [Hpid|Hpid].
    + apply elem_of_singleton in Hpid as ->. by eexists.
    + apply elem_of_union in Hpid as [Hpid|Hpid]; [|set_solver].
      apply elem_of_singleton in Hpid as ->. by eexists.
Qed.

Lemma crowdedConfigs_seats b treatment more :
  crowdedConfigs !! b = Some (treatment :: more) →
  (1 <= playerCount (t_factors treatment))%Z.
Proof.
  unfold crowdedConfigs. intros H.
  apply lookup_singleton_Some in H as [_ H]. injection H as <- _. simpl. lia.
Qed.

Lemma dynamic_creation_keeps_invariants_witness :
  (∀ used, ¬ In (longerID used) used) ∧ (∀ used, longerID used ≠ EmptyString) ∧
  (∀ b treatment more, crowdedConfigs !! b = Some (treatment :: more) →
     (1 <= playerCount (t_factors treatment))%Z) ∧
  distinctIds crowded ∧ withinCapacity crowded ∧ referenced crowded ∧
  ∃ s', dynamicGameCreation longerID crowdedConfigs "e" crowded = Done s' ∧
        withinCapacity s' ∧ atMostOneActive s'.
Proof.
  assert (withinCapacity crowded) as Hc.
  { apply (bool_decide_unpack _). by vm_compute. }
  split; [exact longerID_fresh|]. split; [exact longerID_named|].
  split; [exact crowdedConfigs_seats|].
  split; [exact crowded_distinct|]. split; [exact Hc|]. split; [exact crowded_referenced|].
  eexists. split; [by vm_compute|].
  destruct (dynamic_creation_keeps_invariants longerID crowdedConfigs "e" crowded _
              longerID_fresh longerID_named crowdedConfigs_seats
              crowded_distinct Hc crowded_referenced eq_refl)
    as (_ & Hc' & _ & Hone & _).
  by split.
Defined.

(** X13: the dynamic game creation does not check the capacity of the
    game it creates: when the [playerCount] of the first treatment is
    below 1, the player is assigned to the new game all the same, and the
    store then holds a game with more members than its capacity. *)
Theorem dynamic_creation_ignores_capacity newGameID configs pid p batch rest treatment more s :
  (∀ used, ¬ In (newGameID used) used) →
  (∀ used, newGameID used ≠ EmptyString) →
  distinctIds s → lookupPlayer pid s = Some p → truthy (p_gameID p) = false →
  List.filter isRunning (batches s) = batch :: rest →
  List.find (λ g, liveIn batch g && hasOpenSlot g) (games s) = None →
  configs !! b_id batch = Some (treatment :: more) →
  (playerCount (t_factors treatment) < 1)%Z →
  ∃ s', dynamicGameCreation newGameID configs pid s = Done s' ∧ ¬ withinCapacity s'.
Proof.
  intros Hfresh Hnamed Hd Hp Ht Eb Hroom Hc Hseats.
  destruct (dynamicGameCreation_creates newGameID Hfresh Hnamed configs pid p batch rest
              treatment more s Hd Hp Ht Eb Hroom Hc) as (s' & Hrun & Hgames & _).
  exists s'. split; [exact Hrun|].
  unfold withinCapacity. rewrite Hgames. intros H.
  apply List.Forall_app in H as [_ H]. apply List.Forall_inv in H.
  change (Z.of_nat (size ({[pid]} : gset string)) <= playerCount (t_factors treatment))%Z
    in H.
  rewrite size_singleton in H. lia.
Qed.

Lemma dynamic_creation_ignores_capacity_witness :
  (∀ used, ¬ In (longerID used) used) ∧ (∀ used, longerID used ≠ EmptyString) ∧
  distinctIds crowded ∧ lookupPlayer "e" crowded = Some (newPlayer "e") ∧
  truthy (p_gameID (newPlayer "e")) = false ∧
  (playerCount (t_factors noSeats) < 1)%Z ∧
  withinCapacity crowded ∧
  ∃ s', dynamicGameCreation longerID {[ "b1" := [noSeats] ]} "e" crowded = Done s' ∧
        ¬ withinCapacity s'.
Proof.
  assert (withinCapacity crowded) as Hc.
  { apply (bool_decide_unpack _). by vm_compute. }
  assert (playerCount (t_factors noSeats) < 1)%Z as Hseats by (simpl; lia).
  assert (List.find (λ g, liveIn {| b_id := "b1"; b_status := "running" |} g &&
                          hasOpenSlot g) (games crowded) = None) as Hroom
    by (by vm_compute).
  assert (({[ "b1" := [noSeats] ]} : gmap string (list TreatmentEntry)) !!
            b_id {| b_id := "b1"; b_status := "running" |} = Some [noSeats]) as Hcfg
    by (by vm_compute).
  split; [exact longerID_fresh|]. split; [exact longerID_named|].
  split; [exact crowded_distinct|]. split; [reflexivity|]. split; [reflexivity|].
  split; [exact Hseats|]. split; [exact Hc|].
  exact (dynamic_creation_ignores_capacity longerID {[ "b1" := [noSeats] ]} "e"
           (newPlayer "e") {| b_id := "b1"; b_status := "running" |} [] noSeats []
           crowded longerID_fresh longerID_named crowded_distinct eq_refl eq_refl
           eq_refl Hroom Hcfg Hseats).
Defined.

(** ** Use case 2: custom batch configuration *)

(** X14: the custom batch handler calls [addGame] for no game when the
    kind of the batch is not ["custom"] or [numGames] is not positive; for
    a custom batch it calls it [numGames] times; the call at position [i]
    sets [gameIndex] to [i], [customAttribute] to ["myValue"], and an
    immutable [treatment] that holds the [customFactors] and the config's
    [playerCount], unless the [customFactors] have a [playerCount] of
    their own, which wins. *)
Theorem custom_batch_games config :
  (c_kind config ≠ "custom" ∨ (c_numGames config <= 0)%Z → customBatch config = []) ∧
  (c_kind config = "custom" →
     Z.of_nat (length (customBatch config)) = Z.max 0 (c_numGames config) ∧
     (∀ i game, nth_error (customBatch config) i = Some game →
        attributeNamed "gameIndex" game = Some (VNumber (Z.of_nat i)) ∧
        attributeNamed "customAttribute" game = Some (VString "myValue") ∧
        ∃ factors,
          attributeNamed "treatment" game = Some (VFactors factors) ∧
          In {| a_key := "treatment"; a_value := VFactors factors; a_immutable := true |}
            game ∧
          factors !! "playerCount" =
            Some (default (FNumber (c_playerCount config))
                    (c_customFactors config !! "playerCount")) ∧
          ∀ k, k ≠ "playerCount" → factors !! k = c_customFactors config !! k)).
Proof.
  unfold customBatch. split.
  - intros [H|H].
    + by rewrite bool_decide_eq_true_2.
    + destruct (bool_decide _); [done|].
      by replace (Z.to_nat (c_numGames config)) with 0 by lia.
  - intros Hk. rewrite bool_decide_eq_false_2 by (intros H; by apply H).
    split; [rewrite length_map, length_seq; lia|].
    intros i game Hi.
    rewrite nth_error_map, nth_error_seq in Hi.
    destruct (i <? Z.to_nat (c_numGames config)); [|done].
    injection Hi as <-.
    split; [done|]. split; [done|].
    exists (customTreatment config). split; [done|]. split; [by left|].
    unfold customTreatment. split.
    + rewrite lookup_union.
      destruct (c_customFactors config !! "playerCount") as [v|]; simpl.
      * by rewrite lookup_singleton_eq.
      * by rewrite lookup_singleton_eq.
    + intros k' Hk''. rewrite lookup_union, lookup_singleton_ne by done.
      by destruct (c_customFactors config !! k').
Qed.

Lemma custom_batch_games_witness :
  c_kind threeHardGames = "custom" ∧
  Z.of_nat (length (customBatch threeHardGames)) = 3%Z ∧
  ∃ game factors,
    nth_error (customBatch threeHardGames) 2 = Some game ∧
    attributeNamed "gameIndex" game = Some (VNumber 2) ∧
    attributeNamed "treatment" game = Some (VFactors factors) ∧
    factors !! "playerCount" = Some (FNumber 4) ∧
    factors !! "difficulty" = Some (FString "hard").
Proof.
  destruct (proj2 (custom_batch_games threeHardGames) eq_refl) as [Hlen Hgames].
  split; [reflexivity|]. split; [exact Hlen|].
  destruct (Hgames 2 (customGame threeHardGames 2) eq_refl)
    as (Hindex & _ & factors & Htreatment & _ & Hcount & Hrest).
  exists (customGame threeHardGames 2), factors.
  split; [reflexivity|]. split; [exact Hindex|]. split; [exact Htreatment|].
  split; [exact Hcount|]. by rewrite Hrest.
Defined.

(** ** The client: the participant key *)

Lemma string_get_lt (s : string) i :
  i < String.length s →
  ∃ c, String.get i s = Some c ∧ In c (String.list_ascii_of_string s).
Proof.
  revert i. induction s as [|a s IH]; intros i Hi; simpl in Hi; [lia|].
  destruct i as [|i]; simpl.
  - exists a. split; [done|by left].
  - destruct (IH i) as (c & Hc & Hin); [lia|]. exists c. split; [done|by right].
Qed.

Lemma list_ascii_of_string_append (a b : string) :
  String.list_ascii_of_string (a +:+ b) = String.list_ascii_of_string a ++ String.list_ascii_of_string b.
Proof. induction a as [|c a IH]; simpl; [done|by rewrite IH]. Qed.

Lemma charAt_chars u :
  (0 <= u)%Q → (u < 1)%Q →
  ∃ c, charAt chars (randomIndex u (String.length chars)) = String c EmptyString ∧
       In c (String.list_ascii_of_string chars).
Proof.
  intros H0 H1.
  destruct (string_get_lt chars (randomIndex u (String.length chars)))
    as (c & Hc & Hin); [apply randomIndex_lt; [done|done|simpl; lia]|].
  exists c. unfold charAt. by rewrite Hc.
Qed.

Lemma generated_loop rand (indices : list nat) : ∀ result,
  unitDraws rand →
  String.length
    (foldl (λ result i, result +:+ charAt chars (randomIndex (rand i) (String.length chars)))
       result indices) = String.length result + length indices ∧
  (alphanumeric result →
   alphanumeric
     (foldl (λ result i, result +:+ charAt chars (randomIndex (rand i) (String.length chars)))
        result indices)).
Proof.
  induction indices as [|i indices IH]; intros result Hrand.
  - split; [simpl; lia|done].
  - destruct (Hrand i) as [H0 H1].
    destruct (charAt_chars (rand i) H0 H1) as (c & Hc & Hin).
    cbn [foldl]. rewrite Hc.
    destruct (IH (result +:+ String c EmptyString) Hrand) as [Hlen Halpha].
    split.
    + rewrite Hlen, string_length_append. simpl. lia.
    + intros Hres. apply Halpha. unfold alphanumeric.
      rewrite list_ascii_of_string_append. apply List.Forall_app. split; [done|].
      simpl. by constructor.
Qed.

(** X15: with the draws of [Math.random] in [0, 1),
    [generateRandomKey(length)] returns a string of exactly [length]
    characters, each one of [chars]; [generatePlayerID()] is the same
    loop run 12 times, and its id has 12 characters. *)
Theorem generated_keys_are_alphanumeric rand length :
  unitDraws rand →
  String.length (generateRandomKey rand length) = length ∧
  alphanumeric (generateRandomKey rand length) ∧
  generatePlayerID rand = generateRandomKey rand 12 ∧
  String.length (generatePlayerID rand) = 12.
Proof.
  intros Hrand.
  destruct (generated_loop rand (seq 0 length) EmptyString Hrand) as [Hlen Halpha].
  rewrite length_seq in Hlen.
  split; [exact Hlen|]. split; [apply Halpha; constructor|]. split; [done|].
  destruct (generated_loop rand (seq 0 12) EmptyString Hrand) as [Hlen' _].
  exact Hlen'.
Qed.

Lemma halves_unit : unitDraws halves.
Proof. intros i. by split. Qed.

Lemma generated_keys_are_alphanumeric_witness :
  unitDraws halves ∧
  generateRandomKey halves 8 = "ffffffff" ∧
  String.length (generateRandomKey halves 8) = 8 ∧
  alphanumeric (generateRandomKey halves 8).
Proof.
  split; [exact halves_unit|]. split; [by vm_compute|].
  destruct (generated_keys_are_alphanumeric halves 8 halves_unit) as (Hlen & Halpha & _).
  by split.
Defined.

Lemma urlGet_urlSet name value params :
  urlGet name (urlSet name value params) = Some value.
Proof.
  unfold urlGet. induction params as [|kv rest IH]; simpl.
  - by rewrite bool_decide_eq_true_2.
  - destruct (bool_decide (kv.1 = name)) eqn:E; simpl.
    + by rewrite bool_decide_eq_true_2.
    + by rewrite E.
Qed.

Lemma urlGet_urlSet_other name value other params :
  other ≠ name → urlGet other (urlSet name value params) = urlGet other params.
Proof.
  intros Hne. unfold urlGet. induction params as [|kv rest IH]; simpl.
  - by rewrite bool_decide_eq_false_2.
  - destruct (bool_decide (kv.1 = name)) eqn:E; simpl.
    + apply bool_decide_eq_true in E.
      rewrite !bool_decide_eq_false_2 by congruence.
      f_equal. clear IH. induction rest as [|kv' rest IH]; simpl; [done|].
      destruct (bool_decide (kv'.1 = name)) eqn:E'; simpl.
      * apply bool_decide_eq_true in E'.
        by rewrite bool_decide_eq_false_2 by congruence.
      * destruct (bool_decide (kv'.1 = other)); [done|exact IH].
    + destruct (bool_decide (kv.1 = other)); [done|exact IH].
Qed.

(** X16: with the draws of [Math.random] in [0, 1), the key that [App]
    passes on is never empty and is the [participantKey] of the query
    that [App] leaves; the other parameters of the query are untouched; a
    non-empty [participantKey] already in the query is kept and the URL
    is not replaced; and [App] run again on the query it left returns the
    same key without replacing the URL, whatever the new draws. *)
Theorem participant_key_is_stable rand locationSearch :
  unitDraws rand →
  let app := App rand locationSearch in
  app_playerKey app ≠ EmptyString ∧
  urlGet "participantKey" (app_search app) = Some (app_playerKey app) ∧
  (∀ name, name ≠ "participantKey" →
     urlGet name (app_search app) = urlGet name locationSearch) ∧
  (∀ key, urlGet "participantKey" locationSearch = Some key → key ≠ EmptyString →
     app = {| app_playerKey := key; app_search := locationSearch;
              app_urlUpdated := false |}) ∧
  (∀ rand',
     App rand' (app_search app) =
     {| app_playerKey := app_playerKey app; app_search := app_search app;
        app_urlUpdated := false |}).
Proof.
  intros Hrand app.
  assert (Hkept : ∀ r search key, urlGet "participantKey" search = Some key →
            key ≠ EmptyString →
            App r search = {| app_playerKey := key; app_search := search;
                              app_urlUpdated := false |}).
  { intros r search key Hk Hne. unfold App. rewrite Hk. simpl.
    by rewrite bool_decide_eq_false_2. }
  assert (generateRandomKey rand 8 ≠ EmptyString) as Hgen.
  { destruct (generated_loop rand (seq 0 8) EmptyString Hrand) as [Hlen _].
    intros E. unfold generateRandomKey in E. rewrite E in Hlen. simpl in Hlen. lia. }
  assert (app_playerKey app ≠ EmptyString ∧
          urlGet "participantKey" (app_search app) = Some (app_playerKey app) ∧
          (∀ name, name ≠ "participantKey" →
             urlGet name (app_search app) = urlGet name locationSearch)) as (Hne & Hurl & Hrest).
  { unfold app, App.
    destruct (urlGet "participantKey" locationSearch) as [key|] eqn:Ek; simpl.
    - destruct (bool_decide (key = EmptyString)) eqn:E; simpl.
      + split; [done|]. split; [apply urlGet_urlSet|].
        intros name Hname. by apply urlGet_urlSet_other.
      + apply bool_decide_eq_false in E. by split.
    - split; [done|]. split; [apply urlGet_urlSet|].
      intros name Hname. by apply urlGet_urlSet_other. }
  split; [done|]. split; [done|]. split; [done|].
  split; [intros key Hk Hkne; by apply Hkept|].
  intros rand'. by apply Hkept.
Qed.

Lemma participant_key_is_stable_witness :
  unitDraws halves ∧
  App halves [("lang", "en")] =
    {| app_playerKey := "ffffffff";
       app_search := [("lang", "en"); ("participantKey", "ffffffff")];
       app_urlUpdated := true |} ∧
  ∀ rand',
    App rand' [("lang", "en"); ("participantKey", "ffffffff")] =
    {| app_playerKey := "ffffffff";
       app_search := [("lang", "en"); ("participantKey", "ffffffff")];
       app_urlUpdated := false |}.
Proof.
  split; [exact halves_unit|]. split; [by vm_compute|].
  destruct (participant_key_is_stable halves [("lang", "en")] halves_unit)
    as (_ & _ & _ & _ & Hagain).
  exact Hagain.
Defined.

(** ** The basic setup run twice *)








(** ** A second run *)

Lemma updatePlayer_again pid f s :
  (∀ p, p_id (f p) = p_id p) → (∀ p, f (f p) = f p) →
  updatePlayer pid f (updatePlayer pid f s) = updatePlayer pid f s.
Proof.
  intros Hid Hf. unfold updatePlayer. simpl. f_equal.
  rewrite List.map_map. apply List.map_ext. intros p.
  destruct (bool_decide (p_id p = pid)) eqn:E.
  - rewrite Hid, E. apply Hf.
  - by rewrite E.
Qed.

Lemma seated_assigned g pid p s :
  distinctIds s → In g (games s) → lookupPlayer pid s = Some p →
  ∃ p', lookupPlayer pid (seated g pid s) = Some p' ∧ truthy (p_gameID p') = true.
Proof.
  intros [_ Hne] Hin Hp. eexists. split.
  - by rewrite lookupPlayer_seated, bool_decide_eq_true_2, Hp.
  - simpl. rewrite bool_decide_eq_false_2; [done|].
    intros E. apply Hne. rewrite <- E. unfold gameIds. by apply List.in_map.
Qed.

(** X18: run a second time for the same player on the store it left,
    the conditional assignment, the treatment-specific assignment and the
    dynamic game creation change nothing; in particular a repeated event
    creates no second game. *)
Theorem second_run_changes_nothing newGameID configs assigned pid s :
  (∀ used, ¬ In (newGameID used) used) →
  (∀ used, newGameID used ≠ EmptyString) →
  distinctIds s →
  (∀ s', conditionalAssignment pid s = Ok s' → conditionalAssignment pid s' = Ok s') ∧
  (∀ s', treatmentSpecificAssignment assigned pid s = Ok s' →
         treatmentSpecificAssignment assigned pid s' = Ok s') ∧
  (∀ s', dynamicGameCreation newGameID configs pid s = Done s' →
         dynamicGameCreation newGameID configs pid s' = Done s').
Proof.
  intros Hfresh Hnamed Hd. split; [|split].
  - intros s' Hrun. pose proof Hrun as H.
    apply withPlayer_Ok in H as (p & Hp & H).
    destruct (truthy (p_gameID p)) eqn:Ht; [by injection H as <-|].
    destruct (negb (p_surveyComplete p) || negb (p_termsAgreed p)) eqn:Egate.
    { injection H as <-. unfold conditionalAssignment, withPlayer.
      rewrite lookupPlayer_update, bool_decide_eq_true_2, Hp by done. simpl.
      rewrite Ht, Egate. f_equal. by apply updatePlayer_again. }
    destruct (List.find hasOpenSlot (List.filter notEndedNotStarted (games s)))
      as [g|] eqn:E; [|by injection H as <-].
    pose proof (find_some _ _ E) as [Hin _]. apply filter_In in Hin as [Hin Ho].
    apply notEndedNotStarted_flags in Ho as [He _].
    rewrite (assignPlayer_unassigned g pid p s Hd Hin He Hp Ht) in H.
    injection H as <-.
    destruct (seated_assigned g pid p s Hd Hin Hp) as (p' & Hp' & Ht').
    unfold conditionalAssignment, withPlayer.
    rewrite lookupPlayer_update, bool_decide_eq_true_2, Hp' by done. simpl.
    by rewrite Ht'.
  - intros s' Hrun. pose proof Hrun as H.
    apply withPlayer_Ok in H as (p & Hp & H).
    destruct (truthy (p_gameID p)) eqn:Ht; [by injection H as <-|].
    destruct (negb (truthy (assigned !! pid))) eqn:Ea; [by injection H as <-|].
    cbv zeta in H.
    set (t := default EmptyString (assigned !! pid)) in *.
    destruct (List.find hasOpenSlot (treatmentGames t s)) as [g|] eqn:E.
    + pose proof (find_some _ _ E) as [Hin _]. apply filter_In in Hin as [Hin Ho].
      assert (g_hasEnded g = false) as He
        by (destruct (g_hasEnded g); [done|done]).
      rewrite (assignPlayer_unassigned g pid p s Hd Hin He Hp Ht) in H.
      destruct (seated_assigned g pid p s Hd Hin Hp) as (p' & Hp' & Ht').
      simpl in H. unfold withPlayer in H. rewrite Hp', Ht' in H. simpl in H.
      injection H as <-.
      unfold treatmentSpecificAssignment, withPlayer. by rewrite Hp', Ht'.
    + simpl in H. unfold withPlayer in H. rewrite Hp, Ht in H. simpl in H.
      injection H as <-.
      unfold treatmentSpecificAssignment, withPlayer at 1.
      rewrite lookupPlayer_update, bool_decide_eq_true_2, Hp by done. simpl.
      rewrite Ht, Ea. cbv zeta. fold t.
      change (games (updatePlayer pid (set_waitingReason (Some (waitingFor t))) s))
        with (games s) in *.
      assert (treatmentGames t (updatePlayer pid (set_waitingReason (Some (waitingFor t))) s)
              = treatmentGames t s) as -> by done.
      rewrite E. simpl. unfold withPlayer.
      rewrite lookupPlayer_update, bool_decide_eq_true_2, Hp by done. simpl.
      rewrite Ht. simpl. f_equal. by apply updatePlayer_again.
  - intros s' Hrun. pose proof Hrun as H. unfold dynamicGameCreation in H.
    destruct (lookupPlayer pid s) as [p|] eqn:Hp; [|done].
    destruct (truthy (p_gameID p)) eqn:Ht; [by injection H as <-|].
    destruct (List.filter isRunning (batches s)) as [|batch rest] eqn:Eb;
      [by injection H as <-|].
    rewrite find_filter_filter in H.
    assert (∀ p', lookupPlayer pid s' = Some p' → truthy (p_gameID p') = true →
                  dynamicGameCreation newGameID configs pid s' = Done s') as Hguard.
    { intros p' Hp' Ht'. unfold dynamicGameCreation. by rewrite Hp', Ht'. }
    destruct (List.find (λ g, liveIn batch g && hasOpenSlot g) (games s)) as [g|] eqn:E.
    + destruct (dynamicGameCreation_room newGameID configs pid p batch rest g s
                  Hd Hp Ht Eb E) as (Hin & _ & Hrun').
      rewrite Hrun' in Hrun. injection Hrun as <-.
      destruct (seated_assigned g pid p s Hd Hin Hp) as (p' & Hp' & Ht').
      by apply (Hguard p').
    + destruct (configs !! b_id batch) as [[|treatment more]|] eqn:Ec; [done| |done].
      destruct (dynamicGameCreation_creates newGameID Hfresh Hnamed configs pid p batch
                  rest treatment more s Hd Hp Ht Eb E Ec) as (t' & Hrun' & _ & _ & Hp' & _).
      rewrite Hrun' in Hrun. injection Hrun as <-.
      apply (Hguard _ Hp'). simpl. rewrite bool_decide_eq_false_2; [done|].
      apply Hnamed.
Qed.

Lemma second_run_changes_nothing_witness :
  (∀ used, ¬ In (longerID used) used) ∧ (∀ used, longerID used ≠ EmptyString) ∧
  distinctIds crowded ∧
  ∃ s', dynamicGameCreation longerID crowdedConfigs "e" crowded = Done s' ∧
        List.map g_id (games s') = ["g1"; "g2"; "gg1g2"] ∧
        dynamicGameCreation longerID crowdedConfigs "e" s' = Done s'.
Proof.
  split; [exact longerID_fresh|]. split; [exact longerID_named|].
  split; [exact crowded_distinct|].
  eexists. split; [by vm_compute|]. split; [reflexivity|].
  refine (proj2 (proj2 (second_run_changes_nothing longerID crowdedConfigs ∅ "e" crowded
                          longerID_fresh longerID_named crowded_distinct)) _ _).
  by vm_compute.
Defined.
